(** * Multi-agent orchestration and consensus engine (ai.py)

    A shallow embedding of the orchestration-and-consensus core of [ai.py]:
    the entropy meter, the model rotator, the consensus assembler and the
    round/agent loop of the [/api/orchestrate] endpoint.

    Modelling conventions.
    - A Python [str] is a Rocq [string]; text-processing functions work on
      its list of characters.  Characters are the code points below 256.
    - A Python [float] is idealised as a real number ([R]) where the
      program orders, selects and bounds; [round(x, 3)] is there rounding
      to the nearest multiple of 1/1000, ties to even.  The values that the
      arithmetic of the assembler produces are those of binary64 numbers;
      the module [Binary64] has the loops of the assembler on them.
    - A Python [dict] is an association list in insertion order, which is
      the order Python iterates a dict in.
    - Exceptions are values of [exn]; code that may raise returns
      [result A].
    - [hashlib], [time], [random] and the HTTP call to the generation
      service are parameters of the orchestration section.
    - A request is processed from its first line to its last without
      another request in between: the global counter of the rotator is
      threaded through the calls of one request. *)

From Stdlib Require Import List String Ascii Bool Arith ZArith Lia.
From Stdlib Require Import Reals Lra Permutation Sorted.
From Stdlib Require Decimal DecimalString DecimalNat DecimalFacts ListSet Finite.
From Stdlib Require Floats Uint63.
Import ListNotations.

Set Implicit Arguments.

(* ------------------------------------------------------------------ *)
(** ** Python runtime: exceptions, dicts, numbers *)

Module Py.

Inductive exn : Type :=
| ZeroDivisionError
| ValueError
| TypeError
| IndexError
| AttributeError
| UnicodeEncodeError
| RequestException (msg : string).

Inductive result (A : Type) : Type :=
| Ok (a : A)
| Raise (e : exn).

Arguments Ok {A} a.
Arguments Raise {A} e.

Definition bind {A B : Type} (c : result A) (k : A -> result B) : result B :=
  match c with
  | Ok a => k a
  | Raise e => Raise e
  end.

(** [str] as a list of characters and back. *)
Definition chars (s : string) : list ascii := list_ascii_of_string s.
Definition str (l : list ascii) : string := string_of_list_ascii l.

(** [len(s)] *)
Definition len (s : string) : nat := List.length (chars s).

(** Insertion-ordered dictionaries. *)
Section Dict.
Variables (K V : Type) (eqb : K -> K -> bool).

Definition dict := list (K * V).

Fixpoint get (d : dict) (k : K) : option V :=
  match d with
  | [] => None
  | (k', v) :: rest => if eqb k' k then Some v else get rest k
  end.

(** [d.get(k, default)] *)
Definition get_default (d : dict) (k : K) (default : V) : V :=
  match get d k with
  | Some v => v
  | None => default
  end.

(** [d[k] = v]: an existing key keeps its position, a new key goes last. *)
Fixpoint set (d : dict) (k : K) (v : V) : dict :=
  match d with
  | [] => [(k, v)]
  | (k', v') :: rest =>
      if eqb k' k then (k', v) :: rest else (k', v') :: set rest k v
  end.

Definition keys (d : dict) : list K := map fst d.
Definition values (d : dict) : list V := map snd d.
End Dict.

(** [a / b] on numbers: raises on a zero divisor. *)
Definition div (a b : R) : result R :=
  if Req_dec_T b 0 then Raise ZeroDivisionError else Ok (a / b)%R.

(** [math.log2(x)]: raises a [ValueError] outside its domain. *)
Definition log2 (x : R) : result R :=
  if Rle_dec x 0 then Raise ValueError else Ok (ln x / ln 2)%R.

(** Nearest integer, ties to the even neighbour. *)
Definition round_half_even (y : R) : Z :=
  let f := Int_part y in
  let d := (y - IZR f)%R in
  if Rlt_dec d (1 / 2) then f
  else if Rlt_dec (1 / 2) d then (f + 1)%Z
  else if Z.even f then f else (f + 1)%Z.

(** [round(x, 3)] on real numbers: the nearest multiple of 1/1000, ties to
    even.  The program rounds a binary64 number, whose exact value decides
    a tie, and reads the decimal back as a binary64 number
    ([Binary64.round3]); on the reals a sum such as [4 + 1.5 + 9.6015] is
    a tie that the binary64 sum is not. *)
Definition round3 (x : R) : R :=
  (IZR (round_half_even (x * 1000)) / 1000)%R.

(** [str(n)] for a non-negative [int]. *)
Definition str_of_nat (n : nat) : string :=
  DecimalString.NilZero.string_of_uint (Nat.to_uint n).

End Py.

Import Py.

Notation "x <- c ;; k" := (Py.bind c (fun x => k))
  (at level 61, c at next level, right associativity).

(* ------------------------------------------------------------------ *)
(** ** EntropyMeter: [calculate_entropy] *)

Module Entropy.

(** [char_counts[char] = char_counts.get(char, 0) + 1] *)
Definition count_char (char_counts : dict ascii nat) (char : ascii)
  : dict ascii nat :=
  set Ascii.eqb char_counts char (get_default Ascii.eqb char_counts char 0 + 1).

(** The second loop: [for count in char_counts.values(): ...] *)
Fixpoint entropy_loop (counts : list nat) (length : nat) (entropy : R)
  : result R :=
  match counts with
  | [] => Ok entropy
  | count :: rest =>
      probability <- Py.div (INR count) (INR length) ;;
      l <- Py.log2 probability ;;
      entropy_loop rest length (entropy - probability * l)%R
  end.

Definition calculate_entropy (hash_string : string) : result R :=
  let char_counts := fold_left count_char (chars hash_string) [] in
  let length := len hash_string in
  entropy <- entropy_loop (values char_counts) length 0%R ;;
  Ok (round3 entropy).

End Entropy.

(* ------------------------------------------------------------------ *)
(** ** Data model *)

(** One agent's candidate for one round: the dict built at the end of the
    inner loop of [orchestrate]. *)
Module Fragment.
Record t : Type := mk {
  agentId : string;
  origin : string;
  round : nat;
  candidate : string;
  entropy : R;
  model : string
}.
End Fragment.

(** A value of [candidate_groups] in [assemble_final_answer]. *)
Module Group.
Record t : Type := mk {
  candidates : list Fragment.t;
  totalEntropy : R;
  agents : list string;          (* set() *)
  rounds : list nat;             (* set() *)
  root_candidate : option Fragment.t
}.

Definition empty : t := mk [] 0 [] [] None.
End Group.

(** An element of [scored_groups]. *)
Module ScoredGroup.
Record t : Type := mk {
  key : string;
  score : R;
  agentCount : nat;
  roundCount : nat;
  avgEntropy : R;
  rootAgent : string;
  rootEntropy : R;
  candidate : string
}.
End ScoredGroup.

(** The dict returned by [assemble_final_answer].  The keys that only the
    non-degenerate result has are gathered in [top]. *)
Module ConsensusResult.
Record stats : Type := mk_stats {
  agentCount : nat;
  roundCount : nat;
  avgEntropy : R;
  rootAgent : string;
  rootEntropy : R
}.

Record t : Type := mk {
  genesis : string;
  selectedCandidate : string;
  score : R;
  top : option stats;
  allGroups : list ScoredGroup.t
}.
End ConsensusResult.

(* ------------------------------------------------------------------ *)
(** ** Text helpers of [str] used by the program *)

Module Text.

Definition newline : ascii := "010"%char.
Definition nl : string := String newline EmptyString.
Definition dquote : string := String "034"%char EmptyString.

(** [c.isspace()] for a code point below 256. *)
Definition isspace (c : ascii) : bool :=
  let n := nat_of_ascii c in
  ((9 <=? n) && (n <=? 13)) || ((28 <=? n) && (n <=? 32))
  || (n =? 133) || (n =? 160).

Fixpoint lstrip (s : list ascii) : list ascii :=
  match s with
  | [] => []
  | c :: rest => if isspace c then lstrip rest else s
  end.

Definition rstrip (s : list ascii) : list ascii := List.rev (lstrip (List.rev s)).

(** [s.strip()] *)
Definition strip (s : list ascii) : list ascii := lstrip (rstrip s).

(** [s.split('\n')] *)
Fixpoint split_lines (s : list ascii) : list (list ascii) :=
  match s with
  | [] => [[]]
  | c :: rest =>
      if Ascii.eqb c newline then [] :: split_lines rest
      else match split_lines rest with
           | [] => [[c]]
           | line :: lines => (c :: line) :: lines
           end
  end.

(** ["\n".join(lines)] *)
Fixpoint join_lines (lines : list (list ascii)) : list ascii :=
  match lines with
  | [] => []
  | line :: rest =>
      match rest with
      | [] => line
      | _ :: _ => line ++ newline :: join_lines rest
      end
  end.

(** [line.startswith('//')] *)
Definition startswith_slashes (line : list ascii) : bool :=
  match line with
  | c1 :: c2 :: _ => Ascii.eqb c1 "/"%char && Ascii.eqb c2 "/"%char
  | _ => false
  end.

(** [s.replace('\s', '')]: ['\s'] is no escape sequence of Python, so the
    pattern is the two characters backslash and [s]. *)
Fixpoint remove_backslash_s (s : list ascii) : list ascii :=
  match s with
  | [] => []
  | c :: rest =>
      match rest with
      | [] => [c]
      | c2 :: rest2 =>
          if Ascii.eqb c "\"%char && Ascii.eqb c2 "s"%char
          then remove_backslash_s rest2
          else c :: remove_backslash_s rest
      end
  end.

(** [s[:n]] *)
Definition prefix (n : nat) (s : string) : string := str (firstn n (chars s)).

End Text.

(* ------------------------------------------------------------------ *)
(** ** ModelRotator: [get_next_model] and the global counter *)

Module Config.
Definition OLLAMA_MODELS : list string :=
    [ "gemma:latest"; "deepseek-coder:latest"; "gemma:latest";
      "deepseek-coder:latest"; "gemma:latest" ]%string.
End Config.

(** Computations that read and write the global [ollama_model_index] and
    may raise.  The counter keeps its value when an exception escapes. *)
Module Global.
Definition M (A : Type) : Type := nat -> result A * nat.

Definition ret {A : Type} (a : A) : M A := fun idx => (Ok a, idx).

Definition bind {A B : Type} (c : M A) (k : A -> M B) : M B :=
    fun idx =>
      match c idx with
      | (Ok a, idx') => k a idx'
      | (Raise e, idx') => (Raise e, idx')
      end.

Definition lift {A : Type} (c : result A) : M A := fun idx => (c, idx).
End Global.

Notation "x <~ c ;; k" := (Global.bind c (fun x => k))
  (at level 61, c at next level, right associativity).

Module Rotator.
Section Rotate.
Variable OLLAMA_MODELS : list string.

Definition get_next_model : Global.M string :=
    fun ollama_model_index =>
      match List.length OLLAMA_MODELS with
      | 0 => (Raise ZeroDivisionError, ollama_model_index)
      | S _ as n =>
          match nth_error OLLAMA_MODELS (ollama_model_index mod n) with
          | Some model => (Ok model, ollama_model_index + 1)
          | None => (Raise IndexError, ollama_model_index)
          end
      end.
End Rotate.
End Rotator.

(* ------------------------------------------------------------------ *)
(** ** ConsensusAssembler: [assemble_final_answer] *)

Module Assembler.

Definition is_comment_line (line : list ascii) : bool :=
  Text.startswith_slashes (Text.strip line).

(** The grouping key of a candidate text (lines 111-112). *)
Definition normalize (candidate : list ascii) : list ascii :=
  let key := Text.split_lines candidate in
  Text.strip
    (Text.remove_backslash_s
       (Text.join_lines
          (filter (fun line => negb (is_comment_line line)) key))).

Definition group_key (fragment : Fragment.t) : string :=
  str (normalize (chars (Fragment.candidate fragment))).

(** Lines 132-133: a later fragment replaces the root only when its entropy
    is strictly higher. *)
Definition track_root (root : option Fragment.t) (fragment : Fragment.t)
  : option Fragment.t :=
  match root with
  | None => Some fragment
  | Some r =>
      if Rgt_dec (Fragment.entropy fragment) (Fragment.entropy r)
      then Some fragment else Some r
  end.

(** The body of the first loop (lines 110-133).  The group is a mutable
    dict held by [candidate_groups]; updating it in place is writing it back
    under its key, which keeps the key's position. *)
Definition add_fragment (candidate_groups : dict string Group.t)
  (fragment : Fragment.t) : dict string Group.t :=
  let key := group_key fragment in
  if String.eqb key EmptyString then candidate_groups
  else
    let candidate_groups :=
      match get String.eqb candidate_groups key with
      | None => set String.eqb candidate_groups key Group.empty
      | Some _ => candidate_groups
      end in
    let group := get_default String.eqb candidate_groups key Group.empty in
    let group :=
      Group.mk
        (Group.candidates group ++ [fragment])
        (Group.totalEntropy group + Fragment.entropy fragment)
        (ListSet.set_add string_dec (Fragment.agentId fragment)
           (Group.agents group))
        (ListSet.set_add Nat.eq_dec (Fragment.round fragment)
           (Group.rounds group))
        (track_root (Group.root_candidate group) fragment) in
    set String.eqb candidate_groups key group.

(** [obj[...]] on a value that may be [None]. *)
Definition subscript {A : Type} (obj : option A) : result A :=
  match obj with
  | Some a => Ok a
  | None => Raise TypeError
  end.

(** The second loop (lines 137-156). *)
Fixpoint score_loop (items : list (string * Group.t))
  (scored_groups : list ScoredGroup.t) : result (list ScoredGroup.t) :=
  match items with
  | [] => Ok scored_groups
  | (key, group) :: rest =>
      match Group.candidates group with
      | [] => score_loop rest scored_groups
      | first :: _ =>
          let agent_count := List.length (Group.agents group) in
          let round_count := List.length (Group.rounds group) in
          avg_entropy <-
            Py.div (Group.totalEntropy group)
                   (INR (List.length (Group.candidates group))) ;;
          let score :=
            (INR agent_count * 2 + INR round_count * 1.5 + avg_entropy * 3)%R in
          root <- subscript (Group.root_candidate group) ;;
          score_loop rest
            (scored_groups ++
             [ ScoredGroup.mk key (round3 score) agent_count round_count
                 (round3 avg_entropy) (Fragment.agentId root)
                 (Fragment.entropy root) (Fragment.candidate first) ])
      end
  end.

(** [scored_groups.sort(key=lambda x: x['score'], reverse=True)]: the
    library sort is stable, also with [reverse=True].  It is realised here
    as the insertion sort that puts an element before the first one whose
    score is not higher. *)
Fixpoint insert_by_score (x : ScoredGroup.t) (l : list ScoredGroup.t)
  : list ScoredGroup.t :=
  match l with
  | [] => [x]
  | y :: rest =>
      if Rle_dec (ScoredGroup.score y) (ScoredGroup.score x)
      then x :: l else y :: insert_by_score x rest
  end.

Definition sort_by_score (l : list ScoredGroup.t) : list ScoredGroup.t :=
  fold_right insert_by_score [] l.

Definition no_candidates_message : string :=
  "// No valid code candidates were generated by the agents.".

Definition assemble_final_answer (all_fragments : list Fragment.t)
  (genesis_hash : string) : result ConsensusResult.t :=
  let candidate_groups := fold_left add_fragment all_fragments [] in
  scored_groups <- score_loop candidate_groups [] ;;
  match scored_groups with
  | [] =>
      Ok (ConsensusResult.mk genesis_hash no_candidates_message 0 None [])
  | _ :: _ =>
      let scored_groups := sort_by_score scored_groups in
      match scored_groups with
      | [] => Raise IndexError
      | top_group :: _ =>
          Ok (ConsensusResult.mk genesis_hash
                (ScoredGroup.candidate top_group)
                (ScoredGroup.score top_group)
                (Some (ConsensusResult.mk_stats
                         (ScoredGroup.agentCount top_group)
                         (ScoredGroup.roundCount top_group)
                         (ScoredGroup.avgEntropy top_group)
                         (ScoredGroup.rootAgent top_group)
                         (ScoredGroup.rootEntropy top_group)))
                scored_groups)
      end
  end.

End Assembler.

(* ------------------------------------------------------------------ *)
(** ** AgentOrchestrator: [perform_fractal_reasoning] and [orchestrate] *)

Module Agent.
Record t : Type := mk { id : string; origin : string }.
End Agent.

(** The JSON body sent to the generation service. *)
Module Payload.
Record t : Type := mk {
  model : string;
  prompt : string;
  stream : bool;
  raw : bool
}.
End Payload.

(** What lines 86-89 see of the service.
    - [Response]: a reply with a success status whose body is a JSON object;
      [response] is the text of its ["response"] field, the empty string
      when the field is absent.
    - [Failed]: a [requests.exceptions.RequestException] with its message,
      raised by the transport, by [raise_for_status] or, for a body that is
      no JSON, by [response.json()] (the [JSONDecodeError] of [requests] is
      a [RequestException]).
    - [Unreadable]: a reply with a success status whose body is a JSON value
      without [get] (a list, a number, a string, [null]), or an object whose
      ["response"] is no string: line 89 raises an [AttributeError]. *)
Module Reply.
Inductive t : Type :=
  | Response (response : string)
  | Failed (e : string)
  | Unreadable.
End Reply.

(** The dict returned by [perform_fractal_reasoning]. *)
Module Outcome.
Record t : Type := mk {
  candidate : string;
  model : string;
  success : bool
}.
End Outcome.

(** A JSON value read from the request where the code needs an [int]. *)
Module Json.
Inductive t : Type :=
  | Int (z : Z)
  | NotInt.

(** [range(v)]: empty for a negative [int], a [TypeError] otherwise. *)
Definition range (v : t) : result (list nat) :=
    match v with
    | Int z => Ok (seq 0 (Z.to_nat z))
    | NotInt => Raise TypeError
    end.
End Json.

(** The fields of the request body after the defaults of lines 192-197. *)
Module Request.
Record t : Type := mk {
  codeContext : string;
  prompt : string;
  agentCount : Json.t;
  maxRounds : Json.t;
  reasoningDepth : nat;
  fileType : string
}.
End Request.

(** What [request.json] gives at line 189.
    - [NotObject]: the body is no JSON, or a JSON value that is no object;
      line 189 or the first [data.get] of line 192 raises.
    - [Unencodable]: an object whose [codeContext] has a code point that
      UTF-8 cannot encode (a lone surrogate); the digest of line 199 raises
      a [UnicodeEncodeError].
    - [Object]: an object whose fields are read by lines 192-197. *)
Module Body.
Inductive t : Type :=
  | NotObject
  | Unencodable
  | Object (data : Request.t).
End Body.

(** The HTTP answer of the endpoint; the log entries are write-only and
    are left out. *)
Module Response.
Inductive t : Type :=
  | Success (consensus : ConsensusResult.t)
  | Error (status : nat).
End Response.

Module Orchestrator.
Section Orchestrate.
Open Scope string_scope.

(** [hashlib.sha256(data.encode('utf-8')).hexdigest()] *)
Variable sha256 : string -> string.
(** [str(time.time())] at the start of the request. *)
Variable time_time : string.
(** [str(random.random())] of the [i]-th draw of the request. *)
Variable random_random : nat -> string.
(** The generation service behind [requests.post(OLLAMA_URL, ...)]. *)
Variable requests_post : Payload.t -> Reply.t.

(** The prompt and the request body of lines 64-83. *)
Definition full_prompt (agent_id model prompt context : string)
  (round_num : nat) (file_type : string) (reasoning_depth : nat) : string :=
  let strategy :=
    "Apply recursive reasoning (depth " ++ str_of_nat reasoning_depth
    ++ ") and fractal code structure." in
  "You are an expert coding agent (Agent ID: " ++ agent_id
  ++ ", Model: " ++ model ++ ")." ++ Text.nl
  ++ "You are in round " ++ str_of_nat (round_num + 1)
  ++ " of a multi-agent consensus." ++ Text.nl
  ++ "Your assigned strategy is: " ++ Text.dquote ++ strategy
  ++ Text.dquote ++ "." ++ Text.nl
  ++ "Analyze the user's request and the provided code to generate an improved or new code snippet."
  ++ Text.nl ++ Text.nl
  ++ "USER REQUEST: " ++ Text.dquote ++ prompt ++ Text.dquote
  ++ Text.nl ++ Text.nl
  ++ "CODE CONTEXT (" ++ file_type ++ "):" ++ Text.nl
  ++ "```" ++ Text.nl ++ context ++ Text.nl ++ "```"
  ++ Text.nl ++ Text.nl
  ++ "Provide ONLY the generated code snippet as your response. Do not include explanations, apologies, or markdown formatting.".

Definition payload (agent_id model prompt context : string)
  (round_num : nat) (file_type : string) (reasoning_depth : nat) : Payload.t :=
  Payload.mk model
    (full_prompt agent_id model prompt context round_num file_type
       reasoning_depth)
    false true.

(** Lines 85-102: the [except] clause catches the
    [RequestException]s only; the [AttributeError] of line 89 leaves the
    function. *)
Definition perform_fractal_reasoning (agent_id model prompt context : string)
  (round_num : nat) (origin file_type : string) (reasoning_depth : nat)
  : result Outcome.t :=
  match
    requests_post
      (payload agent_id model prompt context round_num file_type
         reasoning_depth)
  with
  | Reply.Response response =>
      let code_candidate := str (Text.strip (chars response)) in
      let final_candidate :=
        "// Agent: " ++ agent_id ++ " | Model: " ++ model ++ " | Round: "
        ++ str_of_nat (round_num + 1) ++ Text.nl
        ++ "// Seed: " ++ Text.prefix 12 origin ++ Text.nl
        ++ code_candidate in
      Ok (Outcome.mk final_candidate model true)
  | Reply.Failed e =>
      let error_msg :=
        "Ollama connection error for agent " ++ agent_id ++ ": " ++ e in
      Ok (Outcome.mk
            ("// Agent " ++ agent_id ++ " failed to generate a response."
             ++ Text.nl ++ "// Error: " ++ error_msg)
            model false)
  | Reply.Unreadable => Raise AttributeError
  end.

Section Run.
Variable data : Request.t.

Definition genesis_hash : string :=
  sha256 ("GENESIS" ++ time_time ++ Request.codeContext data).

(** Lines 209-212. *)
Definition new_agent (i : nat) : Agent.t :=
  let agent_id := "agent-" ++ str_of_nat i in
  let origin_hash := sha256 (genesis_hash ++ agent_id ++ random_random i) in
  Agent.mk agent_id origin_hash.

(** The body of the inner loop (lines 221-243): the agent is updated in
    place; the fragment is a new dict of immutable values, so the later
    updates of the agent do not reach it.  The list [round_fragments] of
    the source is written and never read.  The rotator has advanced when
    the call of the service is made, so an exception that leaves
    [perform_fractal_reasoning] finds the counter one further. *)
Definition agent_turn (round_num : nat) (agent : Agent.t)
  : Global.M (Agent.t * Fragment.t) :=
  model <~ Rotator.get_next_model Config.OLLAMA_MODELS ;;
  result <~
    Global.lift
      (perform_fractal_reasoning (Agent.id agent) model
         (Request.prompt data) (Request.codeContext data) round_num
         (Agent.origin agent) (Request.fileType data)
         (Request.reasoningDepth data)) ;;
  let new_origin :=
    sha256 (Agent.origin agent ++ genesis_hash ++ str_of_nat round_num) in
  let agent := Agent.mk (Agent.id agent) new_origin in
  entropy <~ Global.lift (Entropy.calculate_entropy new_origin) ;;
  let fragment :=
    Fragment.mk (Agent.id agent) (Agent.origin agent) round_num
      (Outcome.candidate result) entropy model in
  Global.ret (agent, fragment).

(** [for agent in agents: ...] *)
Fixpoint for_agents (round_num : nat) (agents : list Agent.t)
  (fragments : list Fragment.t)
  : Global.M (list Agent.t * list Fragment.t) :=
  match agents with
  | [] => Global.ret ([], fragments)
  | agent :: rest =>
      af <~ agent_turn round_num agent ;;
      r <~ for_agents round_num rest (fragments ++ [snd af]) ;;
      Global.ret (fst af :: fst r, snd r)
  end.

(** [for round_num in range(max_rounds): ...] *)
Fixpoint for_rounds (rounds : list nat) (agents : list Agent.t)
  (fragments : list Fragment.t)
  : Global.M (list Agent.t * list Fragment.t) :=
  match rounds with
  | [] => Global.ret (agents, fragments)
  | round_num :: rest =>
      af <~ for_agents round_num agents fragments ;;
      for_rounds rest (fst af) (snd af)
  end.

(** Lines 199-249: the agents and the fragments at the end of the
    rounds. *)
Definition orchestration_rounds
  : Global.M (list Agent.t * list Fragment.t) :=
  indices <~ Global.lift (Json.range (Request.agentCount data)) ;;
  let agents := map new_agent indices in
  rounds <~ Global.lift (Json.range (Request.maxRounds data)) ;;
  for_rounds rounds agents [].

(** Lines 199-253 on the fields of the request. *)
Definition consensus_of_request : Global.M ConsensusResult.t :=
  af <~ orchestration_rounds ;;
  Global.lift (Assembler.assemble_final_answer (snd af) genesis_hash).
End Run.

(** Lines 189-199: the reading of the request, with the exceptions raised
    before the first agent is made. *)
Definition read_request (body : Body.t) : result Request.t :=
  match body with
  | Body.NotObject => Raise AttributeError
  | Body.Unencodable => Raise UnicodeEncodeError
  | Body.Object data => Ok data
  end.

(** The endpoint: any exception becomes the HTTP 500 answer.  The global
    counter keeps what the calls made before the exception have added. *)
Definition orchestrate (body : Body.t) (ollama_model_index : nat)
  : Response.t * nat :=
  match
    (data <~ Global.lift (read_request body) ;;
     consensus_of_request data)
      ollama_model_index
  with
  | (Ok consensus, idx) => (Response.Success consensus, idx)
  | (Raise _, idx) => (Response.Error 500, idx)
  end.
End Orchestrate.
End Orchestrator.


(* ------------------------------------------------------------------ *)
(** ** Specification-level functions *)

Module Spec.

(** The sum [p1 * log2 p1 + ... + pk * log2 pk] for the probabilities
    [count / length] of a list of counts. *)
Fixpoint weighted_logs (counts : list nat) (length : nat) : R :=
  match counts with
  | [] => 0%R
  | count :: rest =>
      (INR count / INR length * (ln (INR count / INR length) / ln 2)
       + weighted_logs rest length)%R
  end.

(** The characters of a string all belong to an alphabet. *)
Definition drawn_from (alphabet : list ascii) (s : string) : bool :=
  forallb (fun c => existsb (Ascii.eqb c) alphabet) (chars s).

Definition hex_digits : list ascii := chars "0123456789abcdef".

(** [k] consecutive calls of the rotator, with the models they return. *)
Fixpoint consecutive_models (models : list string) (k : nat)
  : Global.M (list string) :=
  match k with
  | 0 => Global.ret []
  | S k' =>
      model <~ Rotator.get_next_model models ;;
      rest <~ consecutive_models models k' ;;
      Global.ret (model :: rest)
  end.

(** *** The consensus groups, described per key *)

(** The fragments of a list that fall under a grouping key, in input order. *)
Definition members (k : string) (fs : list Fragment.t) : list Fragment.t :=
  filter (fun f => String.eqb (Assembler.group_key f) k) fs.

(** The distinct elements of a list, in order of first occurrence. *)
Definition distinct {A : Type} (dec : forall x y : A, {x = y} + {x <> y})
  (l : list A) : list A :=
  fold_left (fun s a => ListSet.set_add dec a s) l [].

(** The grouping keys in order of discovery; the empty key forms no group. *)
Definition discovery_keys (fs : list Fragment.t) : list string :=
  distinct string_dec
    (filter (fun k => negb (String.eqb k EmptyString))
       (map Assembler.group_key fs)).

(** Some fragment of the list has a non-empty grouping key. *)
Definition yields_group (fs : list Fragment.t) : bool :=
  existsb (fun f => negb (String.eqb (Assembler.group_key f) EmptyString)) fs.

(** One fragment added to its group (lines 126-133). *)
Definition extend (group : Group.t) (fragment : Fragment.t) : Group.t :=
  Group.mk
    (Group.candidates group ++ [fragment])
    (Group.totalEntropy group + Fragment.entropy fragment)
    (ListSet.set_add string_dec (Fragment.agentId fragment)
       (Group.agents group))
    (ListSet.set_add Nat.eq_dec (Fragment.round fragment)
       (Group.rounds group))
    (Assembler.track_root (Group.root_candidate group) fragment).

Definition group_of (ms : list Fragment.t) : Group.t :=
  fold_left extend ms Group.empty.

Definition entropy_sum (ms : list Fragment.t) : R :=
  fold_left (fun t f => (t + Fragment.entropy f)%R) ms 0%R.

Definition agent_ids (ms : list Fragment.t) : list string :=
  distinct string_dec (map Fragment.agentId ms).

Definition round_indices (ms : list Fragment.t) : list nat :=
  distinct Nat.eq_dec (map Fragment.round ms).

Definition root_of (ms : list Fragment.t) : option Fragment.t :=
  fold_left Assembler.track_root ms None.

Definition average_entropy (ms : list Fragment.t) : R :=
  (entropy_sum ms / INR (List.length ms))%R.

Definition raw_score (ms : list Fragment.t) : R :=
  (INR (List.length (agent_ids ms)) * 2
   + INR (List.length (round_indices ms)) * 1.5
   + average_entropy ms * 3)%R.

Definition no_fragment : Fragment.t :=
  Fragment.mk EmptyString EmptyString 0 EmptyString 0 EmptyString.

(** The scored group of a key that has members. *)
Definition scored_of (fs : list Fragment.t) (k : string) : ScoredGroup.t :=
  let ms := members k fs in
  let root := match root_of ms with Some r => r | None => no_fragment end in
  ScoredGroup.mk k (round3 (raw_score ms))
    (List.length (agent_ids ms)) (List.length (round_indices ms))
    (round3 (average_entropy ms))
    (Fragment.agentId root) (Fragment.entropy root)
    (Fragment.candidate (hd no_fragment ms)).

(** The groups with a given score, in the order of a list. *)
Definition with_score (s : R) (l : list ScoredGroup.t) : list ScoredGroup.t :=
  filter (fun g => if Req_dec_T (ScoredGroup.score g) s then true else false) l.

(** What the first loop of [calculate_entropy] maintains: distinct keys
    taken from the characters read so far, positive counts, and counts that
    add up to the number of characters read. *)
Definition counts_ok (cs : list ascii) (d : dict ascii nat) : Prop :=
  NoDup (keys d) /\ incl (keys d) cs /\ Forall (fun v => 1 <= v) (values d)
  /\ list_sum (values d) = List.length cs.

(** The dictionary that holds [g k] under every key [k] of a list. *)
Definition tabulate {V : Type} (g : string -> V) (ks : list string)
  : dict string V :=
  map (fun k => (k, g k)) ks.

(** The result built from the sorted list of scored groups
    (lines 158-179). *)
Definition result_of (genesis_hash : string) (sorted : list ScoredGroup.t)
  : ConsensusResult.t :=
  match sorted with
  | [] =>
      ConsensusResult.mk genesis_hash Assembler.no_candidates_message 0 None []
  | top_group :: _ =>
      ConsensusResult.mk genesis_hash
        (ScoredGroup.candidate top_group)
        (ScoredGroup.score top_group)
        (Some (ConsensusResult.mk_stats
                 (ScoredGroup.agentCount top_group)
                 (ScoredGroup.roundCount top_group)
                 (ScoredGroup.avgEntropy top_group)
                 (ScoredGroup.rootAgent top_group)
                 (ScoredGroup.rootEntropy top_group)))
        sorted
  end.

(** Descending order of scores. *)
Definition score_ge (a b : ScoredGroup.t) : Prop :=
  (ScoredGroup.score b <= ScoredGroup.score a)%R.

(** *** Sample fragments *)

(** Two agents that answer [x=1] in round 0 under their own headers. *)
Definition sample_fragment (agent : string) (e : R) : Fragment.t :=
  Fragment.mk agent "0f" 0
    ("// Agent: " ++ agent ++ " | Model: gemma:latest | Round: 1" ++ Text.nl
     ++ "// Seed: 0f" ++ Text.nl ++ "x=1")
    e "gemma:latest".

(** A fragment whose candidate is a comment only. *)
Definition comment_fragment : Fragment.t :=
  Fragment.mk "agent-0" "0f" 0 "// nothing" 3 "gemma:latest".

(** *** Candidates that differ in interior spacing *)

Definition no_newline (l : list ascii) : bool :=
  forallb (fun c => negb (Ascii.eqb c Text.newline)) l.

(** The text has an occurrence of backslash followed by [s]. *)
Fixpoint contains_backslash_s (s : list ascii) : bool :=
  match s with
  | [] => false
  | c :: rest =>
      match rest with
      | [] => false
      | c2 :: _ =>
          (Ascii.eqb c "\"%char && Ascii.eqb c2 "s"%char)
          || contains_backslash_s rest
      end
  end.

(** A line of two candidates at once: a character that both have, or a
    run of spacing of the first candidate with the run that the second has
    in its place.  Either run may be empty. *)
Inductive token : Type :=
| Chr (c : ascii)
| Gap (sp1 sp2 : list ascii).

Definition side_of (first : bool) (t : token) : list ascii :=
  match t with
  | Chr c => [c]
  | Gap sp1 sp2 => if first then sp1 else sp2
  end.

(** The line as the first or as the second candidate has it. *)
Definition render (first : bool) (line : list token) : list ascii :=
  flat_map (side_of first) line.

Definition candidate_of (first : bool) (lines : list (list token))
  : list ascii :=
  Text.join_lines (map (render first) lines).

(** The line has no line break in either candidate. *)
Definition single_line (line : list token) : bool :=
  no_newline (render true line) && no_newline (render false line).

(** The line is the same in the two candidates, or it is a comment line in
    neither. *)
Definition code_line (line : list token) : bool :=
  (if list_eq_dec ascii_dec (render true line) (render false line)
   then true else false)
  || (negb (Assembler.is_comment_line (render true line))
      && negb (Assembler.is_comment_line (render false line))).

(** The lines joined by line breaks, as one list of tokens. *)
Fixpoint join_tokens (lines : list (list token)) : list token :=
  match lines with
  | [] => []
  | line :: rest =>
      match rest with
      | [] => line
      | _ :: _ => line ++ Chr Text.newline :: join_tokens rest
      end
  end.

(** The text that remains when the comment lines are taken out. *)
Definition remaining (lines : list (list token)) : list token :=
  join_tokens
    (filter (fun line => negb (Assembler.is_comment_line (render true line)))
       lines).

(** A run of whitespace read so far: one gap when it has a gap in it, the
    characters as they are when it has none. *)
Definition emit (sp1 sp2 : list ascii) (has_gap : bool) : list token :=
  if has_gap then [Gap sp1 sp2] else map Chr sp1.

(** The tokens of a text with every run of whitespace that has a gap in it
    made one gap: the whitespace that the candidates share next to a gap,
    line breaks included, is part of the run in which they differ. *)
Fixpoint merge (sp1 sp2 : list ascii) (has_gap : bool) (text : list token)
  : list token :=
  match text with
  | [] => emit sp1 sp2 has_gap
  | Chr c :: rest =>
      if Text.isspace c then merge (sp1 ++ [c]) (sp2 ++ [c]) has_gap rest
      else emit sp1 sp2 has_gap ++ Chr c :: merge [] [] false rest
  | Gap s1 s2 :: rest => merge (sp1 ++ s1) (sp2 ++ s2) true rest
  end.

Definition runs (text : list token) : list token := merge [] [] false text.

(** [flanked prev text]: every gap of the text is made of whitespace and
    stands between two characters that are no whitespace; [prev] tells
    whether such a character stands before the text. *)
Fixpoint flanked (prev : bool) (text : list token) : bool :=
  match text with
  | [] => true
  | Chr c :: rest => flanked (negb (Text.isspace c)) rest
  | Gap sp1 sp2 :: rest =>
      prev && forallb Text.isspace sp1 && forallb Text.isspace sp2
      && match rest with
         | Chr y :: _ => negb (Text.isspace y)
         | _ => false
         end
      && flanked false rest
  end.

(** The runs of whitespace in which the candidates differ are interior
    spacing: each stands between two characters that are no whitespace, in
    the text without its comment lines. *)
Definition interior (lines : list (list token)) : bool :=
  flanked false (runs (remaining lines)).

Definition backslash_s (a b : ascii) : bool :=
  Ascii.eqb a "\"%char && Ascii.eqb b "s"%char.

Definition is_nil (sp : list ascii) : bool :=
  match sp with
  | [] => true
  | _ :: _ => false
  end.

(** A gap at the head of the text touches or splits an occurrence of
    backslash-s: it stands between a backslash and an [s] and is empty in
    one candidate, or directly after the [s], or directly before the
    backslash. *)
Definition at_backslash_s (text : list token) : bool :=
  match text with
  | Chr a :: Gap sp1 sp2 :: Chr b :: _ =>
      backslash_s a b && (is_nil sp1 || is_nil sp2)
  | Chr a :: Chr b :: Gap _ _ :: _ => backslash_s a b
  | Gap _ _ :: Chr a :: Chr b :: _ => backslash_s a b
  | _ => false
  end.

(** No gap of the text touches or splits an occurrence of backslash-s. *)
Fixpoint clear (text : list token) : bool :=
  match text with
  | [] => true
  | _ :: rest => negb (at_backslash_s text) && clear rest
  end.

Definition clear_of_backslash_s (lines : list (list token)) : bool :=
  clear (runs (remaining lines)).

(** Two candidates that differ, and differ only in interior spacing of
    lines that are no comment lines: [lines] holds what they share and the
    runs of spacing of each. *)
Definition differ_in_interior_spacing (lines : list (list token))
  (c1 c2 : list ascii) : Prop :=
  c1 = candidate_of true lines /\ c2 = candidate_of false lines
  /\ c1 <> c2
  /\ forallb single_line lines = true /\ forallb code_line lines = true
  /\ interior lines = true.

(** The characters of a text as tokens. *)
Definition word (s : string) : list token := map Chr (chars s).

(** Some gap of the line has two different runs. *)
Definition differs (line : list token) : bool :=
  existsb
    (fun t =>
       match t with
       | Chr _ => false
       | Gap sp1 sp2 => if list_eq_dec ascii_dec sp1 sp2 then false else true
       end)
    line.

(** The removal of the occurrences of backslash-s, on tokens. *)
Fixpoint remove_tokens (line : list token) : list token :=
  match line with
  | [] => []
  | Chr c :: rest =>
      match rest with
      | Chr c2 :: rest2 =>
          if backslash_s c c2 then remove_tokens rest2
          else Chr c :: remove_tokens rest
      | _ => Chr c :: remove_tokens rest
      end
  | Gap sp1 sp2 :: rest => Gap sp1 sp2 :: remove_tokens rest
  end.

(** The first loop of the assembler puts two fragments in two groups. *)
Definition in_distinct_groups (fs : list Fragment.t) (f1 f2 : Fragment.t)
  : Prop :=
  let candidate_groups := fold_left Assembler.add_fragment fs [] in
  exists k1 g1 k2 g2,
    k1 <> k2
    /\ get String.eqb candidate_groups k1 = Some g1
    /\ get String.eqb candidate_groups k2 = Some g2
    /\ In f1 (Group.candidates g1)
    /\ In f2 (Group.candidates g2)
    /\ forall k g, get String.eqb candidate_groups k = Some g ->
         ~ (In f1 (Group.candidates g) /\ In f2 (Group.candidates g)).

(** Candidates with one or two spaces before a backslash-s, after a
    backslash-s, and with no or one space inside a backslash-s. *)
Definition spaced_fragment (spacing : string) : Fragment.t :=
  Fragment.mk "agent-0" "0f" 0 ("x=1" ++ spacing ++ "\s") 3 "gemma:latest".
Definition led_fragment (spacing : string) : Fragment.t :=
  Fragment.mk "agent-0" "0f" 0 ("\s" ++ spacing ++ "x=1") 3 "gemma:latest".
Definition split_fragment (spacing : string) : Fragment.t :=
  Fragment.mk "agent-0" "0f" 0 ("\" ++ spacing ++ "s") 3 "gemma:latest".

(** Candidates under a header whose code line is [x = 1] with the given
    spacing on both sides of the [=]. *)
Definition headed_fragment (spacing : string) : Fragment.t :=
  Fragment.mk "agent-0" "0f" 0
    ("// Agent: agent-0" ++ Text.nl ++ "x" ++ spacing ++ "=" ++ spacing ++ "1")
    3 "gemma:latest".

(** *** The run, slot by slot *)

Section Run.
Open Scope string_scope.
Variable sha256 : string -> string.
Variable time_time : string.
Variable random_random : nat -> string.
Variable requests_post : Payload.t -> Reply.t.
Variable data : Request.t.

Definition agent_name (i : nat) : string := "agent-" ++ str_of_nat i.

Definition genesis : string :=
  Orchestrator.genesis_hash sha256 time_time data.

(** The origin of agent [i] when round [r] starts. *)
Fixpoint origin_before (i r : nat) : string :=
  match r with
  | 0 => sha256 (genesis ++ agent_name i ++ random_random i)
  | S r' => sha256 (origin_before i r' ++ genesis ++ str_of_nat r')
  end.

Definition agent_at (r i : nat) : Agent.t :=
  Agent.mk (agent_name i) (origin_before i r).

Definition entropy_of (s : string) : R :=
  match Entropy.calculate_entropy s with
  | Ok h => h
  | Raise _ => 0%R
  end.

Definition model_at (c : nat) : string :=
  nth (c mod List.length Config.OLLAMA_MODELS) Config.OLLAMA_MODELS
    EmptyString.

(** The reply to the call of agent [i] in round [r] when the rotator
    stands at [c]. *)
Definition reply_at (r c i : nat) : Reply.t :=
  requests_post
    (Orchestrator.payload (agent_name i) (model_at c) (Request.prompt data)
       (Request.codeContext data) r (Request.fileType data)
       (Request.reasoningDepth data)).

Definition readable_at (r c i : nat) : bool :=
  match reply_at r c i with
  | Reply.Unreadable => false
  | _ => true
  end.

(** No call of a run of [n] agents and [m] rounds that starts with the
    rotator at [c] gets an unreadable reply. *)
Definition replies_readable (n m c : nat) : Prop :=
  forall r i, r < m -> i < n -> readable_at r (c + r * n + i) i = true.

(** The call of agent [i] in round [r] is the first of the run that gets an
    unreadable reply. *)
Definition first_unreadable (n m c r i : nat) : Prop :=
  r < m /\ i < n
  /\ readable_at r (c + r * n + i) i = false
  /\ forall r' i', r' < m -> i' < n -> r' * n + i' < r * n + i ->
       readable_at r' (c + r' * n + i') i' = true.

Definition candidate_at (r c i : nat) : string :=
  match
    Orchestrator.perform_fractal_reasoning requests_post
      (agent_name i) (model_at c) (Request.prompt data)
      (Request.codeContext data) r (origin_before i r)
      (Request.fileType data) (Request.reasoningDepth data)
  with
  | Ok result => Outcome.candidate result
  | Raise _ => EmptyString
  end.

(** The fragment of agent [i] in round [r] when the rotator stands at [c]. *)
Definition fragment_at (r c i : nat) : Fragment.t :=
  Fragment.mk (agent_name i) (origin_before i (S r)) r
    (candidate_at r c i)
    (entropy_of (origin_before i (S r))) (model_at c).

(** The fragments of the rounds [r0 .. r0 + m - 1] of [n] agents, in the
    order of the loops, the rotator standing at [c] at the start. *)
Definition fragments_of (n r0 m c : nat) : list Fragment.t :=
  flat_map
    (fun k => map (fun i => fragment_at (r0 + k) (c + k * n + i) i) (seq 0 n))
    (seq 0 m).

(** The (agent id, round index) pairs in round-major order. *)
Definition slots (n m : nat) : list (string * nat) :=
  flat_map (fun r => map (fun i => (agent_name i, r)) (seq 0 n)) (seq 0 m).

Definition slot_of (f : Fragment.t) : string * nat :=
  (Fragment.agentId f, Fragment.round f).

(** The candidate recorded when the call of an agent fails with [e]. *)
Definition placeholder (agent_id e : string) : string :=
  "// Agent " ++ agent_id ++ " failed to generate a response." ++ Text.nl
  ++ "// Error: Ollama connection error for agent " ++ agent_id ++ ": " ++ e.

End Run.

(** *** A sample run *)

(** A stand-in for the digest, the clock and the random source, a request
    for two agents and one round, and a service that refuses every call. *)
Definition sample_digest (s : string) : string := s.
Definition sample_time : string := "1700000000.0".
Definition sample_random (i : nat) : string := "0.5".
Definition refusing_service (p : Payload.t) : Reply.t :=
  Reply.Failed "connection refused".

(** A service whose replies have a success status and the body [[]], and
    one that refuses the first agent and then sends such a body. *)
Definition malformed_service (p : Payload.t) : Reply.t := Reply.Unreadable.
Definition faltering_service (p : Payload.t) : Reply.t :=
  if String.eqb (Payload.model p) "gemma:latest"
  then Reply.Failed "connection refused" else Reply.Unreadable.
Definition sample_request : Request.t :=
  Request.mk "let x = 1" "Optimize this code" (Json.Int 2) (Json.Int 1) 3
    "javascript".

(** *** Views of the input of the assembler *)

(** The fragment has a grouping key. *)
Definition has_key (f : Fragment.t) : bool :=
  negb (String.eqb (Assembler.group_key f) EmptyString).

(** Two fragments agree on the four fields the assembler reads. *)
Definition same_view (f f' : Fragment.t) : Prop :=
  Fragment.agentId f = Fragment.agentId f'
  /\ Fragment.round f = Fragment.round f'
  /\ Fragment.candidate f = Fragment.candidate f'
  /\ Fragment.entropy f = Fragment.entropy f'.

(** *** Further sample requests *)

Definition malformed_request : Request.t :=
  Request.mk "let x = 1" "Optimize this code" (Json.Int 2) Json.NotInt 3
    "javascript".

(** The fragment of [sample_fragment] with another origin and model. *)
Definition relabelled_fragment (agent : string) (e : R) : Fragment.t :=
  Fragment.mk agent "a7" 0
    (Fragment.candidate (sample_fragment agent e)) e "deepseek-coder:latest".

(** Every character of an alphabet occurs [c] times in a string. *)
Definition occurs_evenly (alphabet : list ascii) (s : string) (c : nat) : bool :=
  forallb (fun a => Nat.eqb (count_occ ascii_dec (chars s) a) c) alphabet.

End Spec.

(* ------------------------------------------------------------------ *)
(** ** The groups and their scores on binary64 numbers *)

(** The two loops of [assemble_final_answer] (lines 108-156) with the
    numbers of the program: a Python [float] is a binary64 number, and its
    operations are those of IEEE 754 with rounding to nearest, ties to
    even.  The list [scored_groups] of line 158 is what line 166 sorts and
    the result returns as [allGroups]. *)
Module Binary64.
Import PrimFloat.

(** [float(n)] for an [int] that is a length or a count, hence below
    [2^63]. *)
Definition of_nat (n : nat) : float :=
  PrimFloat.of_uint63 (Uint63.of_Z (Z.of_nat n)).

(** The integer nearest to [n * 2^e], ties to even, for [0 <= n]. *)
Definition nearest_even (n e : Z) : Z :=
  if (0 <=? e)%Z then (n * 2 ^ e)%Z
  else
    let d := (2 ^ (- e))%Z in
    let q := (n / d)%Z in
    match (2 * (n mod d) ?= d)%Z with
    | Lt => q
    | Gt => (q + 1)%Z
    | Eq => if Z.even q then q else (q + 1)%Z
    end.

(** [round(x, 3)]: the number is written with three decimals, correctly
    rounded from its exact binary value with ties to even, and the decimal
    is read back as the nearest binary64 number.  Zeros, infinities and NaN
    round to themselves.  A number of magnitude [2^53 / 1000] or more has
    neighbours further away than a thousandth, so it is read back as
    itself. *)
Definition round3 (x : float) : float :=
  match FloatOps.Prim2SF x with
  | SpecFloat.S754_finite s m e =>
      let thousandths := nearest_even (Z.pos m * 1000) e in
      if (thousandths <? 2 ^ 53)%Z then
        let r :=
          (PrimFloat.of_uint63 (Uint63.of_Z thousandths) / 1000)%float in
        if s then (- r)%float else r
      else x
  | _ => x
  end.

Module Fragment.
Record t : Type := mk {
  agentId : string;
  origin : string;
  round : nat;
  candidate : string;
  entropy : float;
  model : string
}.
End Fragment.

Module Group.
Record t : Type := mk {
  candidates : list Fragment.t;
  totalEntropy : float;
  agents : list string;          (* set() *)
  rounds : list nat;             (* set() *)
  root_candidate : option Fragment.t
}.

Definition empty : t := mk [] 0%float [] [] None.
End Group.

Module ScoredGroup.
Record t : Type := mk {
  key : string;
  score : float;
  agentCount : nat;
  roundCount : nat;
  avgEntropy : float;
  rootAgent : string;
  rootEntropy : float;
  candidate : string
}.
End ScoredGroup.

Definition group_key (fragment : Fragment.t) : string :=
  str (Assembler.normalize (chars (Fragment.candidate fragment))).

(** Lines 132-133; a comparison with a NaN is false. *)
Definition track_root (root : option Fragment.t) (fragment : Fragment.t)
  : option Fragment.t :=
  match root with
  | None => Some fragment
  | Some r =>
      if (Fragment.entropy r <? Fragment.entropy fragment)%float
      then Some fragment else Some r
  end.

(** Lines 126-133. *)
Definition extend (group : Group.t) (fragment : Fragment.t) : Group.t :=
  Group.mk
    (Group.candidates group ++ [fragment])
    (Group.totalEntropy group + Fragment.entropy fragment)%float
    (ListSet.set_add string_dec (Fragment.agentId fragment)
       (Group.agents group))
    (ListSet.set_add Nat.eq_dec (Fragment.round fragment)
       (Group.rounds group))
    (track_root (Group.root_candidate group) fragment).

(** The body of the first loop (lines 110-133). *)
Definition add_fragment (candidate_groups : dict string Group.t)
  (fragment : Fragment.t) : dict string Group.t :=
  let key := group_key fragment in
  if String.eqb key EmptyString then candidate_groups
  else
    let candidate_groups :=
      match get String.eqb candidate_groups key with
      | None => set String.eqb candidate_groups key Group.empty
      | Some _ => candidate_groups
      end in
    let group := get_default String.eqb candidate_groups key Group.empty in
    set String.eqb candidate_groups key (extend group fragment).

(** [total / n] for a [float] and the length of a list. *)
Definition div (total : float) (n : nat) : result float :=
  match n with
  | 0 => Raise ZeroDivisionError
  | S _ => Ok (total / of_nat n)%float
  end.

(** Line 145: [agent_count * 2] is a product of [int]s, the other
    operations are on [float]s. *)
Definition raw_score (agent_count round_count : nat) (avg_entropy : float)
  : float :=
  (of_nat (agent_count * 2) + of_nat round_count * 1.5 + avg_entropy * 3)%float.

(** The second loop (lines 137-156). *)
Fixpoint score_loop (items : list (string * Group.t))
  (scored_groups : list ScoredGroup.t) : result (list ScoredGroup.t) :=
  match items with
  | [] => Ok scored_groups
  | (key, group) :: rest =>
      match Group.candidates group with
      | [] => score_loop rest scored_groups
      | first :: _ =>
          let agent_count := List.length (Group.agents group) in
          let round_count := List.length (Group.rounds group) in
          avg_entropy <-
            div (Group.totalEntropy group)
                (List.length (Group.candidates group)) ;;
          let score := raw_score agent_count round_count avg_entropy in
          root <- Assembler.subscript (Group.root_candidate group) ;;
          score_loop rest
            (scored_groups ++
             [ ScoredGroup.mk key (round3 score) agent_count round_count
                 (round3 avg_entropy) (Fragment.agentId root)
                 (Fragment.entropy root) (Fragment.candidate first) ])
      end
  end.

(** Lines 108-156. *)
Definition scored_groups (all_fragments : list Fragment.t)
  : result (list ScoredGroup.t) :=
  score_loop (fold_left add_fragment all_fragments []) [].

(** *** The groups, described per key *)

Definition members (k : string) (fs : list Fragment.t) : list Fragment.t :=
  filter (fun f => String.eqb (group_key f) k) fs.

Definition discovery_keys (fs : list Fragment.t) : list string :=
  Spec.distinct string_dec
    (filter (fun k => negb (String.eqb k EmptyString)) (map group_key fs)).

Definition group_of (ms : list Fragment.t) : Group.t :=
  fold_left extend ms Group.empty.

(** The sum of the entropies as the loop forms it: from [0], one addition
    per fragment, in the order of the list. *)
Definition entropy_sum (ms : list Fragment.t) : float :=
  fold_left (fun t f => (t + Fragment.entropy f)%float) ms 0%float.

Definition root_of (ms : list Fragment.t) : option Fragment.t :=
  fold_left track_root ms None.

Definition no_fragment : Fragment.t :=
  Fragment.mk EmptyString EmptyString 0 EmptyString 0%float EmptyString.

(** The scored group of a key that has members. *)
Definition scored_of (fs : list Fragment.t) (k : string) : ScoredGroup.t :=
  let ms := members k fs in
  let agent_count :=
    List.length (Spec.distinct string_dec (map Fragment.agentId ms)) in
  let round_count :=
    List.length (Spec.distinct Nat.eq_dec (map Fragment.round ms)) in
  let avg_entropy := (entropy_sum ms / of_nat (List.length ms))%float in
  let root := match root_of ms with Some r => r | None => no_fragment end in
  ScoredGroup.mk k (round3 (raw_score agent_count round_count avg_entropy))
    agent_count round_count (round3 avg_entropy)
    (Fragment.agentId root) (Fragment.entropy root)
    (Fragment.candidate (hd no_fragment ms)).

(** Two agents that answer [x=1] in round 0 under their own headers. *)
Definition sample_fragment (agent : string) (e : float) : Fragment.t :=
  Fragment.mk agent "0f" 0
    ("// Agent: " ++ agent ++ " | Model: gemma:latest | Round: 1" ++ Text.nl
     ++ "// Seed: 0f" ++ Text.nl ++ "x=1")
    e "gemma:latest".

End Binary64.
(* ================================================================== *)
(** * Properties *)

Unset Implicit Arguments.

(* ------------------------------------------------------------------ *)
(** ** Rounding *)

Module RoundFacts.
Open Scope R_scope.

Lemma Int_part_IZR (z : Z) : Int_part (IZR z) = z.
Proof.
  symmetry. apply Int_part_spec. split; lra.
Qed.

Lemma round_half_even_IZR (z : Z) : round_half_even (IZR z) = z.
Proof.
  unfold round_half_even. rewrite Int_part_IZR.
  destruct (Rlt_dec (IZR z - IZR z) (1 / 2)) as [_ | H]; [reflexivity | lra].
Qed.

Lemma round_half_even_cases (y : R) :
  (round_half_even y = Int_part y)
  \/ (round_half_even y = (Int_part y + 1)%Z /\ IZR (Int_part y) < y).
Proof.
  unfold round_half_even.
  destruct (Rlt_dec (y - IZR (Int_part y)) (1 / 2)) as [H1 | H1]; [now left |].
  destruct (Rlt_dec (1 / 2) (y - IZR (Int_part y))) as [H2 | H2].
  - right. split; [reflexivity | lra].
  - destruct (Z.even (Int_part y)); [now left |].
    right. split; [reflexivity | lra].
Qed.

Lemma round_half_even_bounds (a b : Z) (y : R) :
  IZR a <= y <= IZR b -> (a <= round_half_even y <= b)%Z.
Proof.
  intros [Ha Hb].
  destruct (base_Int_part y) as [Hf1 Hf2].
  assert (Hlo : (a <= Int_part y)%Z).
  { apply Z.lt_succ_r. apply lt_IZR. rewrite succ_IZR. lra. }
  assert (Hhi : (Int_part y <= b)%Z).
  { apply le_IZR. lra. }
  destruct (round_half_even_cases y) as [E | [E Hlt]]; rewrite E.
  - lia.
  - split; [lia |].
    apply Z.le_succ_l. apply lt_IZR. lra.
Qed.

Lemma round3_bounds (a b : Z) (x : R) :
  IZR a / 1000 <= x <= IZR b / 1000 ->
  IZR a / 1000 <= round3 x <= IZR b / 1000.
Proof.
  intros H. unfold round3.
  assert (Hb : (a <= round_half_even (x * 1000) <= b)%Z).
  { apply round_half_even_bounds. lra. }
  destruct Hb as [H1 H2]. apply IZR_le in H1, H2. lra.
Qed.

Lemma round3_millis (z : Z) : round3 (IZR z / 1000) = IZR z / 1000.
Proof.
  unfold round3.
  replace (IZR z / 1000 * 1000) with (IZR z) by lra.
  now rewrite round_half_even_IZR.
Qed.

Lemma round3_0 : round3 0 = 0.
Proof.
  replace 0 with (IZR 0 / 1000) by lra. apply round3_millis.
Qed.

End RoundFacts.

(* ------------------------------------------------------------------ *)
(** ** EntropyMeter *)

Module EntropyFacts.
Import Entropy.
Import Spec.

Lemma count_char_cons (k : ascii) (v : nat) (rest : dict ascii nat) (c : ascii) :
  count_char ((k, v) :: rest) c =
  if Ascii.eqb k c then (k, v + 1) :: rest else (k, v) :: count_char rest c.
Proof.
  unfold count_char, get_default. simpl.
  destruct (Ascii.eqb k c); reflexivity.
Qed.

Lemma count_char_nil (c : ascii) : count_char [] c = [(c, 1)].
Proof. reflexivity. Qed.

Lemma count_char_keys (d : dict ascii nat) (c : ascii) :
  (In c (keys d) /\ keys (count_char d c) = keys d)
  \/ (~ In c (keys d) /\ keys (count_char d c) = keys d ++ [c]).
Proof.
  induction d as [| [k v] rest IH].
  - right. split; [intros [] | reflexivity].
  - rewrite count_char_cons. destruct (Ascii.eqb k c) eqn:E.
    + apply Ascii.eqb_eq in E. subst. left. split; [now left | reflexivity].
    + apply Ascii.eqb_neq in E. unfold keys in *. cbn [map fst] in *.
      destruct IH as [[Hin Heq] | [Hnin Heq]].
      * left. split; [now right | now rewrite Heq].
      * right. split; [| now rewrite Heq].
        intros [H | H]; [now apply E | now apply Hnin].
Qed.

Lemma count_char_values (d : dict ascii nat) (c : ascii) :
  Forall (fun v => 1 <= v) (values d) ->
  Forall (fun v => 1 <= v) (values (count_char d c))
  /\ list_sum (values (count_char d c)) = list_sum (values d) + 1.
Proof.
  induction d as [| [k v] rest IH]; intros H.
  - split; [repeat constructor | reflexivity].
  - rewrite count_char_cons. cbn [values map snd] in H.
    inversion H as [| ? ? Hv Hrest]; subst.
    destruct (Ascii.eqb k c); unfold values in *; simpl in *.
    + split; [constructor; [lia | assumption] | lia].
    + destruct (IH Hrest) as [IH1 IH2].
      split; [now constructor | lia].
Qed.

Lemma count_char_ok (cs : list ascii) (d : dict ascii nat) (c : ascii) :
  counts_ok cs d -> counts_ok (c :: cs) (count_char d c).
Proof.
  intros (Hnd & Hincl & Hpos & Hsum).
  destruct (count_char_values d c Hpos) as [Hpos' Hsum'].
  repeat split; try assumption.
  - destruct (count_char_keys d c) as [[_ E] | [Hnin E]]; rewrite E.
    + assumption.
    + apply NoDup_app; [assumption | repeat constructor; intros [] | ].
      intros x Hx [<- | []]. now apply Hnin.
  - destruct (count_char_keys d c) as [[_ E] | [_ E]]; rewrite E.
    + now apply incl_tl.
    + apply incl_app; [now apply incl_tl |].
      intros x [<- | []]. now left.
  - rewrite Hsum', Hsum. simpl. lia.
Qed.

Lemma fold_count_char_ok (cs cs0 : list ascii) (d : dict ascii nat) :
  counts_ok cs0 d ->
  counts_ok (List.rev cs ++ cs0) (fold_left count_char cs d).
Proof.
  revert cs0 d. induction cs as [| c cs IH]; intros cs0 d H.
  - exact H.
  - simpl. rewrite <- app_assoc. apply IH. now apply count_char_ok.
Qed.

Lemma char_counts_ok (cs : list ascii) :
  counts_ok cs (fold_left count_char cs []).
Proof.
  pose proof (fold_count_char_ok cs [] []) as H.
  rewrite app_nil_r in H.
  destruct H as (H1 & H2 & H3 & H4).
  - repeat split; [constructor | intros x [] | constructor].
  - repeat split; try assumption.
    + intros x Hx. apply in_rev. now apply H2.
    + now rewrite H4, length_rev.
Qed.

Open Scope R_scope.

Lemma ln_2_pos : 0 < ln 2.
Proof.
  rewrite <- ln_1. apply ln_increasing; lra.
Qed.

Lemma ln_16 : ln 16 = 4 * ln 2.
Proof.
  replace 16 with (2 ^ 4) by (simpl; lra).
  rewrite ln_pow by lra. simpl. lra.
Qed.

Lemma ln_le_pred (y : R) : 0 < y -> ln y <= y - 1.
Proof.
  intros Hy. pose proof (exp_ineq1_le (ln y)) as H.
  rewrite exp_ln in H by assumption. lra.
Qed.

(** One term of the sum is not positive for a probability. *)
Lemma term_nonpos (p : R) : 0 < p <= 1 -> p * (ln p / ln 2) <= 0.
Proof.
  intros [Hp0 Hp1].
  assert (Hln : ln p <= 0).
  { destruct (Req_dec p 1) as [-> | Hne].
    - rewrite ln_1. lra.
    - rewrite <- ln_1. left. apply ln_increasing; lra. }
  pose proof ln_2_pos as H2.
  assert (Hq : ln p / ln 2 <= 0).
  { apply Rmult_le_reg_r with (ln 2); [assumption |].
    unfold Rdiv. rewrite Rmult_assoc, Rinv_l by lra. lra. }
  nra.
Qed.

(** Gibbs' inequality, one term at a time, against the uniform
    distribution on 16 symbols. *)
Lemma term_lower (p : R) :
  0 < p -> - 4 * p - (1 / 16 - p) / ln 2 <= p * (ln p / ln 2).
Proof.
  intros Hp. pose proof ln_2_pos as H2.
  assert (Hy : 0 < / (16 * p)) by (apply Rinv_0_lt_compat; lra).
  pose proof (ln_le_pred _ Hy) as H.
  rewrite ln_Rinv in H by lra.
  rewrite ln_mult in H by lra.
  rewrite ln_16 in H.
  assert (Hm : p * (- (4 * ln 2 + ln p)) <= p * (/ (16 * p) - 1)).
  { apply Rmult_le_compat_l; lra. }
  replace (p * (/ (16 * p) - 1)) with (1 / 16 - p) in Hm by (field; lra).
  apply Rmult_le_reg_r with (ln 2); [assumption |].
  replace (p * (ln p / ln 2) * ln 2) with (p * ln p) by (field; lra).
  replace ((- 4 * p - (1 / 16 - p) / ln 2) * ln 2)
    with (- 4 * p * ln 2 - (1 / 16 - p)) by (field; lra).
  lra.
Qed.

Lemma entropy_loop_ok (counts : list nat) (n : nat) (acc : R) :
  (0 < n)%nat -> Forall (fun v => (1 <= v)%nat) counts ->
  entropy_loop counts n acc = Ok (acc - Spec.weighted_logs counts n).
Proof.
  intros Hn. revert acc. induction counts as [| c rest IH]; intros acc Hpos.
  - simpl. f_equal. lra.
  - inversion Hpos as [| ? ? Hc Hrest]; subst.
    assert (Hn' : 0 < INR n) by (apply lt_0_INR; lia).
    assert (Hc' : 0 < INR c) by (apply lt_0_INR; lia).
    cbn [entropy_loop]. unfold Py.div.
    destruct (Req_dec_T (INR n) 0) as [E | _]; [lra |].
    cbn [Py.bind]. unfold Py.log2.
    destruct (Rle_dec (INR c / INR n) 0) as [E | _].
    { exfalso. assert (0 < INR c / INR n) by (apply Rdiv_lt_0_compat; lra). lra. }
    cbn [Py.bind]. rewrite IH by assumption.
    f_equal. cbn [Spec.weighted_logs]. lra.
Qed.

Lemma weighted_logs_nonpos (counts : list nat) (n : nat) :
  (0 < n)%nat -> Forall (fun v => (1 <= v <= n)%nat) counts ->
  Spec.weighted_logs counts n <= 0.
Proof.
  intros Hn. induction 1 as [| c rest [Hc1 Hc2] _ IH]; simpl; [lra |].
  assert (Hn' : 0 < INR n) by (apply lt_0_INR; lia).
  assert (Hp : 0 < INR c / INR n <= 1).
  { split.
    - apply Rdiv_lt_0_compat; [apply lt_0_INR; lia | assumption].
    - apply Rmult_le_reg_r with (INR n); [assumption |].
      unfold Rdiv. rewrite Rmult_assoc, Rinv_l by lra.
      apply le_INR in Hc2. lra. }
  pose proof (term_nonpos _ Hp). lra.
Qed.

Lemma weighted_logs_lower (counts : list nat) (n : nat) :
  (0 < n)%nat -> Forall (fun v => (1 <= v)%nat) counts ->
  - 4 * (INR (list_sum counts) / INR n)
  - (INR (List.length counts) / 16 - INR (list_sum counts) / INR n) / ln 2
  <= Spec.weighted_logs counts n.
Proof.
  intros Hn. pose proof ln_2_pos as H2.
  assert (Hn' : 0 < INR n) by (apply lt_0_INR; lia).
  induction 1 as [| c rest Hc _ IH].
  - simpl. unfold Rdiv. rewrite !Rmult_0_l, Rmult_0_r. lra.
  - cbn [Spec.weighted_logs].
    change (list_sum (c :: rest)) with (c + list_sum rest)%nat.
    change (List.length (c :: rest)) with (S (List.length rest)).
    rewrite plus_INR, S_INR.
    assert (Hp : 0 < INR c / INR n).
    { apply Rdiv_lt_0_compat; [apply lt_0_INR; lia | assumption]. }
    pose proof (term_lower _ Hp) as Ht.
    replace ((INR c + INR (list_sum rest)) / INR n)
      with (INR c / INR n + INR (list_sum rest) / INR n) by (field; lra).
    replace ((INR (Datatypes.length rest) + 1) / 16)
      with (INR (Datatypes.length rest) / 16 + 1 / 16) by lra.
    replace ((INR (Datatypes.length rest) / 16 + 1 / 16
              - (INR c / INR n + INR (list_sum rest) / INR n)) / ln 2)
      with ((INR (Datatypes.length rest) / 16
             - INR (list_sum rest) / INR n) / ln 2
            + (1 / 16 - INR c / INR n) / ln 2) by (field; lra).
    lra.
Qed.

Lemma Forall_le_list_sum (l : list nat) :
  Forall (fun v => (v <= list_sum l)%nat) l.
Proof.
  induction l as [| a l IH]; constructor; simpl; [lia |].
  eapply Forall_impl; [| exact IH]. simpl. intros; lia.
Qed.

(** The value computed before rounding. *)
Lemma calculate_entropy_unrounded (s : string) :
  exists h,
    calculate_entropy s = Ok (round3 h) /\ 0 <= h
    /\ forall alphabet, List.length alphabet = 16%nat ->
         Spec.drawn_from alphabet s = true -> h <= 4.
Proof.
  unfold calculate_entropy, len.
  set (cs := chars s).
  destruct (char_counts_ok cs) as (Hnd & Hincl & Hpos & Hsum).
  set (d := fold_left count_char cs []) in *.
  destruct cs as [| c0 cs'] eqn:Ecs.
  - (* the empty string never enters the second loop *)
    assert (Hd : values d = []).
    { destruct (values d) as [| v vs]; [reflexivity |].
      inversion Hpos; subst. simpl in Hsum. lia. }
    rewrite Hd. simpl. exists 0. repeat split; try lra. intros; lra.
  - rewrite <- Ecs in *.
    assert (Hn : (0 < List.length cs)%nat) by (rewrite Ecs; simpl; lia).
    rewrite entropy_loop_ok by assumption. cbn [Py.bind].
    exists (0 - Spec.weighted_logs (values d) (List.length cs)).
    split; [reflexivity |]. split.
    + assert (H : Spec.weighted_logs (values d) (List.length cs) <= 0).
      { apply weighted_logs_nonpos; [assumption |].
        rewrite <- Hsum.
        pose proof (Forall_le_list_sum (values d)) as Hle.
        rewrite Forall_forall in *. intros v Hv. split; auto. }
      lra.
    + intros alphabet Hlen Hdrawn.
      pose proof (weighted_logs_lower (values d) (List.length cs) Hn Hpos) as Hl.
      rewrite Hsum in Hl.
      assert (Hk : (List.length (values d) <= 16)%nat).
      { unfold values. rewrite length_map, <- (length_map fst), <- Hlen.
        apply NoDup_incl_length; [exact Hnd |].
        intros x Hx. apply Hincl in Hx.
        unfold Spec.drawn_from in Hdrawn. fold cs in Hdrawn.
        rewrite forallb_forall in Hdrawn. specialize (Hdrawn x Hx).
        apply existsb_exists in Hdrawn. destruct Hdrawn as [y [Hy E]].
        apply Ascii.eqb_eq in E. now subst. }
      apply le_INR in Hk. pose proof ln_2_pos as H2.
      assert (Hn' : 0 < INR (List.length cs)) by (apply lt_0_INR; lia).
      replace (INR (List.length cs) / INR (List.length cs)) with 1 in Hl
        by (field; lra).
      assert (Hq : (INR (List.length (values d)) / 16 - 1) / ln 2 <= 0).
      { apply Rmult_le_reg_r with (ln 2); [assumption |].
        unfold Rdiv at 1. rewrite Rmult_assoc, Rinv_l by lra.
        change (INR 16) with (INR 16) in Hk.
        replace (INR 16) with 16 in Hk by (simpl; lra). lra. }
      lra.
Qed.

Lemma calculate_entropy_in_range (alphabet : list ascii) (s : string) :
  List.length alphabet = 16%nat -> Spec.drawn_from alphabet s = true ->
  exists h, calculate_entropy s = Ok h /\ 0 <= h <= 4.
Proof.
  intros Hlen Hdrawn.
  destruct (calculate_entropy_unrounded s) as (h & E & H0 & H4).
  specialize (H4 alphabet Hlen Hdrawn).
  exists (round3 h). split; [exact E |].
  pose proof (RoundFacts.round3_bounds 0 4000 h) as Hb. lra.
Qed.

Lemma fold_count_char_repeat (c : ascii) (m v : nat) :
  fold_left count_char (repeat c m) [(c, v)] = [(c, (v + m)%nat)].
Proof.
  revert v. induction m as [| m IH]; intros v; simpl.
  - now rewrite Nat.add_0_r.
  - rewrite count_char_cons, Ascii.eqb_refl, IH. do 2 f_equal. lia.
Qed.

Lemma chars_str (l : list ascii) : chars (str l) = l.
Proof. apply list_ascii_of_string_of_list_ascii. Qed.

Lemma str_chars (s : string) : str (chars s) = s.
Proof. apply string_of_list_ascii_of_string. Qed.

(** C9: the entropy of the empty string is 0 and nothing is raised: the
    frequency table of the empty string is empty, so the second loop returns
    its initial value without running its body, whose division by the
    length 0 would have raised. *)
Theorem calculate_entropy_empty :
  calculate_entropy EmptyString = Ok 0
  /\ values (fold_left count_char (chars EmptyString) []) = []
  /\ (forall entropy, entropy_loop [] (len EmptyString) entropy = Ok entropy)
  /\ (forall count, Py.div count (INR (len EmptyString)) = Raise ZeroDivisionError).
Proof.
  repeat split.
  - unfold calculate_entropy.
    cbn [chars list_ascii_of_string fold_left values map entropy_loop Py.bind].
    now rewrite RoundFacts.round3_0.
  - intros count. unfold Py.div, len. simpl.
    destruct (Req_dec_T 0 0) as [_ | H]; [reflexivity | now elim H].
Qed.

(** C6: on a string over an alphabet of 16 symbols, in particular on a
    64-character hex digest, the entropy function returns a value between 0
    and 4.0; on a string that repeats one character it returns exactly 0. *)
Theorem calculate_entropy_range :
  (forall alphabet s,
      List.length alphabet = 16%nat -> Spec.drawn_from alphabet s = true ->
      exists h, calculate_entropy s = Ok h /\ 0 <= h <= 4)
  /\ (forall s,
         len s = 64%nat -> Spec.drawn_from Spec.hex_digits s = true ->
         exists h, calculate_entropy s = Ok h /\ 0 <= h <= 4)
  /\ (forall c n, calculate_entropy (str (repeat c n)) = Ok 0).
Proof.
  split; [| split].
  - exact calculate_entropy_in_range.
  - intros s _ H. now apply (calculate_entropy_in_range Spec.hex_digits).
  - intros c n. unfold calculate_entropy, len. rewrite chars_str.
    destruct n as [| n].
    + simpl. now rewrite RoundFacts.round3_0.
    + change (repeat c (S n)) with (c :: repeat c n).
      cbn [fold_left]. rewrite count_char_nil, fold_count_char_repeat.
      cbn [values map snd List.length]. rewrite repeat_length.
      rewrite entropy_loop_ok; [| lia | constructor; [lia | constructor]].
      cbn [Py.bind Spec.weighted_logs]. change (1 + n)%nat with (S n).
      assert (Hn : 0 < INR (S n)) by (apply lt_0_INR; lia).
      replace (INR (S n) / INR (S n)) with 1 by (field; lra).
      rewrite ln_1.
      replace (0 - (1 * (0 / ln 2) + 0)) with 0.
      * now rewrite RoundFacts.round3_0.
      * unfold Rdiv. rewrite Rmult_0_l. lra.
Qed.

(** The bound at the digest of the empty input. *)
Lemma calculate_entropy_range_witness :
  exists h,
    calculate_entropy
      "e3b0c44298fc1c149afbf4c8996fb92427ae41e4649b934ca495991b7852b855"
    = Ok h /\ 0 <= h <= 4.
Proof.
  apply (proj1 (proj2 calculate_entropy_range)); reflexivity.
Defined.

Lemma calculate_entropy_total (s : string) :
  exists h, calculate_entropy s = Ok h.
Proof.
  destruct (calculate_entropy_unrounded s) as (h & E & _).
  now exists (round3 h).
Qed.

End EntropyFacts.

(* ------------------------------------------------------------------ *)
(** ** ModelRotator *)

Module RotatorFacts.
Import Rotator.

Lemma get_next_model_nth (models : list string) (c : nat) :
  models <> [] ->
  get_next_model models c =
  (Ok (nth (c mod List.length models) models EmptyString), c + 1).
Proof.
  intros Hne. unfold get_next_model.
  destruct (List.length models) as [| n] eqn:En.
  - destruct models; [now elim Hne | discriminate].
  - assert (Hlt : c mod S n < List.length models).
    { rewrite En. apply Nat.mod_upper_bound. lia. }
    rewrite (nth_error_nth' models EmptyString Hlt). reflexivity.
Qed.

(** C7: a call of the rotator at counter [c] returns the model at index
    [c mod n] of the configured list of length [n] and leaves the counter at
    [c + 1]; [k] consecutive calls return the models at the indices
    [(c + j) mod n] for [j < k], a function of [c] and the list only. *)
Theorem get_next_model_round_robin (models : list string) (c : nat) :
  models <> [] ->
  (exists model,
      nth_error models (c mod List.length models) = Some model
      /\ get_next_model models c = (Ok model, c + 1))
  /\ (forall k,
         Spec.consecutive_models models k c =
         (Ok (map (fun j => nth ((c + j) mod List.length models) models
                               EmptyString) (seq 0 k)),
          c + k)).
Proof.
  intros Hne. split.
  - exists (nth (c mod List.length models) models EmptyString). split.
    + apply nth_error_nth'. apply Nat.mod_upper_bound.
      destruct models; [now elim Hne | simpl; lia].
    + now apply get_next_model_nth.
  - intros k. revert c. induction k as [| k IH]; intros c.
    + simpl. unfold Global.ret. now rewrite Nat.add_0_r.
    + cbn [Spec.consecutive_models]. unfold Global.bind at 1.
      rewrite get_next_model_nth by assumption.
      unfold Global.bind at 1. rewrite IH. unfold Global.ret.
      f_equal; [| lia]. f_equal.
      cbn [seq map]. rewrite Nat.add_0_r. f_equal.
      rewrite <- seq_shift, map_map. apply map_ext.
      intros j. do 2 f_equal. lia.
Qed.

(** The configured list: five calls from counter 3. *)
Lemma get_next_model_round_robin_witness :
  (exists model,
      nth_error Config.OLLAMA_MODELS (3 mod 5) = Some model
      /\ get_next_model Config.OLLAMA_MODELS 3 = (Ok model, 4))
  /\ Spec.consecutive_models Config.OLLAMA_MODELS 5 3 =
     (Ok [ "deepseek-coder:latest"; "gemma:latest"; "gemma:latest";
           "deepseek-coder:latest"; "gemma:latest" ]%string, 8).
Proof.
  destruct (get_next_model_round_robin Config.OLLAMA_MODELS 3) as [H1 H2].
  - discriminate.
  - split; [exact H1 | exact (H2 5)].
Defined.

End RotatorFacts.

(* ------------------------------------------------------------------ *)
(** ** ConsensusAssembler: the groups per key *)

Module GroupFacts.
Import Assembler Spec.

Section SetAdd.
Variable A : Type.
Variable dec : forall x y : A, {x = y} + {x <> y}.

Lemma set_add_present (a : A) (s : list A) :
  In a s -> ListSet.set_add dec a s = s.
Proof.
  induction s as [| b s IH]; intros Hin; [destruct Hin |].
  simpl. destruct (dec a b) as [E | N]; [reflexivity |].
  destruct Hin as [-> | Hin]; [now elim N |]. now rewrite IH.
Qed.

Lemma set_add_absent (a : A) (s : list A) :
  ~ In a s -> ListSet.set_add dec a s = s ++ [a].
Proof.
  induction s as [| b s IH]; intros Hnin; [reflexivity |].
  simpl. destruct (dec a b) as [E | N].
  - subst. elim Hnin. now left.
  - rewrite IH; [reflexivity |]. intros H. apply Hnin. now right.
Qed.

Lemma distinct_snoc (l : list A) (a : A) :
  distinct dec (l ++ [a]) = ListSet.set_add dec a (distinct dec l).
Proof.
  unfold distinct. now rewrite fold_left_app.
Qed.

Lemma distinct_In (l : list A) (a : A) : In a (distinct dec l) <-> In a l.
Proof.
  induction l as [| b l IH] using rev_ind; [reflexivity |].
  rewrite distinct_snoc, ListSet.set_add_iff, in_app_iff, IH. simpl.
  intuition auto.
Qed.

Lemma distinct_NoDup (l : list A) : NoDup (distinct dec l).
Proof.
  induction l as [| b l IH] using rev_ind; [constructor |].
  rewrite distinct_snoc. now apply ListSet.set_add_nodup.
Qed.

(** The set built by the code has as many elements as the list has
    distinct values. *)
Lemma distinct_length (l : list A) :
  List.length (distinct dec l) = List.length (nodup dec l).
Proof.
  apply Nat.le_antisymm; apply NoDup_incl_length.
  - apply distinct_NoDup.
  - intros x Hx. apply nodup_In. now apply distinct_In.
  - apply NoDup_nodup.
  - intros x Hx. apply distinct_In. now apply nodup_In in Hx.
Qed.
End SetAdd.

(** Dictionaries that hold a value [g k] under every key [k] of a list. *)
Section Tabulate.
Variable V : Type.

Lemma get_tabulate_in (g : string -> V) (ks : list string) (k0 : string) :
  In k0 ks -> get String.eqb (tabulate g ks) k0 = Some (g k0).
Proof.
  induction ks as [| k ks IH]; intros Hin; [destruct Hin |].
  simpl. destruct (String.eqb k k0) eqn:E.
  - apply String.eqb_eq in E. now subst.
  - apply String.eqb_neq in E. destruct Hin as [H | H]; [now elim E | auto].
Qed.

Lemma get_tabulate_out (g : string -> V) (ks : list string) (k0 : string) :
  ~ In k0 ks -> get String.eqb (tabulate g ks) k0 = None.
Proof.
  induction ks as [| k ks IH]; intros Hnin; [reflexivity |].
  simpl. destruct (String.eqb k k0) eqn:E.
  - apply String.eqb_eq in E. elim Hnin. now left.
  - apply IH. intros H. apply Hnin. now right.
Qed.

Lemma set_tabulate_in (g : string -> V) (ks : list string) (k0 : string) (v : V) :
  NoDup ks -> In k0 ks ->
  set String.eqb (tabulate g ks) k0 v =
  tabulate (fun k => if String.eqb k k0 then v else g k) ks.
Proof.
  induction ks as [| k ks IH]; intros Hnd Hin; [destruct Hin |].
  inversion Hnd as [| ? ? Hk Hks]; subst.
  simpl. destruct (String.eqb k k0) eqn:E.
  - apply String.eqb_eq in E. subst k0. f_equal.
    apply map_ext_in. intros k' Hk'.
    destruct (String.eqb k' k) eqn:E'; [| reflexivity].
    apply String.eqb_eq in E'. subst. now elim Hk.
  - apply String.eqb_neq in E. f_equal.
    destruct Hin as [H | H]; [now elim E | now apply IH].
Qed.

Lemma set_tabulate_out (g : string -> V) (ks : list string) (k0 : string) (v : V) :
  ~ In k0 ks ->
  set String.eqb (tabulate g ks) k0 v = tabulate g ks ++ [(k0, v)].
Proof.
  induction ks as [| k ks IH]; intros Hnin; [reflexivity |].
  simpl. destruct (String.eqb k k0) eqn:E.
  - apply String.eqb_eq in E. elim Hnin. now left.
  - f_equal. apply IH. intros H. apply Hnin. now right.
Qed.
End Tabulate.

Lemma discovery_keys_snoc (fs : list Fragment.t) (x : Fragment.t) :
  discovery_keys (fs ++ [x]) =
  if String.eqb (group_key x) EmptyString then discovery_keys fs
  else ListSet.set_add string_dec (group_key x) (discovery_keys fs).
Proof.
  unfold discovery_keys. rewrite map_app, filter_app. cbn [map filter].
  destruct (String.eqb (group_key x) EmptyString); cbn [negb].
  - now rewrite app_nil_r.
  - apply distinct_snoc.
Qed.

Lemma members_snoc (k : string) (fs : list Fragment.t) (x : Fragment.t) :
  members k (fs ++ [x]) =
  members k fs ++ (if String.eqb (group_key x) k then [x] else []).
Proof.
  unfold members. rewrite filter_app. cbn [filter].
  now destruct (String.eqb (group_key x) k).
Qed.

Lemma members_In (k : string) (fs : list Fragment.t) (f : Fragment.t) :
  In f (members k fs) <-> In f fs /\ group_key f = k.
Proof.
  unfold members. rewrite filter_In. now rewrite String.eqb_eq.
Qed.

Lemma discovery_keys_In (k : string) (fs : list Fragment.t) :
  In k (discovery_keys fs) <->
  k <> EmptyString /\ exists f, In f fs /\ group_key f = k.
Proof.
  unfold discovery_keys. rewrite distinct_In, filter_In, in_map_iff.
  rewrite negb_true_iff, String.eqb_neq.
  split.
  - intros [(f & E & Hf) Hk]. split; [assumption | now exists f].
  - intros [Hk (f & Hf & E)]. split; [now exists f | assumption].
Qed.

Lemma discovery_keys_members (k : string) (fs : list Fragment.t) :
  In k (discovery_keys fs) -> members k fs <> [].
Proof.
  intros H. apply discovery_keys_In in H. destruct H as [_ (f & Hf & E)].
  assert (Hin : In f (members k fs)) by now apply members_In.
  intros E'. now rewrite E' in Hin.
Qed.

Lemma members_undiscovered (k : string) (fs : list Fragment.t) :
  k <> EmptyString -> ~ In k (discovery_keys fs) -> members k fs = [].
Proof.
  intros Hk Hnin. destruct (members k fs) as [| f ms] eqn:E; [reflexivity |].
  assert (Hin : In f (members k fs)) by (rewrite E; now left).
  apply members_In in Hin. elim Hnin. apply discovery_keys_In.
  split; [assumption | now exists f].
Qed.

Lemma discovery_keys_NoDup (fs : list Fragment.t) : NoDup (discovery_keys fs).
Proof. apply distinct_NoDup. Qed.

Lemma group_of_snoc (ms : list Fragment.t) (x : Fragment.t) :
  group_of (ms ++ [x]) = extend (group_of ms) x.
Proof. unfold group_of. now rewrite fold_left_app. Qed.

(** The first loop of the assembler builds, in discovery order, the group
    of every non-empty key from the members of that key. *)
Lemma candidate_groups_tabulated (fs : list Fragment.t) :
  fold_left add_fragment fs [] =
  tabulate (fun k => group_of (members k fs)) (discovery_keys fs).
Proof.
  induction fs as [| x fs IH] using rev_ind; [reflexivity |].
  rewrite fold_left_app, IH. cbn [fold_left].
  rewrite discovery_keys_snoc. unfold add_fragment.
  fold (extend
          (get_default String.eqb
             match get String.eqb
                     (tabulate (fun k => group_of (members k fs))
                        (discovery_keys fs)) (group_key x)
             with
             | Some _ => tabulate (fun k => group_of (members k fs))
                           (discovery_keys fs)
             | None => set String.eqb
                         (tabulate (fun k => group_of (members k fs))
                            (discovery_keys fs)) (group_key x) Group.empty
             end (group_key x) Group.empty) x).
  destruct (String.eqb (group_key x) EmptyString) eqn:Ekey.
  - (* a fragment without key changes nothing *)
    apply String.eqb_eq in Ekey. unfold tabulate. apply map_ext_in.
    intros k Hk. rewrite members_snoc.
    destruct (String.eqb (group_key x) k) eqn:E; [| now rewrite app_nil_r].
    apply String.eqb_eq in E. apply discovery_keys_In in Hk.
    destruct Hk as [Hk _]. congruence.
  - apply String.eqb_neq in Ekey.
    destruct (in_dec string_dec (group_key x) (discovery_keys fs)) as [Hin | Hnin].
    + (* a known key: its group is extended in place *)
      rewrite (get_tabulate_in _ _ _ _ Hin).
      unfold get_default. rewrite (get_tabulate_in _ _ _ _ Hin).
      rewrite set_tabulate_in by (auto using discovery_keys_NoDup).
      rewrite set_add_present by assumption.
      unfold tabulate. apply map_ext_in. intros k Hk. f_equal.
      rewrite members_snoc. rewrite (String.eqb_sym k).
      destruct (String.eqb (group_key x) k) eqn:E.
      * apply String.eqb_eq in E. subst k. now rewrite group_of_snoc.
      * now rewrite app_nil_r.
    + (* a new key: a new group at the end *)
      rewrite (get_tabulate_out _ _ _ _ Hnin).
      rewrite set_tabulate_out by assumption.
      unfold get_default.
      assert (Hget : forall (d : dict string Group.t) k v,
                 ~ In k (keys d) ->
                 get String.eqb (d ++ [(k, v)]) k = Some v
                 /\ set String.eqb (d ++ [(k, v)]) k
                    = fun v' => d ++ [(k, v')]).
      { clear. intros d k v. induction d as [| [k' v'] d IHd]; intros Hk.
        - simpl. rewrite String.eqb_refl. split; reflexivity.
        - simpl. destruct (String.eqb k' k) eqn:E.
          + apply String.eqb_eq in E. subst. elim Hk. now left.
          + destruct IHd as [H1 H2]; [intros H; apply Hk; now right |].
            split; [assumption |]. now rewrite H2. }
      destruct (Hget (tabulate (fun k => group_of (members k fs))
                        (discovery_keys fs)) (group_key x) Group.empty)
        as [H1 H2].
      { unfold keys, tabulate. rewrite map_map. simpl. now rewrite map_id. }
      rewrite H1, H2. rewrite set_add_absent by assumption.
      unfold tabulate. rewrite map_app. cbn [map]. f_equal.
      * apply map_ext_in. intros k Hk. f_equal. rewrite members_snoc.
        destruct (String.eqb (group_key x) k) eqn:E; [| now rewrite app_nil_r].
        apply String.eqb_eq in E. subst k. contradiction.
      * do 2 f_equal. rewrite members_snoc, String.eqb_refl.
        rewrite members_undiscovered by assumption. reflexivity.
Qed.

Lemma group_of_fields (ms : list Fragment.t) :
  Group.candidates (group_of ms) = ms
  /\ Group.totalEntropy (group_of ms) = entropy_sum ms
  /\ Group.agents (group_of ms) = agent_ids ms
  /\ Group.rounds (group_of ms) = round_indices ms
  /\ Group.root_candidate (group_of ms) = root_of ms.
Proof.
  induction ms as [| x ms IH] using rev_ind.
  - repeat split.
  - destruct IH as (H1 & H2 & H3 & H4 & H5).
    rewrite group_of_snoc. unfold extend.
    cbn [Group.candidates Group.totalEntropy Group.agents Group.rounds
         Group.root_candidate].
    rewrite H1, H2, H3, H4, H5.
    unfold entropy_sum, agent_ids, round_indices, root_of.
    rewrite !map_app. cbn [map].
    rewrite !distinct_snoc, !fold_left_app. repeat split.
Qed.

Lemma root_of_snoc (ms : list Fragment.t) (x : Fragment.t) :
  root_of (ms ++ [x]) = track_root (root_of ms) x.
Proof. unfold root_of. now rewrite fold_left_app. Qed.

Lemma root_of_nonempty (ms : list Fragment.t) :
  ms <> [] -> exists r, root_of ms = Some r.
Proof.
  destruct ms as [| x ms] using rev_ind; [now intros [] | intros _].
  rewrite root_of_snoc. unfold track_root.
  destruct (root_of ms) as [r |]; [| now eexists].
  destruct (Rgt_dec (Fragment.entropy x) (Fragment.entropy r)); now eexists.
Qed.

(** The root of a group has the highest entropy of the group, and is the
    first fragment that has it. *)
Lemma root_of_first_max (ms : list Fragment.t) (r : Fragment.t) :
  root_of ms = Some r ->
  exists pre post,
    ms = pre ++ r :: post
    /\ (forall f, In f pre -> (Fragment.entropy f < Fragment.entropy r)%R)
    /\ (forall f, In f post -> (Fragment.entropy f <= Fragment.entropy r)%R).
Proof.
  revert r. induction ms as [| x ms IH] using rev_ind; intros r Hr.
  - discriminate.
  - rewrite root_of_snoc in Hr. unfold track_root in Hr.
    destruct (root_of ms) as [r0 |] eqn:E0.
    + destruct (IH r0 eq_refl) as (pre & post & Hms & Hpre & Hpost).
      destruct (Rgt_dec (Fragment.entropy x) (Fragment.entropy r0)) as [Hgt | Hle];
        injection Hr as <-.
      * exists ms, []. split; [reflexivity |]. split; [| intros f []].
        intros f Hf. rewrite Hms in Hf. apply in_app_iff in Hf.
        destruct Hf as [Hf | [<- | Hf]].
        -- specialize (Hpre f Hf). lra.
        -- lra.
        -- specialize (Hpost f Hf). lra.
      * exists pre, (post ++ [x]). split; [| split].
        -- rewrite Hms. now rewrite <- app_assoc.
        -- assumption.
        -- intros f Hf. apply in_app_iff in Hf.
           destruct Hf as [Hf | [<- | []]]; [now apply Hpost | lra].
    + injection Hr as <-.
      destruct ms as [| y ms].
      * exists [], []. repeat split; intros f [].
      * destruct (root_of_nonempty (y :: ms)) as [r' Hr']; [discriminate |].
        congruence.
Qed.

Lemma score_loop_tabulated (fs : list Fragment.t) (ks : list string)
  (acc : list ScoredGroup.t) :
  (forall k, In k ks -> members k fs <> []) ->
  score_loop (tabulate (fun k => group_of (members k fs)) ks) acc =
  Ok (acc ++ map (scored_of fs) ks).
Proof.
  revert acc. induction ks as [| k ks IH]; intros acc Hks.
  - simpl. now rewrite app_nil_r.
  - cbn [tabulate map score_loop].
    destruct (group_of_fields (members k fs)) as (H1 & H2 & H3 & H4 & H5).
    rewrite H1, H2, H3, H4, H5.
    assert (Hne : members k fs <> []) by (apply Hks; now left).
    destruct (members k fs) as [| first rest] eqn:E; [now elim Hne |].
    unfold Py.div.
    destruct (Req_dec_T (INR (List.length (first :: rest))) 0) as [Hz | _].
    { exfalso. simpl List.length in Hz. rewrite S_INR in Hz.
      pose proof (pos_INR (List.length rest)). lra. }
    cbn [Py.bind].
    destruct (root_of_nonempty (first :: rest) Hne) as [r Hr].
    rewrite Hr. cbn [subscript Py.bind].
    fold (tabulate (fun k => group_of (members k fs)) ks).
    rewrite IH by (intros k' Hk'; apply Hks; now right).
    rewrite <- app_assoc. cbn [app]. do 3 f_equal.
    unfold scored_of, raw_score, average_entropy. rewrite E, Hr. reflexivity.
Qed.

(** *** The sort *)

Lemma insert_by_score_nonempty (x : ScoredGroup.t) (l : list ScoredGroup.t) :
  insert_by_score x l <> [].
Proof.
  destruct l as [| y l]; simpl; [discriminate |].
  destruct (Rle_dec (ScoredGroup.score y) (ScoredGroup.score x)); discriminate.
Qed.

Lemma insert_by_score_perm (x : ScoredGroup.t) (l : list ScoredGroup.t) :
  Permutation (x :: l) (insert_by_score x l).
Proof.
  induction l as [| y l IH]; simpl; [reflexivity |].
  destruct (Rle_dec (ScoredGroup.score y) (ScoredGroup.score x)).
  - reflexivity.
  - rewrite perm_swap. now apply perm_skip.
Qed.

Lemma sort_by_score_perm (l : list ScoredGroup.t) :
  Permutation l (sort_by_score l).
Proof.
  induction l as [| x l IH]; simpl; [reflexivity |].
  rewrite <- insert_by_score_perm. now apply perm_skip.
Qed.

Lemma insert_by_score_sorted (x : ScoredGroup.t) (l : list ScoredGroup.t) :
  Sorted score_ge l -> Sorted score_ge (insert_by_score x l).
Proof.
  induction 1 as [| y l Hl IH Hhd]; simpl.
  - repeat constructor.
  - destruct (Rle_dec (ScoredGroup.score y) (ScoredGroup.score x)) as [Hle | Hgt].
    + constructor; [now constructor | now constructor].
    + constructor; [assumption |].
      destruct l as [| z l]; simpl.
      * constructor. unfold score_ge. lra.
      * destruct (Rle_dec (ScoredGroup.score z) (ScoredGroup.score x)).
        -- constructor. unfold score_ge. lra.
        -- constructor. now inversion Hhd.
Qed.

Lemma sort_by_score_sorted (l : list ScoredGroup.t) :
  Sorted score_ge (sort_by_score l).
Proof.
  induction l as [| x l IH]; simpl; [constructor |].
  now apply insert_by_score_sorted.
Qed.

Lemma with_score_insert (s : R) (x : ScoredGroup.t) (l : list ScoredGroup.t) :
  with_score s (insert_by_score x l) = with_score s (x :: l).
Proof.
  induction l as [| y l IH]; [reflexivity |].
  cbn [insert_by_score].
  destruct (Rle_dec (ScoredGroup.score y) (ScoredGroup.score x)) as [Hle | Hgt];
    [reflexivity |].
  unfold with_score in *. cbn [filter] in *. rewrite IH.
  destruct (Req_dec_T (ScoredGroup.score y) s) as [Ey | Ny];
    destruct (Req_dec_T (ScoredGroup.score x) s) as [Ex | Nx];
    try reflexivity.
  exfalso. lra.
Qed.

(** The sort is stable: groups of equal score keep their order. *)
Lemma sort_by_score_stable (s : R) (l : list ScoredGroup.t) :
  with_score s (sort_by_score l) = with_score s l.
Proof.
  induction l as [| x l IH]; [reflexivity |].
  cbn [sort_by_score fold_right]. rewrite with_score_insert.
  fold (sort_by_score l). unfold with_score in *. cbn [filter].
  now rewrite IH.
Qed.

(** The assembler as a function of the groups per key. *)
Lemma assemble_final_answer_spec (fs : list Fragment.t) (genesis_hash : string) :
  assemble_final_answer fs genesis_hash =
  Ok (result_of genesis_hash
        (sort_by_score (map (scored_of fs) (discovery_keys fs)))).
Proof.
  unfold assemble_final_answer.
  rewrite candidate_groups_tabulated.
  rewrite score_loop_tabulated
    by (intros k Hk; now apply discovery_keys_members).
  cbn [Py.bind app].
  destruct (map (scored_of fs) (discovery_keys fs)) as [| g gs]; [reflexivity |].
  cbn [sort_by_score fold_right]. fold (sort_by_score gs).
  pose proof (insert_by_score_nonempty g (sort_by_score gs)) as Hne.
  destruct (insert_by_score g (sort_by_score gs)) as [| top rest];
    [now elim Hne | reflexivity].
Qed.

End GroupFacts.

(* ------------------------------------------------------------------ *)
(** ** ConsensusAssembler: scoring, selection, degenerate result *)

Module AssemblerFacts.
Import Assembler Spec GroupFacts.
Open Scope R_scope.

Lemma Ok_inj (A : Type) (a b : A) : Ok a = Ok b -> a = b.
Proof. congruence. Qed.

Lemma allGroups_result_of (genesis_hash : string) (sorted : list ScoredGroup.t) :
  ConsensusResult.allGroups (result_of genesis_hash sorted) = sorted.
Proof. destruct sorted; reflexivity. Qed.

Lemma sorted_group_inv (fs : list Fragment.t) (g : ScoredGroup.t) :
  In g (sort_by_score (map (scored_of fs) (discovery_keys fs))) ->
  In (ScoredGroup.key g) (discovery_keys fs)
  /\ g = scored_of fs (ScoredGroup.key g).
Proof.
  intros Hg.
  apply (Permutation_in _ (Permutation_sym (sort_by_score_perm _))) in Hg.
  apply in_map_iff in Hg. destruct Hg as (k & <- & Hk). now split.
Qed.

Lemma yields_group_keys (fs : list Fragment.t) :
  yields_group fs = true <-> discovery_keys fs <> [].
Proof.
  unfold yields_group. rewrite existsb_exists. split.
  - intros (f & Hf & Hk). apply negb_true_iff, String.eqb_neq in Hk.
    assert (Hin : In (group_key f) (discovery_keys fs)).
    { apply discovery_keys_In. split; [assumption | now exists f]. }
    intros E. now rewrite E in Hin.
  - intros Hne. destruct (discovery_keys fs) as [| k ks] eqn:E; [now elim Hne |].
    assert (Hin : In k (discovery_keys fs)) by (rewrite E; now left).
    apply discovery_keys_In in Hin. destruct Hin as [Hk (f & Hf & Ef)].
    exists f. split; [assumption |].
    apply negb_true_iff, String.eqb_neq. congruence.
Qed.

Lemma root_of_pair_later (a b : Fragment.t) :
  Fragment.entropy a < Fragment.entropy b -> root_of [a; b] = Some b.
Proof.
  intros H. unfold root_of. cbn [fold_left track_root].
  destruct (Rgt_dec (Fragment.entropy b) (Fragment.entropy a)) as [_ | N];
    [reflexivity | exfalso; apply N; lra].
Qed.

(** C3: when some fragment has a key, the groups of the result are sorted
    by score in descending order and groups of equal score keep their
    discovery order; the selected candidate is the candidate text of the
    first member of the top group; the root agent and root entropy of every
    group are those of its first member of highest entropy.  The selected
    text can differ from the candidate of the root of the top group. *)
Theorem assembler_selection :
  (forall fs genesis_hash,
      yields_group fs = true ->
      exists res top rest,
        assemble_final_answer fs genesis_hash = Ok res
        /\ ConsensusResult.allGroups res = top :: rest
        /\ Sorted score_ge (ConsensusResult.allGroups res)
        /\ Permutation (map (scored_of fs) (discovery_keys fs))
             (ConsensusResult.allGroups res)
        /\ (forall s,
               with_score s (ConsensusResult.allGroups res) =
               with_score s (map (scored_of fs) (discovery_keys fs)))
        /\ (exists first others,
               members (ScoredGroup.key top) fs = first :: others
               /\ ConsensusResult.selectedCandidate res =
                  Fragment.candidate first)
        /\ (forall g, In g (ConsensusResult.allGroups res) ->
              exists pre r post,
                members (ScoredGroup.key g) fs = pre ++ r :: post
                /\ (forall f, In f pre ->
                      Fragment.entropy f < Fragment.entropy r)
                /\ (forall f, In f post ->
                      Fragment.entropy f <= Fragment.entropy r)
                /\ ScoredGroup.rootAgent g = Fragment.agentId r
                /\ ScoredGroup.rootEntropy g = Fragment.entropy r))
  /\ (exists fs genesis_hash res top rest r,
         assemble_final_answer fs genesis_hash = Ok res
         /\ ConsensusResult.allGroups res = top :: rest
         /\ root_of (members (ScoredGroup.key top) fs) = Some r
         /\ ScoredGroup.rootAgent top = Fragment.agentId r
         /\ Fragment.candidate r <> ConsensusResult.selectedCandidate res).
Proof.
  split.
  - intros fs genesis_hash Hy.
    apply yields_group_keys in Hy.
    set (sorted := sort_by_score (map (scored_of fs) (discovery_keys fs))).
    assert (Hroot : forall g, In g sorted ->
              exists pre r post,
                members (ScoredGroup.key g) fs = pre ++ r :: post
                /\ (forall f, In f pre -> Fragment.entropy f < Fragment.entropy r)
                /\ (forall f, In f post -> Fragment.entropy f <= Fragment.entropy r)
                /\ ScoredGroup.rootAgent g = Fragment.agentId r
                /\ ScoredGroup.rootEntropy g = Fragment.entropy r).
    { intros g Hg. apply sorted_group_inv in Hg. destruct Hg as [Hk Eg].
      apply discovery_keys_members in Hk.
      destruct (root_of_nonempty _ Hk) as [r Hr].
      destruct (root_of_first_max _ _ Hr) as (pre & post & Hms & Hpre & Hpost).
      exists pre, r, post. repeat split; try assumption.
      - rewrite Eg at 1. unfold scored_of. cbn [ScoredGroup.rootAgent].
        now rewrite Hr.
      - rewrite Eg at 1. unfold scored_of. cbn [ScoredGroup.rootEntropy].
        now rewrite Hr. }
    destruct sorted as [| top rest] eqn:Es.
    { exfalso. pose proof (sort_by_score_perm (map (scored_of fs) (discovery_keys fs))) as P.
      fold sorted in P. rewrite Es in P. apply Permutation_sym, Permutation_nil in P.
      apply map_eq_nil in P. contradiction. }
    exists (result_of genesis_hash (top :: rest)), top, rest.
    split; [rewrite <- Es; apply assemble_final_answer_spec |].
    rewrite allGroups_result_of. split; [reflexivity |].
    split; [rewrite <- Es; apply sort_by_score_sorted |].
    split; [rewrite <- Es; apply sort_by_score_perm |].
    split; [intros s; rewrite <- Es; apply sort_by_score_stable |].
    split; [| exact Hroot].
    assert (Hin : In top (sort_by_score (map (scored_of fs) (discovery_keys fs)))).
    { fold sorted. rewrite Es. now left. }
    apply sorted_group_inv in Hin. destruct Hin as [Hk Eg].
    apply discovery_keys_members in Hk.
    destruct (members (ScoredGroup.key top) fs) as [| first others] eqn:Em;
      [now elim Hk |].
    exists first, others. split; [reflexivity |].
    cbn [result_of ConsensusResult.selectedCandidate].
    rewrite Eg. unfold scored_of. cbn [ScoredGroup.candidate ScoredGroup.key].
    now rewrite Em.
  - set (fs := [sample_fragment "agent-0" 3; sample_fragment "agent-1" 3.5]).
    exists fs, "00"%string, (result_of "00" [scored_of fs "x=1"]),
      (scored_of fs "x=1"), [], (sample_fragment "agent-1" 3.5).
    split; [apply assemble_final_answer_spec |].
    split; [reflexivity |].
    assert (Hr : root_of fs = Some (sample_fragment "agent-1" 3.5)).
    { apply root_of_pair_later. cbn [Fragment.entropy sample_fragment]. lra. }
    split; [exact Hr |].
    split.
    + unfold scored_of. cbn [ScoredGroup.rootAgent].
      change (members "x=1" fs) with fs. now rewrite Hr.
    + discriminate.
Qed.

(** The selection on two agreeing fragments. *)
Lemma assembler_selection_witness :
  exists res top rest,
    assemble_final_answer
      [sample_fragment "agent-0" 3; sample_fragment "agent-1" 3.5] "00"
    = Ok res
    /\ ConsensusResult.allGroups res = top :: rest
    /\ ConsensusResult.selectedCandidate res =
       Fragment.candidate (sample_fragment "agent-0" 3)
    /\ ScoredGroup.rootAgent top = "agent-1"%string.
Proof.
  set (fs := [sample_fragment "agent-0" 3; sample_fragment "agent-1" 3.5]).
  destruct (proj1 assembler_selection fs "00"%string eq_refl)
    as (res & top & rest & E & Eall & _ & _ & _ & Hsel & _).
  exists res, top, rest.
  assert (Eres : res = result_of "00" [scored_of fs "x=1"]).
  { rewrite assemble_final_answer_spec in E. now apply Ok_inj in E. }
  split; [exact E |]. split; [exact Eall |].
  assert (Etop : top = scored_of fs "x=1").
  { rewrite Eres in Eall. cbn [result_of ConsensusResult.allGroups] in Eall.
    congruence. }
  split.
  - destruct Hsel as (first & others & Em & Esel).
    rewrite Esel. rewrite Etop in Em.
    change (members (ScoredGroup.key (scored_of fs "x=1")) fs) with fs in Em.
    unfold fs in Em. congruence.
  - rewrite Etop. unfold scored_of. cbn [ScoredGroup.rootAgent].
    change (members "x=1" fs) with fs. unfold fs.
    rewrite root_of_pair_later; [reflexivity |].
    cbn [Fragment.entropy sample_fragment]. lra.
Defined.

(** The degenerate result does not have an empty candidate: it carries the
    fixed comment of line 161. *)
Lemma degenerate_candidate_not_empty :
  exists res,
    assemble_final_answer [] "00" = Ok res
    /\ ConsensusResult.selectedCandidate res <> EmptyString.
Proof.
  eexists. split; [reflexivity | discriminate].
Qed.

(** C4, amended: when no fragment has a key (the list is empty, or every
    candidate normalizes to the empty text), the result is the degenerate
    one: the selected candidate is the fixed comment
    [// No valid code candidates were generated by the agents.], which
    itself normalizes to the empty text, the score is 0 and the list of
    groups is empty. *)
Theorem assemble_degenerate (fs : list Fragment.t) (genesis_hash : string) :
  yields_group fs = false ->
  assemble_final_answer fs genesis_hash =
  Ok (ConsensusResult.mk genesis_hash no_candidates_message 0 None [])
  /\ normalize (chars no_candidates_message) = [].
Proof.
  intros Hy. split; [| reflexivity].
  rewrite assemble_final_answer_spec.
  destruct (discovery_keys fs) as [| k ks] eqn:E; [reflexivity |].
  assert (H : yields_group fs = true).
  { apply yields_group_keys. now rewrite E. }
  congruence.
Qed.

(** The degenerate result on the empty list and on a list of comments. *)
Lemma assemble_degenerate_witness :
  assemble_final_answer [] "00" =
  Ok (ConsensusResult.mk "00" no_candidates_message 0 None [])
  /\ assemble_final_answer [comment_fragment; comment_fragment] "00" =
     Ok (ConsensusResult.mk "00" no_candidates_message 0 None []).
Proof.
  split.
  - apply (assemble_degenerate [] "00"). reflexivity.
  - apply (assemble_degenerate [comment_fragment; comment_fragment] "00").
    reflexivity.
Defined.

End AssemblerFacts.

(* ------------------------------------------------------------------ *)
(** ** The grouping key *)

Module TextFacts.
Import Text Spec.

Lemma split_lines_nonempty (s : list ascii) : split_lines s <> [].
Proof.
  destruct s as [| c s]; simpl; [discriminate |].
  destruct (Ascii.eqb c newline); [discriminate |].
  destruct (split_lines s); discriminate.
Qed.

(** Splitting into lines loses nothing. *)
Lemma join_split_lines (s : list ascii) : join_lines (split_lines s) = s.
Proof.
  induction s as [| c s IH]; [reflexivity |].
  cbn [split_lines]. destruct (Ascii.eqb c newline) eqn:E.
  - apply Ascii.eqb_eq in E. subst c.
    pose proof (split_lines_nonempty s) as Hne.
    cbn [join_lines]. destruct (split_lines s) as [| l ls]; [now elim Hne |].
    cbn [app]. now rewrite IH.
  - pose proof (split_lines_nonempty s) as Hne.
    destruct (split_lines s) as [| l ls]; [now elim Hne |].
    cbn [join_lines] in *. destruct ls; cbn [app]; now rewrite <- IH.
Qed.

Lemma split_lines_line (l : list ascii) :
  no_newline l = true -> split_lines l = [l].
Proof.
  induction l as [| c l IH]; intros H; [reflexivity |].
  cbn [no_newline forallb] in H. apply andb_true_iff in H. destruct H as [Hc Hl].
  cbn [split_lines]. apply negb_true_iff in Hc. rewrite Hc.
  fold (no_newline l) in Hl. now rewrite (IH Hl).
Qed.

Lemma split_lines_app (l rest : list ascii) :
  no_newline l = true ->
  split_lines (l ++ newline :: rest) = l :: split_lines rest.
Proof.
  induction l as [| c l IH]; intros H.
  - cbn [app split_lines]. now rewrite Ascii.eqb_refl.
  - cbn [no_newline forallb] in H. apply andb_true_iff in H. destruct H as [Hc Hl].
    cbn [app split_lines]. apply negb_true_iff in Hc. rewrite Hc.
    fold (no_newline l) in Hl. now rewrite (IH Hl).
Qed.

(** Lines without a line break are the lines of their join. *)
Lemma split_join_lines (ls : list (list ascii)) :
  ls <> [] -> forallb no_newline ls = true ->
  split_lines (join_lines ls) = ls.
Proof.
  induction ls as [| l ls IH]; intros Hne H; [now elim Hne |].
  cbn [forallb] in H. apply andb_true_iff in H. destruct H as [Hl Hls].
  destruct ls as [| l' ls].
  - now apply split_lines_line.
  - change (join_lines (l :: l' :: ls))
      with (l ++ newline :: join_lines (l' :: ls)).
    rewrite split_lines_app by assumption.
    now rewrite IH.
Qed.

(** [strip] takes away whitespace at the two ends and nothing else. *)
Lemma lstrip_decompose (s : list ascii) :
  exists l, s = l ++ lstrip s /\ forallb isspace l = true.
Proof.
  induction s as [| c s (l & E & Hl)].
  - now exists [].
  - cbn [lstrip]. destruct (isspace c) eqn:Ec.
    + exists (c :: l). split; [cbn [app]; now f_equal |].
      cbn [forallb]. now rewrite Ec.
    + now exists [].
Qed.

Lemma strip_decompose (s : list ascii) :
  exists l r,
    s = l ++ strip s ++ r /\ forallb isspace l = true
    /\ forallb isspace r = true.
Proof.
  unfold strip, rstrip.
  destruct (lstrip_decompose (List.rev s)) as (r' & Er & Hr).
  destruct (lstrip_decompose (List.rev (lstrip (List.rev s)))) as (l & El & Hl).
  exists l, (List.rev r'). split; [| split].
  - apply (f_equal (@List.rev ascii)) in Er.
    rewrite rev_involutive, rev_app_distr in Er.
    rewrite app_assoc, <- El. exact Er.
  - assumption.
  - rewrite forallb_forall in *. intros c Hc. apply Hr. now apply in_rev.
Qed.

Lemma lstrip_nonspace (u v : list ascii) (x : ascii) :
  isspace x = false -> lstrip (u ++ x :: v) = lstrip (u ++ [x]) ++ v.
Proof.
  intros Hx. induction u as [| c u IH]; cbn [app lstrip].
  - now rewrite Hx.
  - destruct (isspace c); [exact IH |].
    cbn [app]. now rewrite <- app_assoc.
Qed.

Lemma lstrip_nonspace_nonempty (u : list ascii) (x : ascii) :
  isspace x = false -> lstrip (u ++ [x]) <> [].
Proof.
  intros Hx. induction u as [| c u IH]; cbn [app lstrip].
  - rewrite Hx. discriminate.
  - destruct (isspace c); [exact IH | discriminate].
Qed.

Lemma rstrip_nonspace (u v : list ascii) (y : ascii) :
  isspace y = false -> rstrip (u ++ y :: v) = u ++ rstrip (y :: v).
Proof.
  intros Hy. unfold rstrip.
  rewrite rev_app_distr. cbn [List.rev]. rewrite <- app_assoc. cbn [app].
  rewrite lstrip_nonspace by assumption.
  rewrite rev_app_distr, rev_involutive. reflexivity.
Qed.

(** Whitespace between two characters that are no whitespace stays. *)
Lemma strip_interior (u v sp : list ascii) (x y : ascii) :
  isspace x = false -> isspace y = false ->
  strip ((u ++ [x]) ++ sp ++ y :: v) =
  lstrip (u ++ [x]) ++ sp ++ rstrip (y :: v).
Proof.
  intros Hx Hy. unfold strip.
  rewrite app_assoc, rstrip_nonspace by assumption.
  rewrite <- !app_assoc. cbn [app].
  now rewrite lstrip_nonspace by assumption.
Qed.

(** Without an occurrence of backslash-s nothing is replaced. *)
Lemma remove_backslash_s_id (s : list ascii) :
  contains_backslash_s s = false -> remove_backslash_s s = s.
Proof.
  induction s as [| c s IH]; intros H; [reflexivity |].
  destruct s as [| c2 s]; [reflexivity |].
  cbn [contains_backslash_s] in H. apply orb_false_iff in H.
  destruct H as [H1 H2].
  change (remove_backslash_s (c :: c2 :: s))
    with (if Ascii.eqb c "\"%char && Ascii.eqb c2 "s"%char
          then remove_backslash_s s
          else c :: remove_backslash_s (c2 :: s)).
  rewrite H1. now rewrite (IH H2).
Qed.

Import Assembler GroupFacts.

Lemma no_newline_app (l r : list ascii) :
  no_newline (l ++ r) = no_newline l && no_newline r.
Proof. apply forallb_app. Qed.

Lemma str_inj (l1 l2 : list ascii) : str l1 = str l2 -> l1 = l2.
Proof.
  intros H. apply (f_equal chars) in H.
  now rewrite !EntropyFacts.chars_str in H.
Qed.

(** *** Lines of tokens *)

Lemma list_token_ind2 (P : list token -> Prop) :
  P [] -> (forall t, P [t]) ->
  (forall t1 t2 rest, P rest -> P (t2 :: rest) -> P (t1 :: t2 :: rest)) ->
  forall line, P line.
Proof.
  intros H0 H1 H2 line.
  enough (H : P line /\ forall t, P (t :: line)) by apply H.
  induction line as [| t line [IH1 IH2]].
  - split; [exact H0 | exact H1].
  - split; [apply IH2 |]. intros t'. apply H2; [exact IH1 | apply IH2].
Qed.

Lemma isspace_no_backslash_s (a : ascii) :
  isspace a = true ->
  Ascii.eqb a "\"%char = false /\ Ascii.eqb a "s"%char = false.
Proof.
  intros Ha. split.
  - destruct (Ascii.eqb_spec a "\"%char) as [-> |]; [discriminate | reflexivity].
  - destruct (Ascii.eqb_spec a "s"%char) as [-> |]; [discriminate | reflexivity].
Qed.

Lemma remove_backslash_s_cons2 (c c2 : ascii) (r : list ascii) :
  remove_backslash_s (c :: c2 :: r) =
  if backslash_s c c2 then remove_backslash_s r
  else c :: remove_backslash_s (c2 :: r).
Proof. reflexivity. Qed.

(** A run of whitespace is kept by the replacement, as is what follows
    it. *)
Lemma remove_backslash_s_spaces (sp r : list ascii) :
  forallb isspace sp = true ->
  remove_backslash_s (sp ++ r) = sp ++ remove_backslash_s r.
Proof.
  induction sp as [| a sp IH]; intros H; [reflexivity |].
  cbn [forallb] in H. apply andb_true_iff in H. destruct H as [Ha Hsp].
  destruct (isspace_no_backslash_s a Ha) as [Hb _].
  cbn [app]. rewrite <- (IH Hsp).
  destruct (sp ++ r) as [| c2 r2]; [reflexivity |].
  rewrite remove_backslash_s_cons2. unfold backslash_s. now rewrite Hb.
Qed.

Lemma remove_backslash_s_gap (c y : ascii) (sp r : list ascii) :
  forallb isspace sp = true -> backslash_s c y && is_nil sp = false ->
  remove_backslash_s (c :: sp ++ y :: r) =
  c :: sp ++ remove_backslash_s (y :: r).
Proof.
  intros Hsp Hcy. destruct sp as [| a sp].
  - cbn [app]. rewrite andb_true_r in Hcy.
    now rewrite remove_backslash_s_cons2, Hcy.
  - rewrite <- remove_backslash_s_spaces by exact Hsp.
    cbn [forallb] in Hsp. apply andb_true_iff in Hsp.
    destruct (isspace_no_backslash_s a (proj1 Hsp)) as [_ Hs].
    cbn [app]. rewrite remove_backslash_s_cons2. unfold backslash_s.
    now rewrite Hs, andb_false_r.
Qed.

Lemma render_cons (first : bool) (t : token) (line : list token) :
  render first (t :: line) = side_of first t ++ render first line.
Proof. reflexivity. Qed.

Lemma render_app (first : bool) (l1 l2 : list token) :
  render first (l1 ++ l2) = render first l1 ++ render first l2.
Proof. apply flat_map_app. Qed.

Lemma flanked_gap (prev : bool) (sp1 sp2 : list ascii) (rest : list token) :
  flanked prev (Gap sp1 sp2 :: rest) = true ->
  prev = true /\ forallb isspace sp1 = true /\ forallb isspace sp2 = true
  /\ exists y rest', rest = Chr y :: rest' /\ isspace y = false
                     /\ flanked false rest = true.
Proof.
  cbn [flanked]. intros H.
  apply andb_true_iff in H. destruct H as [H Hrest].
  apply andb_true_iff in H. destruct H as [H Hy].
  apply andb_true_iff in H. destruct H as [H H2].
  apply andb_true_iff in H. destruct H as [Hp H1].
  split; [exact Hp |]. split; [exact H1 |]. split; [exact H2 |].
  destruct rest as [| [y | ? ?] rest']; try discriminate.
  exists y, rest'. split; [reflexivity |].
  split; [now apply negb_true_iff | exact Hrest].
Qed.

Lemma flanked_weaken (prev : bool) (line : list token) :
  flanked false line = true -> flanked prev line = true.
Proof. destruct line as [| [c | sp1 sp2] rest]; [easy | easy | discriminate]. Qed.

Lemma clear_tail (t : token) (rest : list token) :
  clear (t :: rest) = true -> clear rest = true.
Proof.
  cbn [clear]. intros H. apply andb_true_iff in H. apply H.
Qed.

Lemma clear_head (t : token) (rest : list token) :
  clear (t :: rest) = true -> at_backslash_s (t :: rest) = false.
Proof.
  cbn [clear]. intros H. apply andb_true_iff in H.
  now apply negb_true_iff.
Qed.

Lemma remove_tokens_chr_chr (c c2 : ascii) (rest : list token) :
  remove_tokens (Chr c :: Chr c2 :: rest) =
  if backslash_s c c2 then remove_tokens rest
  else Chr c :: remove_tokens (Chr c2 :: rest).
Proof. reflexivity. Qed.

Lemma remove_tokens_chr_gap (c : ascii) (sp1 sp2 : list ascii)
  (rest : list token) :
  remove_tokens (Chr c :: Gap sp1 sp2 :: rest) =
  Chr c :: Gap sp1 sp2 :: remove_tokens rest.
Proof. reflexivity. Qed.

(** The character after a gap is kept by the removal when the gap does not
    stand before a backslash-s. *)
Lemma remove_tokens_after_gap (sp1 sp2 : list ascii) (y : ascii)
  (rest : list token) :
  clear (Gap sp1 sp2 :: Chr y :: rest) = true ->
  remove_tokens (Chr y :: rest) = Chr y :: remove_tokens rest.
Proof.
  intros H. apply clear_head in H.
  destruct rest as [| [z | ? ?] rest]; [reflexivity | | reflexivity].
  cbn [at_backslash_s] in H.
  rewrite remove_tokens_chr_chr. now rewrite H.
Qed.

(** The replacement on a candidate is the removal on its tokens, when no
    gap touches a backslash-s. *)
Lemma remove_render (first : bool) (line : list token) :
  flanked false line = true -> clear line = true ->
  remove_backslash_s (render first line) =
  render first (remove_tokens line).
Proof.
  induction line as [| t | t1 t2 rest IH1 IH2] using list_token_ind2;
    intros Hf Hc.
  - reflexivity.
  - destruct t; [reflexivity | discriminate].
  - destruct t1 as [c | ? ?]; [| discriminate].
    destruct t2 as [c2 | sp1 sp2].
    + rewrite remove_tokens_chr_chr.
      change (render first (Chr c :: Chr c2 :: rest))
        with (c :: c2 :: render first rest).
      rewrite remove_backslash_s_cons2.
      destruct (backslash_s c c2) eqn:E.
      * apply IH1; [| now do 2 apply clear_tail in Hc].
        apply clear_head in Hc.
        destruct rest as [| [? | ? ?] rest]; [reflexivity | exact Hf |].
        cbn [at_backslash_s] in Hc. rewrite E in Hc. discriminate.
      * change (c :: render first (remove_tokens (Chr c2 :: rest)))
          with (render first (Chr c :: remove_tokens (Chr c2 :: rest))).
        rewrite render_cons. cbn [side_of app]. f_equal.
        apply IH2; [exact Hf | now apply clear_tail in Hc].
    + cbn [flanked] in Hf.
      destruct (flanked_gap _ _ _ _ Hf) as (_ & H1 & H2 & y & rest' & -> & Hy & Hrest).
      rewrite remove_tokens_chr_gap.
      rewrite !render_cons. cbn [side_of app].
      rewrite <- IH1 by (assumption || now do 2 apply clear_tail in Hc).
      rewrite render_cons. cbn [side_of app].
      apply clear_head in Hc. cbn [at_backslash_s] in Hc.
      apply remove_backslash_s_gap.
      * now destruct first.
      * destruct (backslash_s c y); [| reflexivity].
        cbn [andb] in Hc |- *. apply orb_false_iff in Hc.
        now destruct first.
Qed.

(** The gaps are still flanked after the removal. *)
Lemma flanked_remove (line : list token) :
  flanked false line = true -> clear line = true ->
  flanked false (remove_tokens line) = true.
Proof.
  induction line as [| t | t1 t2 rest IH1 IH2] using list_token_ind2;
    intros Hf Hc.
  - reflexivity.
  - destruct t; [reflexivity | discriminate].
  - destruct t1 as [c | ? ?]; [| discriminate].
    destruct t2 as [c2 | sp1 sp2].
    + rewrite remove_tokens_chr_chr.
      destruct (backslash_s c c2) eqn:E.
      * apply IH1; [| now do 2 apply clear_tail in Hc].
        apply clear_head in Hc.
        destruct rest as [| [? | ? ?] rest]; [reflexivity | exact Hf |].
        cbn [at_backslash_s] in Hc. rewrite E in Hc. discriminate.
      * cbn [flanked]. apply flanked_weaken.
        apply IH2; [exact Hf | now apply clear_tail in Hc].
    + cbn [flanked] in Hf.
      destruct (flanked_gap _ _ _ _ Hf) as (Hp & H1 & H2 & y & rest' & -> & Hy & Hrest).
      assert (IH : flanked false (remove_tokens (Chr y :: rest')) = true)
        by (apply IH1; [exact Hrest | now do 2 apply clear_tail in Hc]).
      rewrite remove_tokens_chr_gap.
      rewrite (remove_tokens_after_gap sp1 sp2) in IH |- *
        by now apply clear_tail in Hc.
      cbn [flanked] in IH |- *. rewrite Hp, H1, H2, Hy in *.
      exact IH.
Qed.

Lemma differs_cons (t : token) (line : list token) :
  differs (t :: line) =
  match t with
  | Chr _ => false
  | Gap sp1 sp2 => if list_eq_dec ascii_dec sp1 sp2 then false else true
  end || differs line.
Proof. reflexivity. Qed.

(** The removal keeps the gaps. *)
Lemma differs_remove (line : list token) :
  differs (remove_tokens line) = differs line.
Proof.
  induction line as [| t | t1 t2 rest IH1 IH2] using list_token_ind2.
  - reflexivity.
  - destruct t; reflexivity.
  - destruct t1 as [c | sp1 sp2].
    + destruct t2 as [c2 | sp1 sp2].
      * rewrite remove_tokens_chr_chr.
        destruct (backslash_s c c2); [exact IH1 |].
        rewrite !differs_cons, IH2. reflexivity.
      * rewrite remove_tokens_chr_gap. rewrite !differs_cons, IH1.
        reflexivity.
    + change (remove_tokens (Gap sp1 sp2 :: t2 :: rest))
        with (Gap sp1 sp2 :: remove_tokens (t2 :: rest)).
      rewrite !differs_cons, IH2. reflexivity.
Qed.

(** Without a gap of two different runs the two candidates have the same
    line. *)
Lemma render_same (line : list token) :
  differs line = false -> render true line = render false line.
Proof.
  induction line as [| t line IH]; intros H; [reflexivity |].
  rewrite differs_cons in H. apply orb_false_iff in H. destruct H as [Ht Hl].
  rewrite !render_cons, (IH Hl). f_equal.
  destruct t as [c | sp1 sp2]; [reflexivity |]. cbn [side_of].
  now destruct (list_eq_dec ascii_dec sp1 sp2).
Qed.

(** The first gap of two different runs, with what stands around it. *)
Lemma first_difference (line : list token) :
  flanked false line = true -> differs line = true ->
  exists pre x sp1 sp2 y post,
    line = pre ++ Chr x :: Gap sp1 sp2 :: Chr y :: post
    /\ isspace x = false /\ isspace y = false
    /\ forallb isspace sp1 = true /\ forallb isspace sp2 = true
    /\ sp1 <> sp2
    /\ render true pre = render false pre.
Proof.
  induction line as [| t | t1 t2 rest IH1 IH2] using list_token_ind2;
    intros Hf Hd.
  - discriminate.
  - destruct t; discriminate.
  - destruct t1 as [c | ? ?]; [| discriminate].
    destruct t2 as [c2 | sp1 sp2].
    + destruct (IH2 Hf Hd)
        as (pre & x & sp1 & sp2 & y & post & E & Hx & Hy & H1 & H2 & Hne & Hpre).
      exists (Chr c :: pre), x, sp1, sp2, y, post.
      rewrite E. repeat split; try assumption.
      rewrite !render_cons. now rewrite Hpre.
    + cbn [flanked] in Hf.
      destruct (flanked_gap _ _ _ _ Hf)
        as (Hp & H1 & H2 & y & rest' & -> & Hy & Hrest).
      apply negb_true_iff in Hp.
      destruct (list_eq_dec ascii_dec sp1 sp2) as [Heq | Hne].
      * assert (Hd' : differs (Chr y :: rest') = true).
        { rewrite !differs_cons in Hd.
          destruct (list_eq_dec ascii_dec sp1 sp2); [exact Hd | contradiction]. }
        destruct (IH1 Hrest Hd')
          as (pre & x & s1 & s2 & y' & post & E & Hx & Hy' & H1' & H2' & Hne
              & Hpre).
        exists (Chr c :: Gap sp1 sp2 :: pre), x, s1, s2, y', post.
        rewrite E. repeat split; try assumption.
        rewrite !render_cons. cbn [side_of]. now rewrite Hpre, Heq.
      * exists [], c, sp1, sp2, y, rest'. repeat split; assumption.
Qed.

Lemma spaces_before_nonspace (sp1 sp2 w1 w2 : list ascii) (y : ascii) :
  forallb isspace sp1 = true -> forallb isspace sp2 = true ->
  isspace y = false ->
  sp1 ++ y :: w1 = sp2 ++ y :: w2 -> sp1 = sp2.
Proof.
  revert sp2. induction sp1 as [| a sp1 IH]; intros sp2 H1 H2 Hy E.
  - destruct sp2 as [| b sp2]; [reflexivity |].
    cbn [app] in E. injection E as -> _.
    cbn [forallb] in H2. rewrite Hy in H2. discriminate.
  - cbn [forallb] in H1. apply andb_true_iff in H1. destruct H1 as [Ha H1].
    destruct sp2 as [| b sp2].
    + cbn [app] in E. injection E as -> _. rewrite Hy in Ha. discriminate.
    + cbn [app] in E. injection E as -> E.
      cbn [forallb] in H2. apply andb_true_iff in H2.
      f_equal. now apply (IH sp2).
Qed.

Lemma rstrip_keeps_head (y : ascii) (v : list ascii) :
  isspace y = false -> exists w, rstrip (y :: v) = y :: w.
Proof.
  intros Hy. unfold rstrip. cbn [List.rev].
  assert (H : exists l, lstrip (List.rev v ++ [y]) = l ++ [y]).
  { induction (List.rev v) as [| c u IH]; cbn [app lstrip].
    - rewrite Hy. now exists [].
    - destruct (isspace c); [exact IH | now exists (c :: u)]. }
  destruct H as [l ->]. rewrite rev_app_distr. cbn [List.rev app].
  now eexists.
Qed.

(** The keys of two renderings of tokens whose gaps are flanked: they are
    not empty, and they differ when a gap does. *)
Lemma strip_render_differs (line : list token) :
  flanked false line = true -> differs line = true ->
  strip (render true line) <> []
  /\ strip (render false line) <> []
  /\ strip (render true line) <> strip (render false line).
Proof.
  intros Hf Hd.
  destruct (first_difference line Hf Hd)
    as (pre & x & sp1 & sp2 & y & post & -> & Hx & Hy & H1 & H2 & Hne & Hpre).
  assert (E : forall first,
             render first (pre ++ Chr x :: Gap sp1 sp2 :: Chr y :: post) =
             (render true pre ++ [x]) ++ (if first then sp1 else sp2)
             ++ y :: render first post).
  { intros first. rewrite render_app, !render_cons. cbn [side_of].
    rewrite <- app_assoc. cbn [app].
    destruct first; [reflexivity | now rewrite Hpre]. }
  rewrite !E, !strip_interior by assumption.
  pose proof (lstrip_nonspace_nonempty (render true pre) x Hx) as HL.
  split; [| split].
  - intros H. apply app_eq_nil in H. now destruct H.
  - intros H. apply app_eq_nil in H. now destruct H.
  - intros H. apply app_inv_head in H.
    destruct (rstrip_keeps_head y (render true post) Hy) as [w1 E1].
    destruct (rstrip_keeps_head y (render false post) Hy) as [w2 E2].
    rewrite E1, E2 in H.
    now apply spaces_before_nonspace in H.
Qed.

(** *** From lines to one list of tokens *)

Lemma render_join_tokens (first : bool) (lines : list (list token)) :
  join_lines (map (render first) lines) = render first (join_tokens lines).
Proof.
  induction lines as [| l lines IH]; [reflexivity |].
  destruct lines as [| l' lines]; [reflexivity |].
  change (join_tokens (l :: l' :: lines))
    with (l ++ Chr newline :: join_tokens (l' :: lines)).
  rewrite render_app, render_cons. cbn [side_of app].
  rewrite <- IH. reflexivity.
Qed.

Lemma render_chars (first : bool) (sp : list ascii) :
  render first (map Chr sp) = sp.
Proof.
  induction sp as [| c sp IH]; [reflexivity |].
  cbn [map]. rewrite render_cons, IH. reflexivity.
Qed.

(** The runs of a text are another way to write the same two texts. *)
Lemma render_merge (first : bool) (text : list token) :
  forall sp1 sp2 has_gap,
    (has_gap = false -> sp1 = sp2) ->
    render first (merge sp1 sp2 has_gap text) =
    (if first then sp1 else sp2) ++ render first text.
Proof.
  induction text as [| [c | s1 s2] rest IH]; intros sp1 sp2 has_gap Hsp.
  - cbn [merge]. change (render first []) with (@nil ascii).
    rewrite app_nil_r. unfold emit.
    destruct has_gap.
    + cbn [render flat_map side_of]. now rewrite app_nil_r.
    + rewrite render_chars. rewrite (Hsp eq_refl). now destruct first.
  - cbn [merge]. destruct (isspace c).
    + rewrite IH by (intros H; now rewrite (Hsp H)).
      rewrite render_cons. cbn [side_of].
      destruct first; now rewrite <- app_assoc.
    + rewrite render_app, !render_cons. cbn [side_of app].
      rewrite IH by reflexivity.
      f_equal; [| now destruct first].
      unfold emit. destruct has_gap.
      * cbn [render flat_map side_of]. now rewrite app_nil_r.
      * rewrite render_chars. rewrite (Hsp eq_refl). now destruct first.
  - cbn [merge]. rewrite IH by discriminate.
    rewrite render_cons. cbn [side_of].
    destruct first; now rewrite <- app_assoc.
Qed.

Lemma render_runs (first : bool) (text : list token) :
  render first (runs text) = render first text.
Proof.
  unfold runs. rewrite render_merge by reflexivity. now destruct first.
Qed.

Lemma filter_map_commute (A B : Type) (f : A -> B) (p : B -> bool)
  (l : list A) :
  filter p (map f l) = map f (filter (fun a => p (f a)) l).
Proof.
  induction l as [| a l IH]; [reflexivity |].
  cbn [map filter]. destruct (p (f a)); cbn [map]; now rewrite IH.
Qed.

(** A line is a comment line in both candidates or in neither. *)
Lemma code_line_comment (line : list token) :
  code_line line = true ->
  is_comment_line (render false line) = is_comment_line (render true line).
Proof.
  unfold code_line. intros H. apply orb_true_iff in H.
  destruct H as [H | H].
  - destruct (list_eq_dec ascii_dec (render true line) (render false line))
      as [E |]; [now rewrite E | discriminate].
  - apply andb_true_iff in H. destruct H as [H1 H2].
    apply negb_true_iff in H1, H2. now rewrite H1, H2.
Qed.

(** A line that the candidates do not share is kept by the filter, and
    one of its gaps has two different runs. *)
Lemma code_line_kept (line : list token) :
  code_line line = true -> render true line <> render false line ->
  is_comment_line (render true line) = false /\ differs line = true.
Proof.
  unfold code_line. intros H Hne. split.
  - apply orb_true_iff in H. destruct H as [H | H].
    + destruct (list_eq_dec ascii_dec (render true line) (render false line));
        [contradiction | discriminate].
    + apply andb_true_iff in H. now apply negb_true_iff.
  - destruct (differs line) eqn:E; [reflexivity |].
    now apply render_same in E.
Qed.

Lemma unequal_line (lines : list (list token)) :
  candidate_of true lines <> candidate_of false lines ->
  exists line,
    In line lines /\ render true line <> render false line.
Proof.
  intros Hne.
  assert (H : map (render true) lines <> map (render false) lines).
  { intros E. apply Hne. unfold candidate_of. now rewrite E. }
  clear Hne. induction lines as [| l lines IH]; [now elim H |].
  destruct (list_eq_dec ascii_dec (render true l) (render false l)) as [E | E].
  - destruct IH as (line & Hin & Hl).
    + intros E'. apply H. cbn [map]. now rewrite E, E'.
    + exists line. split; [now right | exact Hl].
  - exists l. split; [now left | exact E].
Qed.

Lemma single_line_render (first : bool) (lines : list (list token)) :
  forallb single_line lines = true ->
  forallb no_newline (map (render first) lines) = true.
Proof.
  intros H. apply forallb_forall. intros l' Hl'. apply in_map_iff in Hl'.
  destruct Hl' as (l & <- & Hl).
  pose proof (proj1 (forallb_forall _ _) H l Hl) as Hs.
  unfold single_line in Hs. apply andb_true_iff in Hs.
  now destruct first.
Qed.

(** The text without its comment lines, as the candidates have it. *)
Lemma render_remaining (first : bool) (lines : list (list token)) :
  lines <> [] ->
  forallb single_line lines = true -> forallb code_line lines = true ->
  join_lines
    (filter (fun line => negb (is_comment_line line))
       (split_lines (candidate_of first lines)))
  = render first (remaining lines).
Proof.
  intros Hne Hsingle Hcode. unfold candidate_of, remaining.
  rewrite split_join_lines.
  - rewrite filter_map_commute, render_join_tokens. do 2 f_equal.
    apply filter_ext_in. intros l Hl.
    destruct first; [reflexivity |].
    now rewrite code_line_comment
      by exact (proj1 (forallb_forall _ _) Hcode l Hl).
  - destruct lines; [now elim Hne | discriminate].
  - now apply single_line_render.
Qed.

(** The key of a candidate given by lines of tokens: the comment lines are
    filtered on the tokens, and the replacement is the removal on the
    tokens. *)
Lemma normalize_candidate_of (first : bool) (lines : list (list token)) :
  lines <> [] ->
  forallb single_line lines = true -> forallb code_line lines = true ->
  interior lines = true -> clear_of_backslash_s lines = true ->
  normalize (candidate_of first lines) =
  strip (render first (remove_tokens (runs (remaining lines)))).
Proof.
  intros Hne Hsingle Hcode Hint Hclear.
  unfold normalize. rewrite render_remaining by assumption.
  rewrite <- render_runs. now rewrite remove_render.
Qed.

(** The texts without their comment lines differ when the candidates
    do. *)
Lemma remaining_differs (lines : list (list token)) :
  candidate_of true lines <> candidate_of false lines ->
  forallb single_line lines = true -> forallb code_line lines = true ->
  render true (remaining lines) <> render false (remaining lines).
Proof.
  intros Hne Hsingle Hcode E.
  destruct (unequal_line lines Hne) as (line & Hin & Hl).
  destruct (code_line_kept line
              (proj1 (forallb_forall _ _) Hcode line Hin) Hl) as [Hk _].
  set (kept := filter (fun l => negb (is_comment_line (render true l))) lines).
  assert (Hkept : In line kept).
  { unfold kept. apply filter_In. split; [exact Hin | now rewrite Hk]. }
  assert (Hsingle' : forallb single_line kept = true).
  { apply forallb_forall. intros l Hl'. unfold kept in Hl'.
    apply filter_In in Hl'.
    exact (proj1 (forallb_forall _ _) Hsingle l (proj1 Hl')). }
  unfold remaining in E. fold kept in E.
  rewrite <- !render_join_tokens in E.
  apply (f_equal split_lines) in E.
  rewrite !split_join_lines in E;
    try (now apply single_line_render);
    try (destruct kept; [destruct Hkept | discriminate]).
  apply Hl.
  clear - E Hkept. induction kept as [| l kept IH]; [destruct Hkept |].
  cbn [map] in E. injection E as E1 E2.
  destruct Hkept as [<- | H]; [exact E1 | now apply IH].
Qed.

(** The keys of two candidates that differ in interior spacing only, no
    run in which they differ touching a backslash-s: they are not empty,
    and they differ. *)
Lemma keys_of_spacing_variants (lines : list (list token)) :
  candidate_of true lines <> candidate_of false lines ->
  forallb single_line lines = true -> forallb code_line lines = true ->
  interior lines = true -> clear_of_backslash_s lines = true ->
  normalize (candidate_of true lines) <> []
  /\ normalize (candidate_of false lines) <> []
  /\ normalize (candidate_of true lines)
     <> normalize (candidate_of false lines).
Proof.
  intros Hne Hsingle Hcode Hint Hclear.
  assert (Hlines : lines <> []) by (intros ->; now apply Hne).
  rewrite !normalize_candidate_of by assumption.
  apply strip_render_differs.
  - now apply flanked_remove.
  - rewrite differs_remove.
    destruct (differs (runs (remaining lines))) eqn:E; [reflexivity |].
    apply render_same in E. rewrite !render_runs in E.
    now apply remaining_differs in E.
Qed.

Lemma distinct_keys_distinct_groups (fs : list Fragment.t) (f1 f2 : Fragment.t) :
  In f1 fs -> In f2 fs ->
  group_key f1 <> EmptyString -> group_key f2 <> EmptyString ->
  group_key f1 <> group_key f2 ->
  in_distinct_groups fs f1 f2.
Proof.
  intros Hin1 Hin2 Hk1 Hk2 Hne. unfold in_distinct_groups. cbv zeta.
  rewrite candidate_groups_tabulated.
  assert (Hget : forall f, In f fs -> group_key f <> EmptyString ->
            get String.eqb
              (tabulate (fun k => group_of (members k fs)) (discovery_keys fs))
              (group_key f)
            = Some (group_of (members (group_key f) fs))
            /\ In f (Group.candidates (group_of (members (group_key f) fs)))).
  { intros f Hf Hk. split.
    - apply get_tabulate_in. apply discovery_keys_In. split; [assumption |].
      now exists f.
    - destruct (group_of_fields (members (group_key f) fs)) as [-> _].
      now apply members_In. }
  destruct (Hget f1 Hin1 Hk1) as [G1 M1].
  destruct (Hget f2 Hin2 Hk2) as [G2 M2].
  exists (group_key f1), (group_of (members (group_key f1) fs)),
    (group_key f2), (group_of (members (group_key f2) fs)).
  repeat split; try assumption.
  intros k g Hg [H1 H2].
  destruct (in_dec string_dec k (discovery_keys fs)) as [Hk | Hk].
  - rewrite (get_tabulate_in _ _ _ _ Hk) in Hg. injection Hg as <-.
    destruct (group_of_fields (members k fs)) as [E _]. rewrite E in H1, H2.
    apply members_In in H1, H2. destruct H1 as [_ E1]. destruct H2 as [_ E2].
    congruence.
  - rewrite (get_tabulate_out _ _ _ _ Hk) in Hg. discriminate.
Qed.

(** Two fragments with one key are members of one group, and a fragment
    without a key is a member of none. *)
Lemma one_key_one_group (fs : list Fragment.t) (f1 f2 : Fragment.t) :
  In f1 fs -> In f2 fs ->
  group_key f1 = group_key f2 -> group_key f1 <> EmptyString ->
  ~ in_distinct_groups fs f1 f2.
Proof.
  intros Hin1 Hin2 Hk Hne. unfold in_distinct_groups. cbv zeta.
  intros (k1 & g1 & k2 & g2 & _ & _ & _ & _ & _ & Hno).
  apply (Hno (group_key f1) (group_of (members (group_key f1) fs))).
  - rewrite candidate_groups_tabulated. apply get_tabulate_in.
    apply discovery_keys_In. split; [exact Hne |].
    exists f1. now split.
  - destruct (group_of_fields (members (group_key f1) fs)) as [-> _].
    split; apply members_In; split; (assumption || reflexivity || now symmetry).
Qed.

Lemma no_key_no_group (fs : list Fragment.t) (f1 f2 : Fragment.t) :
  group_key f1 = EmptyString -> ~ in_distinct_groups fs f1 f2.
Proof.
  intros Hk. unfold in_distinct_groups. cbv zeta.
  intros (k1 & g1 & k2 & g2 & _ & Hg1 & _ & Hf1 & _).
  rewrite candidate_groups_tabulated in Hg1.
  destruct (in_dec string_dec k1 (discovery_keys fs)) as [Hin | Hout].
  - rewrite (get_tabulate_in _ _ _ _ Hin) in Hg1. injection Hg1 as <-.
    destruct (group_of_fields (members k1 fs)) as [E _]. rewrite E in Hf1.
    apply members_In in Hf1. destruct Hf1 as [_ Ek].
    apply discovery_keys_In in Hin. destruct Hin as [Hne _].
    congruence.
  - rewrite (get_tabulate_out _ _ _ _ Hout) in Hg1. discriminate.
Qed.

(** C10 (as stated) fails at a run of spacing that touches a backslash-s.
    Two candidates that differ in the spacing before a backslash-s that
    ends the text, or after one that starts it, have one key: the spacing
    is at an end of the text once the backslash-s is removed, and [strip]
    takes it away.  And of two candidates that differ in the spacing
    between a backslash and an [s], the one without spacing may have no
    key at all. *)
Lemma spacing_next_to_backslash_s :
  (differ_in_interior_spacing
     [word "x=1" ++ Gap (chars " ") (chars "  ") :: word "\s"]
     (chars (Fragment.candidate (spaced_fragment " ")))
     (chars (Fragment.candidate (spaced_fragment "  ")))
   /\ group_key (spaced_fragment " ") = "x=1"%string
   /\ group_key (spaced_fragment "  ") = "x=1"%string
   /\ ~ in_distinct_groups [spaced_fragment " "; spaced_fragment "  "]
          (spaced_fragment " ") (spaced_fragment "  "))
  /\ (differ_in_interior_spacing
        [word "\s" ++ Gap (chars " ") (chars "  ") :: word "x=1"]
        (chars (Fragment.candidate (led_fragment " ")))
        (chars (Fragment.candidate (led_fragment "  ")))
      /\ group_key (led_fragment " ") = "x=1"%string
      /\ group_key (led_fragment "  ") = "x=1"%string
      /\ ~ in_distinct_groups [led_fragment " "; led_fragment "  "]
             (led_fragment " ") (led_fragment "  "))
  /\ (differ_in_interior_spacing
        [[Chr "\"; Gap [] (chars " "); Chr "s"]]
        (chars (Fragment.candidate (split_fragment "")))
        (chars (Fragment.candidate (split_fragment " ")))
      /\ group_key (split_fragment "") = EmptyString
      /\ ~ in_distinct_groups [split_fragment ""; split_fragment " "]
             (split_fragment "") (split_fragment " ")).
Proof.
  assert (Hvariants : forall lines c1 c2,
            c1 = candidate_of true lines -> c2 = candidate_of false lines ->
            c1 <> c2 -> forallb single_line lines = true ->
            forallb code_line lines = true -> interior lines = true ->
            differ_in_interior_spacing lines c1 c2)
    by (intros; repeat split; assumption).
  split; [| split].
  - split; [apply Hvariants; (reflexivity || discriminate) |].
    split; [reflexivity |]. split; [reflexivity |].
    apply one_key_one_group;
      [now left | right; now left | reflexivity | discriminate].
  - split; [apply Hvariants; (reflexivity || discriminate) |].
    split; [reflexivity |]. split; [reflexivity |].
    apply one_key_one_group;
      [now left | right; now left | reflexivity | discriminate].
  - split; [apply Hvariants; (reflexivity || discriminate) |].
    split; [reflexivity |].
    now apply no_key_no_group.
Qed.

(** C10 (as amended): the key is the text without its comment lines,
    without the occurrences of backslash-s and without the whitespace at
    its two ends; splitting into lines loses nothing, [strip] removes
    whitespace at the ends only, and a text free of backslash-s is not
    changed by the replacement.  Two fragments whose candidates differ only
    in interior spacing of lines that are no comment lines are put in
    distinct groups, when no run of whitespace in which they differ
    touches or splits an occurrence of backslash-s. *)
Theorem interior_spacing_distinct_groups :
  (forall c,
      normalize c =
      strip (remove_backslash_s
               (join_lines
                  (filter (fun line => negb (startswith_slashes (strip line)))
                     (split_lines c)))))
  /\ (forall s, join_lines (split_lines s) = s)
  /\ (forall s, exists l r,
         s = l ++ strip s ++ r /\ forallb isspace l = true
         /\ forallb isspace r = true)
  /\ (forall s, contains_backslash_s s = false -> remove_backslash_s s = s)
  /\ (forall fs f1 f2 lines,
         In f1 fs -> In f2 fs ->
         differ_in_interior_spacing lines
           (chars (Fragment.candidate f1)) (chars (Fragment.candidate f2)) ->
         clear_of_backslash_s lines = true ->
         in_distinct_groups fs f1 f2).
Proof.
  split; [reflexivity |].
  split; [exact join_split_lines |].
  split; [exact strip_decompose |].
  split; [exact remove_backslash_s_id |].
  intros fs f1 f2 lines Hin1 Hin2
    (E1 & E2 & Hne & Hsingle & Hcode & Hint) Hclear.
  rewrite E1, E2 in Hne.
  destruct (keys_of_spacing_variants lines Hne Hsingle Hcode Hint Hclear)
    as (K1 & K2 & K12).
  rewrite <- E1 in K1, K12. rewrite <- E2 in K2, K12.
  apply distinct_keys_distinct_groups; try assumption; unfold group_key.
  - intros E. apply (str_inj _ []) in E. contradiction.
  - intros E. apply (str_inj _ []) in E. contradiction.
  - intros E. apply str_inj in E. contradiction.
Qed.

(** Two candidates under the same header, [x = 1] and [x  =  1]. *)
Lemma interior_spacing_distinct_groups_witness :
  in_distinct_groups [headed_fragment " "; headed_fragment "  "]
    (headed_fragment " ") (headed_fragment "  ").
Proof.
  apply (proj2 (proj2 (proj2 (proj2 interior_spacing_distinct_groups)))
           _ _ _
           [word "// Agent: agent-0";
            [Chr "x"; Gap (chars " ") (chars "  "); Chr "=";
             Gap (chars " ") (chars "  "); Chr "1"]]).
  - now left.
  - right; now left.
  - repeat split; (reflexivity || discriminate).
  - reflexivity.
Defined.

End TextFacts.

(* ------------------------------------------------------------------ *)
(** ** The groups and their scores on binary64 numbers *)

Module Binary64Facts.
Import PrimFloat Binary64 GroupFacts.

Lemma discovery_keys64_snoc (fs : list Fragment.t) (x : Fragment.t) :
  discovery_keys (fs ++ [x]) =
  if String.eqb (group_key x) EmptyString then discovery_keys fs
  else ListSet.set_add string_dec (group_key x) (discovery_keys fs).
Proof.
  unfold discovery_keys. rewrite map_app, filter_app. cbn [map filter].
  destruct (String.eqb (group_key x) EmptyString); cbn [negb].
  - now rewrite app_nil_r.
  - apply distinct_snoc.
Qed.

Lemma members64_snoc (k : string) (fs : list Fragment.t) (x : Fragment.t) :
  members k (fs ++ [x]) =
  members k fs ++ (if String.eqb (group_key x) k then [x] else []).
Proof.
  unfold members. rewrite filter_app. cbn [filter].
  now destruct (String.eqb (group_key x) k).
Qed.

Lemma members64_In (k : string) (fs : list Fragment.t) (f : Fragment.t) :
  In f (members k fs) <-> In f fs /\ group_key f = k.
Proof.
  unfold members. rewrite filter_In. now rewrite String.eqb_eq.
Qed.

Lemma discovery_keys64_In (k : string) (fs : list Fragment.t) :
  In k (discovery_keys fs) <->
  k <> EmptyString /\ exists f, In f fs /\ group_key f = k.
Proof.
  unfold discovery_keys. rewrite distinct_In, filter_In, in_map_iff.
  rewrite negb_true_iff, String.eqb_neq.
  split.
  - intros [(f & E & Hf) Hk]. split; [assumption | now exists f].
  - intros [Hk (f & Hf & E)]. split; [now exists f | assumption].
Qed.

Lemma discovery_keys64_members (k : string) (fs : list Fragment.t) :
  In k (discovery_keys fs) -> members k fs <> [].
Proof.
  intros H. apply discovery_keys64_In in H. destruct H as [_ (f & Hf & E)].
  assert (Hin : In f (members k fs)) by now apply members64_In.
  intros E'. now rewrite E' in Hin.
Qed.

Lemma members64_undiscovered (k : string) (fs : list Fragment.t) :
  k <> EmptyString -> ~ In k (discovery_keys fs) -> members k fs = [].
Proof.
  intros Hk Hnin. destruct (members k fs) as [| f ms] eqn:E; [reflexivity |].
  assert (Hin : In f (members k fs)) by (rewrite E; now left).
  apply members64_In in Hin. elim Hnin. apply discovery_keys64_In.
  split; [assumption | now exists f].
Qed.

Lemma group_of64_snoc (ms : list Fragment.t) (x : Fragment.t) :
  group_of (ms ++ [x]) = extend (group_of ms) x.
Proof. unfold group_of. now rewrite fold_left_app. Qed.

Lemma get_set_last (V : Type) (d : dict string V) (k : string) (v : V) :
  ~ In k (keys d) ->
  get String.eqb (d ++ [(k, v)]) k = Some v
  /\ forall v', set String.eqb (d ++ [(k, v)]) k v' = d ++ [(k, v')].
Proof.
  induction d as [| [k' w] d IHd]; intros Hk.
  - simpl. rewrite String.eqb_refl. split; reflexivity.
  - simpl. destruct (String.eqb k' k) eqn:E.
    + apply String.eqb_eq in E. subst. elim Hk. now left.
    + destruct IHd as [H1 H2]; [intros H; apply Hk; now right |].
      split; [assumption |]. intros v'. now rewrite H2.
Qed.

(** The first loop builds, in discovery order, the group of every
    non-empty key from the members of that key. *)
Lemma candidate_groups64_tabulated (fs : list Fragment.t) :
  fold_left add_fragment fs [] =
  Spec.tabulate (fun k => group_of (members k fs)) (discovery_keys fs).
Proof.
  induction fs as [| x fs IH] using rev_ind; [reflexivity |].
  rewrite fold_left_app, IH. cbn [fold_left].
  rewrite discovery_keys64_snoc. unfold add_fragment.
  destruct (String.eqb (group_key x) EmptyString) eqn:Ekey.
  - apply String.eqb_eq in Ekey. unfold Spec.tabulate. apply map_ext_in.
    intros k Hk. rewrite members64_snoc.
    destruct (String.eqb (group_key x) k) eqn:E; [| now rewrite app_nil_r].
    apply String.eqb_eq in E. apply discovery_keys64_In in Hk.
    destruct Hk as [Hk _]. congruence.
  - apply String.eqb_neq in Ekey.
    destruct (in_dec string_dec (group_key x) (discovery_keys fs))
      as [Hin | Hnin].
    + rewrite (get_tabulate_in _ _ _ _ Hin).
      unfold get_default. rewrite (get_tabulate_in _ _ _ _ Hin).
      rewrite set_tabulate_in
        by (assumption || apply distinct_NoDup).
      rewrite set_add_present by assumption.
      unfold Spec.tabulate. apply map_ext_in. intros k Hk. f_equal.
      rewrite members64_snoc. rewrite (String.eqb_sym k).
      destruct (String.eqb (group_key x) k) eqn:E.
      * apply String.eqb_eq in E. subst k. now rewrite group_of64_snoc.
      * now rewrite app_nil_r.
    + rewrite (get_tabulate_out _ _ _ _ Hnin).
      rewrite set_tabulate_out by assumption.
      unfold get_default.
      destruct (get_set_last _
                  (Spec.tabulate (fun k => group_of (members k fs))
                     (discovery_keys fs)) (group_key x) Group.empty)
        as [H1 H2].
      { unfold keys, Spec.tabulate. rewrite map_map. simpl.
        now rewrite map_id. }
      rewrite H1, H2. rewrite set_add_absent by assumption.
      unfold Spec.tabulate. rewrite map_app. cbn [map]. f_equal.
      * apply map_ext_in. intros k Hk. f_equal. rewrite members64_snoc.
        destruct (String.eqb (group_key x) k) eqn:E; [| now rewrite app_nil_r].
        apply String.eqb_eq in E. subst k. contradiction.
      * do 2 f_equal. rewrite members64_snoc, String.eqb_refl.
        rewrite members64_undiscovered by assumption. reflexivity.
Qed.

Lemma group_of64_fields (ms : list Fragment.t) :
  Group.candidates (group_of ms) = ms
  /\ Group.totalEntropy (group_of ms) = entropy_sum ms
  /\ Group.agents (group_of ms)
     = Spec.distinct string_dec (map Fragment.agentId ms)
  /\ Group.rounds (group_of ms)
     = Spec.distinct Nat.eq_dec (map Fragment.round ms)
  /\ Group.root_candidate (group_of ms) = root_of ms.
Proof.
  induction ms as [| x ms IH] using rev_ind.
  - repeat split.
  - destruct IH as (H1 & H2 & H3 & H4 & H5).
    rewrite group_of64_snoc. unfold extend.
    cbn [Group.candidates Group.totalEntropy Group.agents Group.rounds
         Group.root_candidate].
    rewrite H1, H2, H3, H4, H5.
    unfold entropy_sum, root_of.
    rewrite !map_app. cbn [map].
    rewrite !distinct_snoc, !fold_left_app. repeat split.
Qed.

Lemma root_of64_nonempty (ms : list Fragment.t) :
  ms <> [] -> exists r, root_of ms = Some r.
Proof.
  destruct ms as [| x ms] using rev_ind; [now intros [] | intros _].
  unfold root_of. rewrite fold_left_app. cbn [fold_left]. unfold track_root.
  destruct (fold_left _ ms None) as [r |]; [| now eexists].
  destruct (Fragment.entropy r <? Fragment.entropy x)%float; now eexists.
Qed.

Lemma score_loop64_tabulated (fs : list Fragment.t) (ks : list string)
  (acc : list ScoredGroup.t) :
  (forall k, In k ks -> members k fs <> []) ->
  score_loop (Spec.tabulate (fun k => group_of (members k fs)) ks) acc =
  Ok (acc ++ map (scored_of fs) ks).
Proof.
  revert acc. induction ks as [| k ks IH]; intros acc Hks.
  - simpl. now rewrite app_nil_r.
  - cbn [Spec.tabulate map score_loop].
    destruct (group_of64_fields (members k fs)) as (H1 & H2 & H3 & H4 & H5).
    rewrite H1, H2, H3, H4, H5.
    assert (Hne : members k fs <> []) by (apply Hks; now left).
    destruct (members k fs) as [| first rest] eqn:E; [now elim Hne |].
    cbn [List.length div Py.bind].
    destruct (root_of64_nonempty (first :: rest) Hne) as [r Hr].
    rewrite Hr. cbn [Assembler.subscript Py.bind].
    fold (Spec.tabulate (fun k => group_of (members k fs)) ks).
    rewrite IH by (intros k' Hk'; apply Hks; now right).
    rewrite <- app_assoc. cbn [app]. do 3 f_equal.
    unfold scored_of. rewrite E, Hr. reflexivity.
Qed.

(** The two loops as a function of the members per key. *)
Lemma scored_groups_spec (fs : list Fragment.t) :
  scored_groups fs = Ok (map (scored_of fs) (discovery_keys fs)).
Proof.
  unfold scored_groups. rewrite candidate_groups64_tabulated.
  rewrite score_loop64_tabulated
    by (intros k Hk; now apply discovery_keys64_members).
  reflexivity.
Qed.

#[local] Set Warnings "-inexact-float".

(** C1: every group that the loops assemble has the score
    [agentCount * 2 + roundCount * 1.5 + avgEntropy * 3], formed on
    binary64 numbers as line 145 forms it and rounded to three decimals by
    [round], for the number of distinct agent ids, the number of distinct
    round indices and the entropy sum over the number of fragments of the
    group; with 2 agents, 1 round and an average entropy of 3.2 the score
    is 15.1.  A decimal stands for the binary64 number nearest to it, as
    in the program. *)
Theorem group_score_formula (fs : list Fragment.t) :
  exists groups,
    scored_groups fs = Ok groups
    /\ map ScoredGroup.key groups = discovery_keys fs
    /\ forall g, In g groups ->
         let ms := members (ScoredGroup.key g) fs in
         let agentCount :=
           List.length (nodup string_dec (map Fragment.agentId ms)) in
         let roundCount :=
           List.length (nodup Nat.eq_dec (map Fragment.round ms)) in
         let avgEntropy :=
           (entropy_sum ms / of_nat (List.length ms))%float in
         ms <> []
         /\ ScoredGroup.agentCount g = agentCount
         /\ ScoredGroup.roundCount g = roundCount
         /\ ScoredGroup.avgEntropy g = round3 avgEntropy
         /\ ScoredGroup.score g =
            round3 (of_nat (agentCount * 2) + of_nat roundCount * 1.5
                    + avgEntropy * 3)%float
         /\ (agentCount = 2 -> roundCount = 1 -> avgEntropy = 3.2%float ->
             ScoredGroup.score g = 15.1%float).
Proof.
  eexists. split; [apply scored_groups_spec |].
  split; [rewrite map_map; apply map_id |].
  intros g Hg. apply in_map_iff in Hg. destruct Hg as (k & <- & Hk).
  cbn [scored_of ScoredGroup.key ScoredGroup.agentCount
       ScoredGroup.roundCount ScoredGroup.avgEntropy ScoredGroup.score].
  cbv zeta. rewrite !distinct_length.
  split; [now apply discovery_keys64_members |].
  split; [reflexivity |]. split; [reflexivity |]. split; [reflexivity |].
  split; [reflexivity |].
  intros Ha Hr He. unfold raw_score. rewrite Ha, Hr, He.
  vm_compute. reflexivity.
Qed.

(** Two agents agree on [x=1] in one round: with the entropies 3.2 and
    3.2 the score is 15.1; with 3.2 and 3.201 the average is the binary64
    number just below 3.2005 and the score is 15.101. *)
Lemma group_score_formula_witness :
  (exists groups g,
     scored_groups
       [sample_fragment "agent-0" 3.2; sample_fragment "agent-1" 3.2]
     = Ok groups
     /\ In g groups
     /\ ScoredGroup.key g = "x=1"%string
     /\ ScoredGroup.agentCount g = 2
     /\ ScoredGroup.roundCount g = 1
     /\ ScoredGroup.score g = 15.1%float)
  /\ (exists groups g,
        scored_groups
          [sample_fragment "agent-0" 3.2; sample_fragment "agent-1" 3.201]
        = Ok groups
        /\ In g groups
        /\ ScoredGroup.avgEntropy g = 3.2%float
        /\ ScoredGroup.score g = 15.101%float).
Proof.
  split.
  - set (fs := [sample_fragment "agent-0" 3.2; sample_fragment "agent-1" 3.2]).
    destruct (group_score_formula fs) as (groups & E & Hkeys & H).
    assert (Hin : In (scored_of fs "x=1") groups).
    { rewrite scored_groups_spec in E. injection E as <-. now left. }
    exists groups, (scored_of fs "x=1").
    destruct (H _ Hin) as (_ & Ha & Hr & _ & _ & H15).
    split; [exact E |]. split; [exact Hin |]. split; [reflexivity |].
    split; [exact Ha |]. split; [exact Hr |].
    apply H15; vm_compute; reflexivity.
  - set (fs := [sample_fragment "agent-0" 3.2; sample_fragment "agent-1" 3.201]).
    destruct (group_score_formula fs) as (groups & E & Hkeys & H).
    assert (Hin : In (scored_of fs "x=1") groups).
    { rewrite scored_groups_spec in E. injection E as <-. now left. }
    exists groups, (scored_of fs "x=1").
    destruct (H _ Hin) as (_ & _ & _ & Havg & Hscore & _).
    split; [exact E |]. split; [exact Hin |].
    split; [rewrite Havg | rewrite Hscore]; vm_compute; reflexivity.
Defined.

End Binary64Facts.

(* ------------------------------------------------------------------ *)
(** ** AgentOrchestrator *)

Module OrchestratorFacts.
Import Spec.

Lemma to_uint_nonnil (n : nat) : Nat.to_uint n <> Decimal.Nil.
Proof.
  pose proof (DecimalNat.Unsigned.to_of (Nat.to_uint n)) as H.
  rewrite DecimalNat.Unsigned.of_to in H. rewrite H.
  apply DecimalFacts.unorm_nonnil.
Qed.

Lemma str_of_nat_inj (n m : nat) : str_of_nat n = str_of_nat m -> n = m.
Proof.
  unfold str_of_nat. intros H.
  apply (f_equal DecimalString.NilZero.uint_of_string) in H.
  rewrite !DecimalString.NilZero.usu in H by apply to_uint_nonnil.
  injection H as H. now apply DecimalNat.Unsigned.to_uint_inj.
Qed.

Lemma agent_name_inj (i j : nat) : agent_name i = agent_name j -> i = j.
Proof.
  unfold agent_name. cbn [String.append]. intros H.
  injection H as H. now apply str_of_nat_inj.
Qed.

Lemma map_flat_map (A B C : Type) (f : B -> C) (g : A -> list B) (l : list A) :
  map f (flat_map g l) = flat_map (fun x => map f (g x)) l.
Proof.
  induction l as [| a l IH]; [reflexivity |].
  cbn [flat_map]. now rewrite map_app, IH.
Qed.

Lemma length_flat_map_const (A B : Type) (g : A -> list B) (n : nat) (l : list A) :
  (forall a, List.length (g a) = n) ->
  List.length (flat_map g l) = List.length l * n.
Proof.
  intros Hg. induction l as [| a l IH]; [reflexivity |].
  cbn [flat_map List.length]. rewrite length_app, Hg, IH. lia.
Qed.

Section Run.
Variable sha256 : string -> string.
Variable time_time : string.
Variable random_random : nat -> string.
Variable requests_post : Payload.t -> Reply.t.
Variable data : Request.t.

Local Abbreviation agent_turn :=
  (Orchestrator.agent_turn sha256 time_time requests_post data).
Local Abbreviation for_agents :=
  (Orchestrator.for_agents sha256 time_time requests_post data).
Local Abbreviation for_rounds :=
  (Orchestrator.for_rounds sha256 time_time requests_post data).
Local Abbreviation orchestration_rounds :=
  (Orchestrator.orchestration_rounds sha256 time_time random_random
     requests_post data).
Local Abbreviation orchestrate :=
  (Orchestrator.orchestrate sha256 time_time random_random requests_post
     (Body.Object data)).
Local Abbreviation genesis_hash := (Orchestrator.genesis_hash sha256 time_time data).
Local Abbreviation agent_at := (Spec.agent_at sha256 time_time random_random data).
Local Abbreviation origin_before :=
  (Spec.origin_before sha256 time_time random_random data).
Local Abbreviation fragment_at :=
  (Spec.fragment_at sha256 time_time random_random requests_post data).
Local Abbreviation fragments_of :=
  (Spec.fragments_of sha256 time_time random_random requests_post data).
Local Abbreviation readable_at := (Spec.readable_at requests_post data).
Local Abbreviation replies_readable :=
  (Spec.replies_readable requests_post data).
Local Abbreviation first_unreadable :=
  (Spec.first_unreadable requests_post data).

(** A call with a readable reply returns, whatever the origin of the
    agent. *)
Lemma perform_fractal_reasoning_readable (r c i : nat) (origin : string) :
  readable_at r c i = true ->
  exists result,
    Orchestrator.perform_fractal_reasoning requests_post (agent_name i)
      (model_at c) (Request.prompt data) (Request.codeContext data) r origin
      (Request.fileType data) (Request.reasoningDepth data) = Ok result.
Proof.
  unfold Spec.readable_at, Spec.reply_at,
    Orchestrator.perform_fractal_reasoning.
  destruct (requests_post _); intros H; [now eexists | now eexists |].
  discriminate.
Qed.

Lemma perform_fractal_reasoning_unreadable (r c i : nat) (origin : string) :
  readable_at r c i = false ->
  Orchestrator.perform_fractal_reasoning requests_post (agent_name i)
    (model_at c) (Request.prompt data) (Request.codeContext data) r origin
    (Request.fileType data) (Request.reasoningDepth data)
  = Raise AttributeError.
Proof.
  unfold Spec.readable_at, Spec.reply_at,
    Orchestrator.perform_fractal_reasoning.
  destruct (requests_post _); intros H; try discriminate. reflexivity.
Qed.

Lemma agent_turn_spec (r c i : nat) :
  readable_at r c i = true ->
  agent_turn r (agent_at r i) c =
  (Ok (agent_at (S r) i, fragment_at r c i), c + 1).
Proof.
  intros Hread.
  unfold Orchestrator.agent_turn, Global.bind.
  rewrite RotatorFacts.get_next_model_nth by discriminate.
  unfold Global.lift, Global.ret.
  cbn [Agent.id Agent.origin Spec.agent_at].
  change (nth (c mod List.length Config.OLLAMA_MODELS) Config.OLLAMA_MODELS
            EmptyString) with (model_at c).
  destruct (perform_fractal_reasoning_readable r c i (origin_before i r) Hread)
    as [result Eresult].
  unfold Spec.fragment_at, Spec.candidate_at. rewrite Eresult.
  destruct (EntropyFacts.calculate_entropy_total
              (sha256 (origin_before i r ++ genesis_hash ++ str_of_nat r)))
    as [h Eh].
  rewrite Eh. unfold Spec.entropy_of.
  cbn [Spec.origin_before]. unfold Spec.genesis. rewrite Eh.
  reflexivity.
Qed.

(** An unreadable reply ends the turn with the exception; the rotator has
    advanced. *)
Lemma agent_turn_abort (r c i : nat) :
  readable_at r c i = false ->
  agent_turn r (agent_at r i) c = (Raise AttributeError, c + 1).
Proof.
  intros Hread.
  unfold Orchestrator.agent_turn, Global.bind.
  rewrite RotatorFacts.get_next_model_nth by discriminate.
  unfold Global.lift.
  cbn [Agent.id Agent.origin Spec.agent_at].
  change (nth (c mod List.length Config.OLLAMA_MODELS) Config.OLLAMA_MODELS
            EmptyString) with (model_at c).
  now rewrite (perform_fractal_reasoning_unreadable r c i _ Hread).
Qed.

Lemma for_agents_spec (r n i0 c : nat) (frs : list Fragment.t) :
  (forall j, j < n -> readable_at r (c + j) (i0 + j) = true) ->
  for_agents r (map (agent_at r) (seq i0 n)) frs c =
  (Ok (map (agent_at (S r)) (seq i0 n),
       frs ++ map (fun j => fragment_at r (c + j) (i0 + j)) (seq 0 n)),
   c + n).
Proof.
  revert i0 c frs. induction n as [| n IH]; intros i0 c frs Hread.
  - cbn. unfold Global.ret. now rewrite app_nil_r, Nat.add_0_r.
  - cbn [seq map Orchestrator.for_agents]. unfold Global.bind at 1.
    rewrite agent_turn_spec
      by (specialize (Hread 0); rewrite !Nat.add_0_r in Hread;
          apply Hread; lia).
    cbn [fst snd].
    unfold Global.bind at 1. rewrite IH.
    + unfold Global.ret. cbn [fst snd].
      f_equal; [| lia]. f_equal. f_equal.
      rewrite <- app_assoc. cbn [app]. rewrite !Nat.add_0_r. do 2 f_equal.
      rewrite <- seq_shift, map_map. apply map_ext.
      intros j. f_equal; lia.
    + intros j Hj.
      replace (c + 1 + j) with (c + S j) by lia.
      replace (S i0 + j) with (i0 + S j) by lia.
      apply Hread. lia.
Qed.

(** The first unreadable reply of a round ends the loop over the agents. *)
Lemma for_agents_abort (r n : nat) :
  forall i0 c frs j,
    j < n ->
    (forall j', j' < j -> readable_at r (c + j') (i0 + j') = true) ->
    readable_at r (c + j) (i0 + j) = false ->
    for_agents r (map (agent_at r) (seq i0 n)) frs c =
    (Raise AttributeError, c + j + 1).
Proof.
  induction n as [| n IH]; intros i0 c frs j Hj Hbefore Hread; [lia |].
  cbn [seq map Orchestrator.for_agents]. unfold Global.bind at 1.
  destruct j as [| j].
  - rewrite !Nat.add_0_r in Hread. rewrite agent_turn_abort by exact Hread.
    f_equal. lia.
  - rewrite agent_turn_spec
      by (specialize (Hbefore 0); rewrite !Nat.add_0_r in Hbefore;
          apply Hbefore; lia).
    cbn [fst snd]. unfold Global.bind at 1.
    rewrite (IH (S i0) (c + 1) _ j).
    + f_equal. lia.
    + lia.
    + intros j' Hj'.
      replace (c + 1 + j') with (c + S j') by lia.
      replace (S i0 + j') with (i0 + S j') by lia.
      apply Hbefore. lia.
    + replace (c + 1 + j) with (c + S j) by lia.
      replace (S i0 + j) with (i0 + S j) by lia.
      exact Hread.
Qed.

Lemma fragments_of_succ (n r0 m c : nat) :
  fragments_of n r0 (S m) c =
  map (fun i => fragment_at r0 (c + i) i) (seq 0 n)
  ++ fragments_of n (S r0) m (c + n).
Proof.
  unfold Spec.fragments_of. cbn [seq flat_map]. f_equal.
  - apply map_ext. intros i. f_equal; lia.
  - rewrite <- seq_shift, flat_map_concat_map, map_map,
      <- flat_map_concat_map.
    apply flat_map_ext. intros k. apply map_ext. intros i. f_equal; lia.
Qed.

Lemma for_rounds_spec (n m r0 c : nat) (frs : list Fragment.t) :
  (forall k j, k < m -> j < n ->
     readable_at (r0 + k) (c + k * n + j) j = true) ->
  for_rounds (seq r0 m) (map (agent_at r0) (seq 0 n)) frs c =
  (Ok (map (agent_at (r0 + m)) (seq 0 n), frs ++ fragments_of n r0 m c),
   c + m * n).
Proof.
  revert r0 c frs. induction m as [| m IH]; intros r0 c frs Hread.
  - cbn. unfold Global.ret. now rewrite app_nil_r, !Nat.add_0_r.
  - cbn [seq Orchestrator.for_rounds]. unfold Global.bind.
    rewrite for_agents_spec.
    + cbn [fst snd]. rewrite IH.
      * rewrite fragments_of_succ, <- app_assoc.
        replace (S r0 + m) with (r0 + S m) by lia.
        replace (c + n + m * n) with (c + S m * n) by lia.
        reflexivity.
      * intros k j Hk Hj.
        replace (S r0 + k) with (r0 + S k) by lia.
        replace (c + n + k * n + j) with (c + S k * n + j) by lia.
        apply Hread; lia.
    + intros j Hj. specialize (Hread 0 j).
      rewrite Nat.add_0_r in Hread. cbn [Nat.mul] in Hread.
      rewrite Nat.add_0_r in Hread. cbn [Nat.add]. apply Hread; lia.
Qed.

(** The first unreadable reply of a run ends the loop over the rounds; the
    rotator has advanced by one for every call made. *)
Lemma for_rounds_abort (n m : nat) :
  forall r0 c frs k j,
    k < m -> j < n ->
    (forall k' j', k' < m -> j' < n -> k' * n + j' < k * n + j ->
       readable_at (r0 + k') (c + k' * n + j') j' = true) ->
    readable_at (r0 + k) (c + k * n + j) j = false ->
    for_rounds (seq r0 m) (map (agent_at r0) (seq 0 n)) frs c =
    (Raise AttributeError, c + k * n + j + 1).
Proof.
  induction m as [| m IH]; intros r0 c frs k j Hk Hj Hbefore Hread; [lia |].
  cbn [seq Orchestrator.for_rounds]. unfold Global.bind.
  destruct k as [| k].
  - rewrite Nat.add_0_r in Hread. cbn [Nat.mul] in Hread.
    rewrite Nat.add_0_r in Hread.
    rewrite (for_agents_abort r0 n 0 c frs j Hj).
    + f_equal. cbn [Nat.mul]. lia.
    + intros j' Hj'. specialize (Hbefore 0 j').
      rewrite Nat.add_0_r in Hbefore. cbn [Nat.mul] in Hbefore.
      rewrite Nat.add_0_r in Hbefore. cbn [Nat.add].
      apply Hbefore; cbn; lia.
    + exact Hread.
  - rewrite for_agents_spec.
    + cbn [fst snd]. rewrite (IH (S r0) (c + n) _ k j).
      * f_equal. cbn [Nat.mul]. lia.
      * lia.
      * exact Hj.
      * intros k' j' Hk' Hj' Hlt.
        replace (S r0 + k') with (r0 + S k') by lia.
        replace (c + n + k' * n + j') with (c + S k' * n + j') by (cbn; lia).
        apply Hbefore; [lia | exact Hj' | cbn [Nat.mul]; lia].
      * replace (S r0 + k) with (r0 + S k) by lia.
        replace (c + n + k * n + j) with (c + S k * n + j) by (cbn; lia).
        exact Hread.
    + intros j' Hj'. specialize (Hbefore 0 j').
      rewrite Nat.add_0_r in Hbefore. cbn [Nat.mul] in Hbefore.
      rewrite Nat.add_0_r in Hbefore. cbn [Nat.add].
      apply Hbefore; [lia | exact Hj' | cbn [Nat.mul]; lia].
Qed.

(** The loops of [orchestrate] on integer parameters, when every reply is
    readable. *)
Lemma orchestration_rounds_spec (a m : Z) (c : nat) :
  Request.agentCount data = Json.Int a ->
  Request.maxRounds data = Json.Int m ->
  replies_readable (Z.to_nat a) (Z.to_nat m) c ->
  orchestration_rounds c =
  (Ok (map (agent_at (Z.to_nat m)) (seq 0 (Z.to_nat a)),
       fragments_of (Z.to_nat a) 0 (Z.to_nat m) c),
   c + Z.to_nat m * Z.to_nat a).
Proof.
  intros Ha Hm Hread. unfold Orchestrator.orchestration_rounds.
  rewrite Ha, Hm. unfold Global.bind, Global.lift. cbn [Json.range].
  change (map (Orchestrator.new_agent sha256 time_time random_random data)
            (seq 0 (Z.to_nat a)))
    with (map (agent_at 0) (seq 0 (Z.to_nat a))).
  rewrite for_rounds_spec; [reflexivity |].
  intros k j Hk Hj. cbn [Nat.add]. now apply Hread.
Qed.

(** The loops of [orchestrate] on integer parameters, when some reply is
    unreadable: the exception leaves the loops at the first such reply. *)
Lemma orchestration_rounds_abort (a m : Z) (c r i : nat) :
  Request.agentCount data = Json.Int a ->
  Request.maxRounds data = Json.Int m ->
  first_unreadable (Z.to_nat a) (Z.to_nat m) c r i ->
  orchestration_rounds c =
  (Raise AttributeError, c + r * Z.to_nat a + i + 1).
Proof.
  intros Ha Hm (Hr & Hi & Hread & Hbefore).
  unfold Orchestrator.orchestration_rounds.
  rewrite Ha, Hm. unfold Global.bind, Global.lift. cbn [Json.range].
  change (map (Orchestrator.new_agent sha256 time_time random_random data)
            (seq 0 (Z.to_nat a)))
    with (map (agent_at 0) (seq 0 (Z.to_nat a))).
  now apply for_rounds_abort.
Qed.

(** The endpoint on an object. *)
Lemma orchestrate_object (c : nat) :
  orchestrate c =
  match
    Orchestrator.consensus_of_request sha256 time_time random_random
      requests_post data c
  with
  | (Ok consensus, idx) => (Response.Success consensus, idx)
  | (Raise _, idx) => (Response.Error 500, idx)
  end.
Proof. reflexivity. Qed.

(** Either every reply of a run is readable or one of them is the first
    that is not. *)
Lemma readable_or_first_unreadable (n m c : nat) :
  replies_readable n m c \/ exists r i, first_unreadable n m c r i.
Proof.
  assert (Hsearch : forall K,
    (forall r i, r < m -> i < n -> r * n + i < K ->
       readable_at r (c + r * n + i) i = true)
    \/ exists r i, first_unreadable n m c r i).
  { induction K as [| K [IH | IH]]; [left; intros; lia | | now right].
    destruct (Nat.eq_dec n 0) as [-> | Hn]; [left; intros; lia |].
    destruct (Nat.lt_ge_cases (K / n) m) as [Hr | Hr].
    - assert (Hi : K mod n < n) by now apply Nat.mod_upper_bound.
      assert (EK : K / n * n + K mod n = K).
      { rewrite Nat.mul_comm. symmetry. apply Nat.div_mod_eq. }
      destruct (readable_at (K / n) (c + K / n * n + K mod n) (K mod n))
        eqn:E.
      + left. intros r i Hr' Hi' Hlt.
        destruct (Nat.eq_dec (r * n + i) K) as [EQ | NE].
        * assert (r = K / n).
          { apply (Nat.div_unique K n r i); lia. }
          assert (i = K mod n).
          { apply (Nat.mod_unique K n r i); lia. }
          subst r i. exact E.
        * apply IH; lia.
      + right. exists (K / n), (K mod n).
        split; [exact Hr |]. split; [exact Hi |]. split; [exact E |].
        intros r' i' Hr' Hi' Hlt. apply IH; lia.
    - left. intros r i Hr' Hi' Hlt.
      destruct (Nat.eq_dec (r * n + i) K) as [EQ | NE]; [| apply IH; lia].
      exfalso. assert (r = K / n) by (apply (Nat.div_unique K n r i); lia).
      lia. }
  destruct (Hsearch (m * n)) as [H | H]; [left | now right].
  intros r i Hr Hi. apply H; [exact Hr | exact Hi |]. nia.
Qed.

(** With integer parameters the loops return the agents and the fragments
    exactly when no reply of the run is unreadable. *)
Lemma orchestration_rounds_returns_iff (a m : Z) (c : nat) :
  Request.agentCount data = Json.Int a ->
  Request.maxRounds data = Json.Int m ->
  replies_readable (Z.to_nat a) (Z.to_nat m) c <->
  exists res c', orchestration_rounds c = (Ok res, c').
Proof.
  intros Ha Hm. split.
  - intros Hread. eexists _, _.
    now apply (orchestration_rounds_spec a m).
  - intros (res & c' & Hrun).
    destruct (readable_or_first_unreadable (Z.to_nat a) (Z.to_nat m) c)
      as [H | (r & i & H)]; [exact H |].
    rewrite (orchestration_rounds_abort a m c r i Ha Hm H) in Hrun.
    discriminate.
Qed.

Lemma fragments_of_length (n r0 m c : nat) :
  List.length (fragments_of n r0 m c) = m * n.
Proof.
  unfold Spec.fragments_of.
  rewrite (length_flat_map_const _ _ _ n).
  - now rewrite length_seq.
  - intros k. now rewrite length_map, length_seq.
Qed.

Lemma fragments_of_nth (n m r i : nat) :
  forall r0 c, i < n -> r < m ->
  nth_error (fragments_of n r0 m c) (r * n + i) =
  Some (fragment_at (r0 + r) (c + r * n + i) i).
Proof.
  revert r. induction m as [| m IH]; intros r r0 c Hi Hr; [lia |].
  rewrite fragments_of_succ. destruct r as [| r].
  - rewrite nth_error_app1 by (rewrite length_map, length_seq; lia).
    cbn [Nat.mul Nat.add].
    rewrite nth_error_map, nth_error_seq.
    destruct (Nat.ltb_spec i n) as [_ | H]; [| lia].
    cbn [option_map]. do 2 f_equal; lia.
  - rewrite nth_error_app2 by (rewrite length_map, length_seq; lia).
    rewrite length_map, length_seq.
    replace (S r * n + i - n) with (r * n + i) by lia.
    rewrite IH by lia. do 2 f_equal; lia.
Qed.

Lemma fragments_of_slots (n m c : nat) :
  map slot_of (fragments_of n 0 m c) = slots n m.
Proof.
  unfold Spec.fragments_of, slots. rewrite map_flat_map.
  apply flat_map_ext. intros k. rewrite map_map. apply map_ext.
  intros i. reflexivity.
Qed.

End Run.

Lemma slots_NoDup (n m : nat) : NoDup (slots n m).
Proof.
  unfold slots. induction m as [| m IH]; [constructor |].
  rewrite seq_S, flat_map_app. cbn [flat_map Nat.add]. rewrite app_nil_r.
  apply NoDup_app.
  - exact IH.
  - apply Finite.Injective_map_NoDup_in; [| apply seq_NoDup].
    intros i j _ _ H. apply (f_equal fst) in H. now apply agent_name_inj.
  - intros [id r] H1 H2.
    apply in_flat_map in H1. destruct H1 as (r' & Hr' & H1).
    apply in_seq in Hr'. apply in_map_iff in H1. destruct H1 as (i & E1 & _).
    apply in_map_iff in H2. destruct H2 as (j & E2 & _).
    injection E1 as _ E1. injection E2 as _ E2. lia.
Qed.

Section RunProperties.
Variable sha256 : string -> string.
Variable time_time : string.
Variable random_random : nat -> string.
Variable requests_post : Payload.t -> Reply.t.
Variable data : Request.t.

Local Abbreviation agent_turn :=
  (Orchestrator.agent_turn sha256 time_time requests_post data).
Local Abbreviation for_agents :=
  (Orchestrator.for_agents sha256 time_time requests_post data).
Local Abbreviation for_rounds :=
  (Orchestrator.for_rounds sha256 time_time requests_post data).
Local Abbreviation orchestration_rounds :=
  (Orchestrator.orchestration_rounds sha256 time_time random_random
     requests_post data).
Local Abbreviation orchestrate :=
  (Orchestrator.orchestrate sha256 time_time random_random requests_post
     (Body.Object data)).
Local Abbreviation genesis_hash := (Orchestrator.genesis_hash sha256 time_time data).
Local Abbreviation new_agent :=
  (Orchestrator.new_agent sha256 time_time random_random data).
Local Abbreviation agent_at := (Spec.agent_at sha256 time_time random_random data).
Local Abbreviation origin_before :=
  (Spec.origin_before sha256 time_time random_random data).
Local Abbreviation fragment_at :=
  (Spec.fragment_at sha256 time_time random_random requests_post data).
Local Abbreviation fragments_of :=
  (Spec.fragments_of sha256 time_time random_random requests_post data).
Local Abbreviation replies_readable :=
  (Spec.replies_readable requests_post data).
Local Abbreviation first_unreadable :=
  (Spec.first_unreadable requests_post data).

Lemma for_agents_appends (r : nat) (ags : list Agent.t) :
  forall frs c res c',
    for_agents r ags frs c = (Ok res, c') ->
    exists appended, snd res = frs ++ appended.
Proof.
  induction ags as [| ag ags IH]; intros frs c res c' H.
  - cbn in H. unfold Global.ret in H. injection H as <- _.
    exists []. cbn [snd]. now rewrite app_nil_r.
  - cbn [Orchestrator.for_agents] in H. unfold Global.bind in H.
    destruct (agent_turn r ag c) as [[af | e] c1]; [| discriminate].
    destruct (for_agents r ags (frs ++ [snd af]) c1) as [[res' | e] c2] eqn:E;
      [| discriminate].
    unfold Global.ret in H. injection H as <- _.
    destruct (IH _ _ _ _ E) as [appended Happ].
    exists (snd af :: appended). cbn [snd].
    rewrite Happ, <- app_assoc. reflexivity.
Qed.

Lemma for_rounds_appends (rs : list nat) :
  forall ags frs c res c',
    for_rounds rs ags frs c = (Ok res, c') ->
    exists appended, snd res = frs ++ appended.
Proof.
  induction rs as [| r rs IH]; intros ags frs c res c' H.
  - cbn in H. unfold Global.ret in H. injection H as <- _.
    exists []. cbn [snd]. now rewrite app_nil_r.
  - cbn [Orchestrator.for_rounds] in H. unfold Global.bind in H.
    destruct (for_agents r ags frs c) as [[af | e] c1] eqn:E; [| discriminate].
    destruct (for_agents_appends _ _ _ _ _ _ E) as [app1 H1].
    destruct (IH _ _ _ _ _ H) as [app2 H2].
    exists (app1 ++ app2). rewrite H2, H1, <- app_assoc. reflexivity.
Qed.

(** C8: with non-negative integers [agentCount] and [maxRounds], the loops
    return their fragments only in a run in which no reply is unreadable (an
    unreadable reply ends the request), and in such a run they produce
    [agentCount * maxRounds] fragments, one for every pair of agent id and
    round index, in round-major order with the agents in creation order; the
    loops only append to the list of fragments, so a fragment stays as it
    was appended. *)
Theorem one_fragment_per_slot (a m : Z) (c : nat) :
  Request.agentCount data = Json.Int a ->
  Request.maxRounds data = Json.Int m ->
  (0 <= a)%Z -> (0 <= m)%Z ->
  (forall res c',
      orchestration_rounds c = (Ok res, c') ->
      replies_readable (Z.to_nat a) (Z.to_nat m) c)
  /\ (replies_readable (Z.to_nat a) (Z.to_nat m) c ->
      exists agents fragments c',
        orchestration_rounds c = (Ok (agents, fragments), c')
        /\ Z.of_nat (List.length fragments) = (a * m)%Z
        /\ map slot_of fragments = slots (Z.to_nat a) (Z.to_nat m)
        /\ NoDup (map slot_of fragments)
        /\ (forall i r, i < Z.to_nat a -> r < Z.to_nat m ->
              exists f,
                nth_error fragments (r * Z.to_nat a + i) = Some f
                /\ Fragment.agentId f = agent_name i /\ Fragment.round f = r)
        /\ (forall r ags frs c1 res c2,
              for_agents r ags frs c1 = (Ok res, c2) ->
              exists appended, snd res = frs ++ appended)
        /\ (forall rs ags frs c1 res c2,
              for_rounds rs ags frs c1 = (Ok res, c2) ->
              exists appended, snd res = frs ++ appended)).
Proof.
  intros Ha Hm Ha0 Hm0. split.
  { intros res c' Hrun.
    apply (orchestration_rounds_returns_iff sha256 time_time random_random
             requests_post data a m c Ha Hm).
    now exists res, c'. }
  intros Hread.
  eexists _, _, _. split; [now apply (orchestration_rounds_spec _ _ _ _ _ a m) |].
  split; [| split; [| split; [| split; [| split]]]].
  - rewrite fragments_of_length. lia.
  - apply fragments_of_slots.
  - rewrite fragments_of_slots. apply slots_NoDup.
  - intros i r Hi Hr. eexists. split; [now apply fragments_of_nth |].
    split; reflexivity.
  - intros r ags. apply for_agents_appends.
  - intros rs. apply for_rounds_appends.
Qed.

(** C2: the rounds return their agents and fragments only in a run in
    which no reply is unreadable, and in every round [r] of such a run the
    origin of an agent becomes the digest of its previous origin, the
    genesis hash and [r], and the fragment of that agent and round stores
    the new origin. *)
Theorem origin_hash_chain (a m : Z) (c : nat) :
  Request.agentCount data = Json.Int a ->
  Request.maxRounds data = Json.Int m ->
  (forall res c',
      orchestration_rounds c = (Ok res, c') ->
      replies_readable (Z.to_nat a) (Z.to_nat m) c)
  /\ (replies_readable (Z.to_nat a) (Z.to_nat m) c ->
      exists agents fragments c',
        orchestration_rounds c = (Ok (agents, fragments), c')
        /\ forall i r, i < Z.to_nat a -> r < Z.to_nat m ->
             exists f before after frs1 frs2 c1 c2 previous,
               nth_error fragments (r * Z.to_nat a + i) = Some f
               /\ Fragment.agentId f = agent_name i /\ Fragment.round f = r
               /\ for_rounds (seq 0 r) (map new_agent (seq 0 (Z.to_nat a))) [] c
                  = (Ok (before, frs1), c1)
               /\ for_rounds (seq 0 (S r)) (map new_agent (seq 0 (Z.to_nat a)))
                    [] c
                  = (Ok (after, frs2), c2)
               /\ nth_error before i = Some (Agent.mk (agent_name i) previous)
               /\ nth_error after i =
                  Some (Agent.mk (agent_name i)
                          (sha256 (previous ++ genesis_hash ++ str_of_nat r)))
               /\ Fragment.origin f =
                  sha256 (previous ++ genesis_hash ++ str_of_nat r)
               /\ previous =
                  match r with
                  | 0 =>
                      sha256 (genesis_hash ++ agent_name i ++ random_random i)
                  | S r' =>
                      match nth_error fragments (r' * Z.to_nat a + i) with
                      | Some f' => Fragment.origin f'
                      | None => EmptyString
                      end
                  end).
Proof.
  intros Ha Hm. split.
  { intros res c' Hrun.
    apply (orchestration_rounds_returns_iff sha256 time_time random_random
             requests_post data a m c Ha Hm).
    now exists res, c'. }
  intros Hread.
  eexists _, _, _. split; [now apply (orchestration_rounds_spec _ _ _ _ _ a m) |].
  intros i r Hi Hr.
  change (map new_agent (seq 0 (Z.to_nat a)))
    with (map (agent_at 0) (seq 0 (Z.to_nat a))).
  exists (fragment_at (0 + r) (c + r * Z.to_nat a + i) i).
  eexists _, _, _, _, _, _, (origin_before i r).
  split; [now apply fragments_of_nth |].
  split; [reflexivity |]. split; [reflexivity |].
  split; [apply for_rounds_spec; intros k j Hk Hj; apply Hread; lia |].
  split; [apply for_rounds_spec; intros k j Hk Hj; apply Hread; lia |].
  assert (Hnth : forall k, nth_error (map (agent_at k) (seq 0 (Z.to_nat a))) i
                           = Some (agent_at k i)).
  { intros k. rewrite nth_error_map, nth_error_seq.
    destruct (Nat.ltb_spec i (Z.to_nat a)) as [_ | H]; [reflexivity | lia]. }
  split; [apply Hnth |]. split; [apply Hnth |].
  split; [reflexivity |].
  destruct r as [| r']; [reflexivity |].
  rewrite fragments_of_nth by lia. reflexivity.
Qed.

Lemma perform_fractal_reasoning_failed
  (agent_id model prompt context : string) (round_num : nat)
  (origin file_type : string) (reasoning_depth : nat) (e : string) :
  requests_post
    (Orchestrator.payload agent_id model prompt context round_num file_type
       reasoning_depth) = Reply.Failed e ->
  Orchestrator.perform_fractal_reasoning requests_post agent_id model prompt
    context round_num origin file_type reasoning_depth =
  Ok (Outcome.mk (placeholder agent_id e) model false).
Proof.
  intros H. unfold Orchestrator.perform_fractal_reasoning. now rewrite H.
Qed.

(** The candidate of a slot whose call failed with [e]. *)
Lemma candidate_at_failed (r c i : nat) (e : string) :
  Spec.reply_at requests_post data r c i = Reply.Failed e ->
  Spec.candidate_at sha256 time_time random_random requests_post data r c i
  = placeholder (agent_name i) e.
Proof.
  intros H. unfold Spec.candidate_at.
  now rewrite (perform_fractal_reasoning_failed _ _ _ _ _ _ _ _ _ H).
Qed.

(** C5 (as amended): a call that fails with a [RequestException] ends the
    turn of its agent normally, with a fragment whose candidate is the
    placeholder made of the agent id and the error message; and a run in
    which the calls fail in this way only (no reply is unreadable) is
    answered with a success: a fragment is recorded for every agent and
    round, with the placeholder where the call failed. *)
Theorem generation_failure_contained (a m : Z) (c : nat) :
  (forall round_num agent c0 e,
      requests_post
        (Orchestrator.payload (Agent.id agent) (model_at c0)
           (Request.prompt data) (Request.codeContext data) round_num
           (Request.fileType data) (Request.reasoningDepth data))
      = Reply.Failed e ->
      exists entropy,
        agent_turn round_num agent c0 =
        (Ok (Agent.mk (Agent.id agent)
               (sha256 (Agent.origin agent ++ genesis_hash
                        ++ str_of_nat round_num)),
             Fragment.mk (Agent.id agent)
               (sha256 (Agent.origin agent ++ genesis_hash
                        ++ str_of_nat round_num))
               round_num
               ("// Agent " ++ Agent.id agent
                ++ " failed to generate a response." ++ Text.nl
                ++ "// Error: Ollama connection error for agent "
                ++ Agent.id agent ++ ": " ++ e)
               entropy (model_at c0)),
         c0 + 1))
  /\ (Request.agentCount data = Json.Int a ->
      Request.maxRounds data = Json.Int m ->
      replies_readable (Z.to_nat a) (Z.to_nat m) c ->
      exists consensus agents fragments c',
        orchestrate c = (Response.Success consensus, c')
        /\ orchestration_rounds c = (Ok (agents, fragments), c')
        /\ List.length fragments = Z.to_nat m * Z.to_nat a
        /\ forall i r, i < Z.to_nat a -> r < Z.to_nat m ->
             exists f,
               nth_error fragments (r * Z.to_nat a + i) = Some f
               /\ Fragment.agentId f = agent_name i /\ Fragment.round f = r
               /\ forall e,
                    requests_post
                      (Orchestrator.payload (agent_name i) (Fragment.model f)
                         (Request.prompt data) (Request.codeContext data) r
                         (Request.fileType data) (Request.reasoningDepth data))
                    = Reply.Failed e ->
                    Fragment.candidate f =
                    ("// Agent " ++ agent_name i
                     ++ " failed to generate a response." ++ Text.nl
                     ++ "// Error: Ollama connection error for agent "
                     ++ agent_name i ++ ": " ++ e)%string).
Proof.
  split.
  - intros round_num agent c0 e He.
    destruct (EntropyFacts.calculate_entropy_total
                (sha256 (Agent.origin agent ++ genesis_hash
                         ++ str_of_nat round_num))) as [h Eh].
    exists h.
    unfold Orchestrator.agent_turn, Global.bind.
    rewrite RotatorFacts.get_next_model_nth by discriminate.
    unfold Global.lift, Global.ret.
    change (nth (c0 mod List.length Config.OLLAMA_MODELS)
              Config.OLLAMA_MODELS EmptyString) with (model_at c0).
    rewrite (perform_fractal_reasoning_failed _ _ _ _ _ _ _ _ _ He).
    cbn [Agent.id Agent.origin Outcome.candidate]. rewrite Eh.
    reflexivity.
  - intros Ha Hm Hread.
    pose proof (orchestration_rounds_spec sha256 time_time random_random
                  requests_post data a m c Ha Hm Hread) as Hrun.
    eexists _, _, _, _. split; [| split; [exact Hrun | split]].
    + rewrite orchestrate_object.
      unfold Orchestrator.consensus_of_request, Global.bind. rewrite Hrun.
      unfold Global.lift. cbn [snd].
      rewrite GroupFacts.assemble_final_answer_spec. reflexivity.
    + apply fragments_of_length.
    + intros i r Hi Hr. eexists. split; [now apply fragments_of_nth |].
      split; [reflexivity |]. split; [reflexivity |].
      intros e He. cbn [Spec.fragment_at Fragment.candidate Fragment.model] in *.
      now apply candidate_at_failed.
Qed.

(** A parameter that is no integer is a structural failure: the request is
    answered with the HTTP 500 error and the rotator is left untouched. *)
Lemma orchestrate_type_error (c : nat) :
  Request.agentCount data = Json.NotInt \/ Request.maxRounds data = Json.NotInt ->
  orchestrate c = (Response.Error 500, c).
Proof.
  intros H. rewrite orchestrate_object.
  unfold Orchestrator.consensus_of_request, Orchestrator.orchestration_rounds,
    Global.bind, Global.lift.
  destruct (Request.agentCount data) as [a |]; cbn [Json.range].
  - destruct H as [H | H]; [discriminate |]. now rewrite H.
  - reflexivity.
Qed.

End RunProperties.

(** C5 (as stated) fails: the call of the first agent gets a reply with a
    success status and the body [[]]; the request is answered with the
    HTTP 500 error, no fragment is returned, and the rotator has advanced
    by the one call. *)
Lemma unreadable_reply_surfaces :
  Orchestrator.orchestrate sample_digest sample_time sample_random
    malformed_service (Body.Object sample_request) 0
  = (Response.Error 500, 1)
  /\ Orchestrator.orchestration_rounds sample_digest sample_time
       sample_random malformed_service sample_request 0
     = (Raise AttributeError, 1).
Proof. split; reflexivity. Qed.

(** The sample run: two agents, one round. *)
Lemma one_fragment_per_slot_witness :
  exists agents fragments c',
    Orchestrator.orchestration_rounds sample_digest sample_time sample_random
      refusing_service sample_request 0 = (Ok (agents, fragments), c')
    /\ Z.of_nat (List.length fragments) = 2%Z
    /\ map slot_of fragments = [("agent-0", 0); ("agent-1", 0)]%string.
Proof.
  destruct (one_fragment_per_slot sample_digest sample_time sample_random
              refusing_service sample_request 2 1 0 eq_refl eq_refl)
    as [_ H]; [lia | lia |].
  destruct H as (agents & fragments & c' & Hrun & Hlen & Hslots & _);
    [intros r i _ _; reflexivity |].
  exists agents, fragments, c'. repeat split; assumption.
Defined.

Lemma origin_hash_chain_witness :
  exists agents fragments c' f,
    Orchestrator.orchestration_rounds sample_digest sample_time sample_random
      refusing_service sample_request 0 = (Ok (agents, fragments), c')
    /\ nth_error fragments 1 = Some f
    /\ Fragment.origin f =
       sample_digest
         (sample_digest
            (Orchestrator.genesis_hash sample_digest sample_time sample_request
             ++ "agent-1" ++ "0.5")
          ++ Orchestrator.genesis_hash sample_digest sample_time sample_request
          ++ "0")%string.
Proof.
  destruct (proj2 (origin_hash_chain sample_digest sample_time sample_random
                     refusing_service sample_request 2 1 0 eq_refl eq_refl))
    as (agents & fragments & c' & Hrun & H); [intros r i _ _; reflexivity |].
  destruct (H 1 0) as (f & _ & _ & _ & _ & _ & _ & previous & Hf & _ & _ & _
                       & _ & _ & _ & Ho & Hp); [cbn; lia | cbn; lia |].
  exists agents, fragments, c', f.
  split; [exact Hrun |]. split; [exact Hf |].
  rewrite Ho, Hp. reflexivity.
Defined.

Lemma generation_failure_contained_witness :
  exists consensus c' agents fragments f,
    Orchestrator.orchestrate sample_digest sample_time sample_random
      refusing_service (Body.Object sample_request) 0
    = (Response.Success consensus, c')
    /\ Orchestrator.orchestration_rounds sample_digest sample_time
         sample_random refusing_service sample_request 0
       = (Ok (agents, fragments), c')
    /\ List.length fragments = 2
    /\ nth_error fragments 1 = Some f
    /\ Fragment.candidate f = placeholder "agent-1" "connection refused".
Proof.
  destruct (proj2 (generation_failure_contained sample_digest sample_time
                     sample_random refusing_service sample_request 2 1 0)
              eq_refl eq_refl)
    as (consensus & agents & fragments & c' & Hok & Hrun & Hlen & H);
    [intros r i _ _; reflexivity |].
  destruct (H 1 0) as (f & Hf & _ & _ & Hc); [cbn; lia | cbn; lia |].
  exists consensus, c', agents, fragments, f.
  split; [exact Hok |]. split; [exact Hrun |]. split; [exact Hlen |].
  split; [exact Hf |]. exact (Hc _ eq_refl).
Defined.

End OrchestratorFacts.

(* ================================================================== *)
(** * Further properties *)

(* ------------------------------------------------------------------ *)
(** ** EntropyMeter: the frequency table and the result *)

Module EntropyLaws.
Import Entropy Spec.

Lemma round_half_even_lower (a : Z) (y : R) :
  (IZR a <= y)%R -> (a <= round_half_even y)%Z.
Proof.
  intros Ha. destruct (base_Int_part y) as [Hf1 Hf2].
  assert (Hlo : (a <= Int_part y)%Z).
  { apply Z.lt_succ_r. apply lt_IZR. rewrite succ_IZR. lra. }
  destruct (RoundFacts.round_half_even_cases y) as [E | [E _]]; rewrite E; lia.
Qed.

Lemma round3_nonneg (x : R) : (0 <= x)%R -> (0 <= round3 x)%R.
Proof.
  intros Hx. unfold round3.
  assert (H : (0 <= round_half_even (x * 1000))%Z)
    by (apply round_half_even_lower; lra).
  apply IZR_le in H. lra.
Qed.

Lemma calculate_entropy_nonneg (s : string) :
  exists h, calculate_entropy s = Ok h /\ (0 <= h)%R.
Proof.
  destruct (EntropyFacts.calculate_entropy_unrounded s) as (h & E & H0 & _).
  exists (round3 h). split; [exact E | now apply round3_nonneg].
Qed.

(** X1: the entropy function raises on no string: neither the division
    nor the logarithm fails.  Its result is not negative and has three
    decimals. *)
Theorem calculate_entropy_never_raises (s : string) :
  exists h,
    calculate_entropy s = Ok h /\ (0 <= h)%R
    /\ exists z : Z, h = (IZR z / 1000)%R.
Proof.
  destruct (EntropyFacts.calculate_entropy_unrounded s) as (h & E & H0 & _).
  exists (round3 h). split; [exact E |]. split; [now apply round3_nonneg |].
  now exists (round_half_even (h * 1000)).
Qed.

Lemma get_count_char (d : dict ascii nat) (x c : ascii) :
  get Ascii.eqb (count_char d x) c =
  if Ascii.eqb x c then Some (get_default Ascii.eqb d c 0 + 1)
  else get Ascii.eqb d c.
Proof.
  induction d as [| [k v] rest IH].
  - cbn. destruct (Ascii.eqb x c); reflexivity.
  - rewrite EntropyFacts.count_char_cons. unfold get_default in *.
    destruct (Ascii.eqb k x) eqn:Ekx.
    + apply Ascii.eqb_eq in Ekx. subst k. cbn [get].
      destruct (Ascii.eqb x c); reflexivity.
    + cbn [get]. rewrite IH.
      destruct (Ascii.eqb k c) eqn:Ekc; [| reflexivity].
      apply Ascii.eqb_eq in Ekc. subst k.
      now rewrite Ascii.eqb_sym, Ekx.
Qed.

Lemma keys_count_char (d : dict ascii nat) (x : ascii) :
  keys (count_char d x) = ListSet.set_add ascii_dec x (keys d).
Proof.
  destruct (EntropyFacts.count_char_keys d x) as [[Hin E] | [Hnin E]]; rewrite E.
  - now rewrite GroupFacts.set_add_present.
  - now rewrite GroupFacts.set_add_absent.
Qed.

Lemma char_counts_get (cs : list ascii) (c : ascii) :
  get Ascii.eqb (fold_left count_char cs []) c =
  match count_occ ascii_dec cs c with
  | 0 => None
  | S n => Some (S n)
  end.
Proof.
  revert c. induction cs as [| x cs IH] using rev_ind; intros c; [reflexivity |].
  rewrite fold_left_app. cbn [fold_left].
  rewrite get_count_char, count_occ_app. cbn [count_occ].
  unfold get_default. rewrite IH.
  destruct (Ascii.eqb x c) eqn:E.
  - apply Ascii.eqb_eq in E. subst x.
    destruct (ascii_dec c c) as [_ | N]; [| now elim N].
    destruct (count_occ ascii_dec cs c) as [| n]; cbn; f_equal; lia.
  - apply Ascii.eqb_neq in E.
    destruct (ascii_dec x c) as [E' | _]; [now elim E |].
    now rewrite Nat.add_0_r.
Qed.

Lemma char_counts_keys (cs : list ascii) :
  keys (fold_left count_char cs []) = distinct ascii_dec cs.
Proof.
  induction cs as [| x cs IH] using rev_ind; [reflexivity |].
  rewrite fold_left_app. cbn [fold_left].
  now rewrite keys_count_char, IH, GroupFacts.distinct_snoc.
Qed.

(** X2: the frequency table built by the first loop holds, under every
    character of the string, the number of its occurrences, and nothing
    under any other character; its keys are the distinct characters in the
    order of their first occurrence, and its counts add up to the length. *)
Theorem char_counts_frequency (s : string) :
  let char_counts := fold_left count_char (chars s) [] in
  (forall c,
      get Ascii.eqb char_counts c =
      match count_occ ascii_dec (chars s) c with
      | 0 => None
      | S n => Some (S n)
      end)
  /\ keys char_counts = distinct ascii_dec (chars s)
  /\ list_sum (values char_counts) = len s.
Proof.
  cbv zeta. split; [| split].
  - apply char_counts_get.
  - apply char_counts_keys.
  - now destruct (EntropyFacts.char_counts_ok (chars s)) as (_ & _ & _ & H).
Qed.

End EntropyLaws.

(* ------------------------------------------------------------------ *)
(** ** ModelRotator: the period *)

Module RotatorLaws.
Import Rotator.

(** X3: the rotation has the length of the model list as its period: the
    call at counter [c + k * n] returns the model of the call at [c]. *)
Theorem get_next_model_period (models : list string) (c k : nat) :
  models <> [] ->
  fst (get_next_model models (c + k * List.length models)) =
  fst (get_next_model models c).
Proof.
  intros Hne. rewrite !RotatorFacts.get_next_model_nth by assumption.
  cbn [fst]. now rewrite Nat.Div0.mod_add.
Qed.

(** The configured list from counter 2, two periods later. *)
Lemma get_next_model_period_witness :
  fst (get_next_model Config.OLLAMA_MODELS (2 + 2 * 5)) =
  fst (get_next_model Config.OLLAMA_MODELS 2).
Proof.
  apply (get_next_model_period Config.OLLAMA_MODELS 2 2). discriminate.
Defined.

End RotatorLaws.

(* ------------------------------------------------------------------ *)
(** ** ConsensusAssembler: groups, counts and the top group *)

Module AssemblerLaws.
Import Assembler Spec GroupFacts.
Open Scope R_scope.

Lemma score_ge_trans : Relations_1.Transitive score_ge.
Proof.
  intros a b c Hab Hbc. unfold score_ge in *. lra.
Qed.

(** X4: the assembler raises on no list of fragments.  Its result carries
    the genesis hash it was given; the selected candidate, the score and
    the statistics are those of the first group of the sorted list, and no
    group has a higher score than the result. *)
Theorem assemble_top_is_maximal (fs : list Fragment.t) (genesis_hash : string) :
  exists res,
    assemble_final_answer fs genesis_hash = Ok res
    /\ ConsensusResult.genesis res = genesis_hash
    /\ match ConsensusResult.allGroups res with
       | [] =>
           ConsensusResult.selectedCandidate res = no_candidates_message
           /\ ConsensusResult.score res = 0
           /\ ConsensusResult.top res = None
       | t :: _ =>
           ConsensusResult.selectedCandidate res = ScoredGroup.candidate t
           /\ ConsensusResult.score res = ScoredGroup.score t
           /\ ConsensusResult.top res =
              Some (ConsensusResult.mk_stats
                      (ScoredGroup.agentCount t) (ScoredGroup.roundCount t)
                      (ScoredGroup.avgEntropy t) (ScoredGroup.rootAgent t)
                      (ScoredGroup.rootEntropy t))
       end
    /\ forall g, In g (ConsensusResult.allGroups res) ->
         ScoredGroup.score g <= ConsensusResult.score res.
Proof.
  eexists. split; [apply assemble_final_answer_spec |].
  pose proof (sort_by_score_sorted (map (scored_of fs) (discovery_keys fs)))
    as Hsorted.
  destruct (sort_by_score (map (scored_of fs) (discovery_keys fs)))
    as [| t rest].
  - cbn. repeat split. intros g [].
  - cbn [result_of ConsensusResult.genesis ConsensusResult.allGroups
         ConsensusResult.selectedCandidate ConsensusResult.score
         ConsensusResult.top].
    repeat split.
    apply (Sorted_StronglySorted score_ge_trans) in Hsorted.
    apply StronglySorted_inv in Hsorted. destruct Hsorted as [_ Hall].
    rewrite Forall_forall in Hall.
    intros g [<- | Hg]; [lra | now apply Hall].
Qed.

Lemma keys_tabulate (V : Type) (g : string -> V) (ks : list string) :
  keys (tabulate g ks) = ks.
Proof.
  unfold keys, tabulate. rewrite map_map. apply map_id.
Qed.

Lemma get_tabulate_some (V : Type) (g : string -> V) (ks : list string)
  (k : string) (v : V) :
  get String.eqb (tabulate g ks) k = Some v -> In k ks /\ v = g k.
Proof.
  intros H. destruct (in_dec string_dec k ks) as [Hin | Hnin].
  - rewrite (get_tabulate_in _ _ _ _ Hin) in H. injection H as <-. now split.
  - rewrite (get_tabulate_out _ _ _ _ Hnin) in H. discriminate.
Qed.

(** X5: the first loop of the assembler partitions the fragments that have
    a key: the groups have distinct keys, none of them empty; the group
    under a key holds the fragments of that key and no others, in input
    order; a fragment without key is in no group. *)
Theorem candidate_groups_partition (fs : list Fragment.t) :
  let candidate_groups := fold_left add_fragment fs [] in
  NoDup (keys candidate_groups)
  /\ ~ In EmptyString (keys candidate_groups)
  /\ (forall k g,
         get String.eqb candidate_groups k = Some g ->
         Group.candidates g = members k fs /\ Group.candidates g <> [])
  /\ (forall f,
         In f fs -> group_key f <> EmptyString ->
         exists g,
           get String.eqb candidate_groups (group_key f) = Some g
           /\ In f (Group.candidates g))
  /\ (forall f k g,
         get String.eqb candidate_groups k = Some g ->
         In f (Group.candidates g) ->
         In f fs /\ group_key f = k /\ k <> EmptyString).
Proof.
  cbv zeta. rewrite candidate_groups_tabulated, keys_tabulate.
  split; [apply discovery_keys_NoDup |].
  split; [intros H; apply discovery_keys_In in H; now destruct H |].
  split; [| split].
  - intros k g H. apply get_tabulate_some in H. destruct H as [Hk ->].
    destruct (group_of_fields (members k fs)) as [-> _].
    split; [reflexivity | now apply discovery_keys_members].
  - intros f Hf Hk. exists (group_of (members (group_key f) fs)). split.
    + apply get_tabulate_in. apply discovery_keys_In.
      split; [assumption | now exists f].
    + destruct (group_of_fields (members (group_key f) fs)) as [-> _].
      now apply members_In.
  - intros f k g H Hin. apply get_tabulate_some in H. destruct H as [Hk ->].
    destruct (group_of_fields (members k fs)) as [E _]. rewrite E in Hin.
    apply members_In in Hin. destruct Hin as [Hf Ek].
    apply discovery_keys_In in Hk. destruct Hk as [Hk _]. now repeat split.
Qed.

Lemma distinct_length_bounds (A : Type)
  (dec : forall x y : A, {x = y} + {x <> y}) (l : list A) :
  l <> [] ->
  (1 <= List.length (distinct dec l) <= List.length l)%nat.
Proof.
  intros Hne. split.
  - destruct l as [| a l]; [now elim Hne |].
    assert (Hin : In a (distinct dec (a :: l)))
      by (apply distinct_In; now left).
    destruct (distinct dec (a :: l)); [destruct Hin | simpl; lia].
  - apply NoDup_incl_length; [apply distinct_NoDup |].
    intros x Hx. now apply distinct_In in Hx.
Qed.

(** X6: in every group of the result the number of agents and the number
    of rounds are at least 1 and at most the number of fragments of the
    group. *)
Theorem group_counts_bounded (fs : list Fragment.t) (genesis_hash : string) :
  exists res,
    assemble_final_answer fs genesis_hash = Ok res
    /\ forall g, In g (ConsensusResult.allGroups res) ->
         let size := List.length (members (ScoredGroup.key g) fs) in
         (1 <= ScoredGroup.agentCount g <= size)%nat
         /\ (1 <= ScoredGroup.roundCount g <= size)%nat.
Proof.
  eexists. split; [apply assemble_final_answer_spec |].
  intros g Hg. rewrite AssemblerFacts.allGroups_result_of in Hg.
  apply AssemblerFacts.sorted_group_inv in Hg. destruct Hg as [Hk Eg].
  apply discovery_keys_members in Hk. cbv zeta.
  set (ms := members (ScoredGroup.key g) fs) in *.
  rewrite Eg. unfold scored_of. fold ms.
  cbn [ScoredGroup.agentCount ScoredGroup.roundCount].
  unfold agent_ids, round_indices. split.
  - pose proof (distinct_length_bounds _ string_dec (map Fragment.agentId ms))
      as H.
    rewrite length_map in H. apply H.
    intros E. apply map_eq_nil in E. contradiction.
  - pose proof (distinct_length_bounds _ Nat.eq_dec (map Fragment.round ms))
      as H.
    rewrite length_map in H. apply H.
    intros E. apply map_eq_nil in E. contradiction.
Qed.

Lemma discovery_keys_filter (fs : list Fragment.t) :
  discovery_keys (filter has_key fs) = discovery_keys fs.
Proof.
  unfold discovery_keys. f_equal.
  induction fs as [| f fs IH]; [reflexivity |].
  cbn [filter map]. unfold has_key at 1.
  destruct (String.eqb (group_key f) EmptyString) eqn:E; cbn [negb].
  - exact IH.
  - cbn [map filter]. rewrite E. cbn [negb]. now rewrite IH.
Qed.

Lemma members_filter (k : string) (fs : list Fragment.t) :
  k <> EmptyString -> members k (filter has_key fs) = members k fs.
Proof.
  intros Hk. unfold members.
  induction fs as [| f fs IH]; [reflexivity |].
  cbn [filter]. unfold has_key at 1.
  destruct (String.eqb (group_key f) EmptyString) eqn:E; cbn [negb].
  - apply String.eqb_eq in E.
    destruct (String.eqb (group_key f) k) eqn:E'; [| exact IH].
    apply String.eqb_eq in E'. congruence.
  - cbn [filter]. now rewrite IH.
Qed.

(** X7: fragments whose candidate normalizes to the empty text have no
    influence on the result: the assembler returns what it returns on the
    list without them. *)
Theorem keyless_fragments_ignored (fs : list Fragment.t) (genesis_hash : string) :
  assemble_final_answer fs genesis_hash =
  assemble_final_answer (filter has_key fs) genesis_hash.
Proof.
  rewrite !assemble_final_answer_spec, discovery_keys_filter.
  do 3 f_equal. apply map_ext_in. intros k Hk.
  apply discovery_keys_In in Hk. destruct Hk as [Hk _].
  unfold scored_of. now rewrite members_filter.
Qed.

Lemma entropy_sum_snoc (ms : list Fragment.t) (x : Fragment.t) :
  entropy_sum (ms ++ [x]) = entropy_sum ms + Fragment.entropy x.
Proof. unfold entropy_sum. now rewrite fold_left_app. Qed.

Lemma entropy_sum_le (ms : list Fragment.t) (b : R) :
  (forall f, In f ms -> Fragment.entropy f <= b) ->
  entropy_sum ms <= INR (List.length ms) * b.
Proof.
  induction ms as [| x ms IH] using rev_ind; intros H.
  - cbn. lra.
  - rewrite entropy_sum_snoc, length_app, plus_INR. cbn [List.length INR].
    assert (Hx : Fragment.entropy x <= b)
      by (apply H, in_or_app; right; now left).
    assert (Hms : entropy_sum ms <= INR (List.length ms) * b)
      by (apply IH; intros f Hf; apply H, in_or_app; now left).
    lra.
Qed.

End AssemblerLaws.

(* ------------------------------------------------------------------ *)
(** ** The grouping key of the candidates that the agents produce *)

Module KeyLaws.
Import Text Assembler Spec TextFacts.

Lemma lstrip_head (s : list ascii) (x : ascii) (rest : list ascii) :
  lstrip s = x :: rest -> isspace x = false.
Proof.
  induction s as [| c s IH]; [discriminate |].
  cbn [lstrip]. destruct (isspace c) eqn:E; [exact IH |].
  intros H. injection H as <- _. exact E.
Qed.

Lemma lstrip_snoc_nonspace (u : list ascii) (y : ascii) :
  isspace y = false -> lstrip (u ++ [y]) = lstrip u ++ [y].
Proof.
  intros Hy. induction u as [| c u IH]; cbn [app lstrip].
  - now rewrite Hy.
  - destruct (isspace c); [exact IH | reflexivity].
Qed.

Lemma rstrip_cons_nonspace (y : ascii) (v : list ascii) :
  isspace y = false -> rstrip (y :: v) = y :: rstrip v.
Proof.
  intros Hy. unfold rstrip. cbn [List.rev].
  rewrite lstrip_snoc_nonspace by assumption.
  now rewrite rev_app_distr.
Qed.

Lemma strip_trimmed (s : list ascii) :
  strip s = []
  \/ exists x rest body y,
       strip s = x :: rest /\ strip s = body ++ [y]
       /\ isspace x = false /\ isspace y = false.
Proof.
  unfold strip, rstrip.
  destruct (lstrip (List.rev s)) as [| y u'] eqn:Eu; [now left |].
  right. pose proof (lstrip_head _ _ _ Eu) as Hy.
  cbn [List.rev]. rewrite lstrip_snoc_nonspace by assumption.
  destruct (lstrip (List.rev u') ++ [y]) as [| x rest] eqn:E.
  - apply app_eq_nil in E. destruct E as [_ E]. discriminate.
  - exists x, rest, (lstrip (List.rev u')), y.
    repeat split; try assumption; try (now symmetry).
    rewrite <- lstrip_snoc_nonspace in E by assumption.
    now apply lstrip_head in E.
Qed.

(** X9: a grouping key is trimmed: it is empty, or its first and its last
    character are no whitespace. *)
Theorem key_is_trimmed (candidate : list ascii) :
  normalize candidate = []
  \/ exists x rest body y,
       normalize candidate = x :: rest /\ normalize candidate = body ++ [y]
       /\ isspace x = false /\ isspace y = false.
Proof.
  unfold normalize. apply strip_trimmed.
Qed.

Lemma chars_append (a b : string) :
  chars (a ++ b)%string = chars a ++ chars b.
Proof.
  unfold chars. induction a as [| c a IH]; [reflexivity |].
  cbn. now rewrite IH.
Qed.

Lemma is_comment_line_slashes (rest : list ascii) :
  is_comment_line ("/"%char :: "/"%char :: rest) = true.
Proof.
  unfold is_comment_line, strip.
  rewrite !rstrip_cons_nonspace by reflexivity. reflexivity.
Qed.

(** A comment line at the top of a text does not change its key. *)
Lemma normalize_header (h rest : list ascii) :
  no_newline h = true -> is_comment_line h = true ->
  normalize (h ++ newline :: rest) = normalize rest.
Proof.
  intros Hn Hc. unfold normalize.
  rewrite split_lines_app by assumption.
  cbn [filter]. now rewrite Hc.
Qed.

Lemma normalize_comment (h : list ascii) :
  no_newline h = true -> is_comment_line h = true -> normalize h = [].
Proof.
  intros Hn Hc. unfold normalize.
  rewrite split_lines_line by assumption.
  cbn [filter]. now rewrite Hc.
Qed.

Lemma no_newline_digits (d : Decimal.uint) :
  no_newline (chars (DecimalString.NilEmpty.string_of_uint d)) = true.
Proof.
  induction d; cbn; try reflexivity; exact IHd.
Qed.

Lemma no_newline_str_of_nat (n : nat) :
  no_newline (chars (str_of_nat n)) = true.
Proof.
  unfold str_of_nat, DecimalString.NilZero.string_of_uint.
  destruct (Nat.to_uint n) eqn:E; try reflexivity;
    rewrite <- E; apply no_newline_digits.
Qed.

Lemma no_newline_agent_name (i : nat) :
  no_newline (chars (agent_name i)) = true.
Proof.
  unfold agent_name. rewrite chars_append, no_newline_app.
  now rewrite no_newline_str_of_nat.
Qed.

(** The candidate recorded for a failed call has no key when the agent id
    and the error message have no line break. *)
Lemma placeholder_key (agent_id e : string) :
  no_newline (chars agent_id) = true -> no_newline (chars e) = true ->
  normalize (chars (placeholder agent_id e)) = [].
Proof.
  intros Hid He. unfold placeholder.
  rewrite !chars_append.
  change (chars nl) with [newline].
  replace (chars "// Agent " ++ chars agent_id
           ++ chars " failed to generate a response." ++ [newline]
           ++ chars "// Error: Ollama connection error for agent "
           ++ chars agent_id ++ chars ": " ++ chars e)
    with ((chars "// Agent " ++ chars agent_id
           ++ chars " failed to generate a response.")
          ++ newline
          :: (chars "// Error: Ollama connection error for agent "
              ++ chars agent_id ++ chars ": " ++ chars e))
    by (rewrite <- !app_assoc; reflexivity).
  rewrite normalize_header.
  - apply normalize_comment.
    + rewrite !no_newline_app, Hid, He. reflexivity.
    + apply is_comment_line_slashes.
  - rewrite !no_newline_app, Hid. reflexivity.
  - apply is_comment_line_slashes.
Qed.

Section Reasoning.
Variable requests_post : Payload.t -> Reply.t.

(** X10: the key of the candidate of a successful call is the key of the
    stripped reply: the header with the agent id, the model, the round and
    the seed leaves no trace in it, when none of them has a line break. *)
Theorem success_key_ignores_header
  (agent_id model prompt context : string) (round_num : nat)
  (origin file_type : string) (reasoning_depth : nat) (response : string) :
  requests_post
    (Orchestrator.payload agent_id model prompt context round_num file_type
       reasoning_depth) = Reply.Response response ->
  no_newline (chars agent_id) = true ->
  no_newline (chars model) = true ->
  no_newline (chars (prefix 12 origin)) = true ->
  exists result,
    Orchestrator.perform_fractal_reasoning requests_post agent_id model
      prompt context round_num origin file_type reasoning_depth = Ok result
    /\ normalize (chars (Outcome.candidate result)) =
       normalize (strip (chars response)).
Proof.
  intros Hpost Hid Hmodel Hseed.
  unfold Orchestrator.perform_fractal_reasoning. rewrite Hpost.
  eexists. split; [reflexivity |].
  cbn [Outcome.candidate].
  rewrite !chars_append, EntropyFacts.chars_str.
  change (chars nl) with [newline].
  replace (chars "// Agent: " ++ chars agent_id ++ chars " | Model: "
           ++ chars model ++ chars " | Round: "
           ++ chars (str_of_nat (round_num + 1)) ++ [newline]
           ++ chars "// Seed: " ++ chars (prefix 12 origin) ++ [newline]
           ++ strip (chars response))
    with ((chars "// Agent: " ++ chars agent_id ++ chars " | Model: "
           ++ chars model ++ chars " | Round: "
           ++ chars (str_of_nat (round_num + 1)))
          ++ newline
          :: ((chars "// Seed: " ++ chars (prefix 12 origin))
              ++ newline :: strip (chars response)))
    by (rewrite <- !app_assoc; reflexivity).
  rewrite normalize_header.
  - rewrite normalize_header; [reflexivity | | apply is_comment_line_slashes].
    rewrite no_newline_app, Hseed. reflexivity.
  - rewrite !no_newline_app, Hid, Hmodel, no_newline_str_of_nat. reflexivity.
  - apply is_comment_line_slashes.
Qed.

End Reasoning.

(** A service that answers every call with [  x=1  ]. *)
Lemma success_key_ignores_header_witness :
  exists result,
    Orchestrator.perform_fractal_reasoning
      (fun _ => Reply.Response "  x=1  ") "agent-3"
      "gemma:latest" "Optimize this code" "let x = 1" 2
      "0123456789abcdef" "javascript" 3 = Ok result
    /\ normalize (chars (Outcome.candidate result)) =
       normalize (strip (chars "  x=1  ")).
Proof.
  apply (success_key_ignores_header (fun _ => Reply.Response "  x=1  "));
    reflexivity.
Defined.

End KeyLaws.

(* ------------------------------------------------------------------ *)
(** ** ConsensusAssembler: the fields it reads *)

Module ViewLaws.
Import Assembler Spec GroupFacts.

Lemma same_view_key (f f' : Fragment.t) :
  same_view f f' -> group_key f = group_key f'.
Proof.
  intros (_ & _ & E & _). unfold group_key. now rewrite E.
Qed.

Lemma same_view_keys (fs fs' : list Fragment.t) :
  Forall2 same_view fs fs' -> map group_key fs = map group_key fs'.
Proof.
  induction 1 as [| f f' fs fs' Hf _ IH]; [reflexivity |].
  cbn [map]. now rewrite (same_view_key f f' Hf), IH.
Qed.

Lemma same_view_members (k : string) (fs fs' : list Fragment.t) :
  Forall2 same_view fs fs' ->
  Forall2 same_view (members k fs) (members k fs').
Proof.
  unfold members. induction 1 as [| f f' fs fs' Hf _ IH]; [constructor |].
  cbn [filter]. rewrite (same_view_key f f' Hf).
  destruct (String.eqb (group_key f') k); [now constructor | exact IH].
Qed.

Lemma same_view_maps (ms ms' : list Fragment.t) :
  Forall2 same_view ms ms' ->
  map Fragment.agentId ms = map Fragment.agentId ms'
  /\ map Fragment.round ms = map Fragment.round ms'
  /\ Fragment.candidate (hd no_fragment ms)
     = Fragment.candidate (hd no_fragment ms').
Proof.
  induction 1 as [| f f' ms ms' (Ha & Hr & Hc & _) _ (IH1 & IH2 & _)].
  - repeat split.
  - cbn [map hd]. now rewrite Ha, Hr, Hc, IH1, IH2.
Qed.

Lemma same_view_sum (ms ms' : list Fragment.t) :
  Forall2 same_view ms ms' ->
  forall t,
    fold_left (fun t f => (t + Fragment.entropy f)%R) ms t =
    fold_left (fun t f => (t + Fragment.entropy f)%R) ms' t.
Proof.
  induction 1 as [| f f' ms ms' (_ & _ & _ & He) _ IH]; intros t;
    [reflexivity |].
  cbn [fold_left]. now rewrite He, IH.
Qed.

Lemma same_view_root (ms ms' : list Fragment.t) :
  Forall2 same_view ms ms' ->
  forall o o',
    match o, o' with
    | Some r, Some r' => same_view r r'
    | None, None => True
    | _, _ => False
    end ->
    match fold_left track_root ms o, fold_left track_root ms' o' with
    | Some r, Some r' => same_view r r'
    | None, None => True
    | _, _ => False
    end.
Proof.
  induction 1 as [| f f' ms ms' Hf _ IH]; intros o o' Ho; [exact Ho |].
  cbn [fold_left]. apply IH.
  destruct o as [r |], o' as [r' |]; try contradiction; cbn [track_root].
  - pose proof Ho as (_ & _ & _ & Hre). pose proof Hf as (_ & _ & _ & He).
    rewrite He, Hre.
    destruct (Rgt_dec (Fragment.entropy f') (Fragment.entropy r'));
      assumption.
  - exact Hf.
Qed.

Lemma same_view_scored (k : string) (fs fs' : list Fragment.t) :
  Forall2 same_view fs fs' -> scored_of fs k = scored_of fs' k.
Proof.
  intros H. apply (same_view_members k) in H.
  destruct (same_view_maps _ _ H) as (Ha & Hr & Hc).
  pose proof (same_view_sum _ _ H 0%R) as Hs.
  pose proof (Forall2_length H) as Hl.
  pose proof (same_view_root _ _ H None None I) as Hroot.
  unfold scored_of, raw_score, average_entropy, agent_ids, round_indices,
    entropy_sum, root_of in *.
  rewrite Ha, Hr, Hc, Hs, Hl.
  destruct (fold_left track_root (members k fs) None) as [r |],
    (fold_left track_root (members k fs') None) as [r' |];
    try contradiction; [| reflexivity].
  destruct Hroot as (Hra & _ & _ & Hre). now rewrite Hra, Hre.
Qed.

(** X11: the assembler reads the agent id, the round, the candidate and
    the entropy of a fragment and nothing else: two lists of fragments that
    agree on these four fields, whatever their origins and models are, have
    the same result. *)
Theorem assemble_reads_four_fields (fs fs' : list Fragment.t)
  (genesis_hash : string) :
  Forall2 same_view fs fs' ->
  assemble_final_answer fs genesis_hash =
  assemble_final_answer fs' genesis_hash.
Proof.
  intros H. rewrite !assemble_final_answer_spec.
  unfold discovery_keys. rewrite (same_view_keys _ _ H).
  do 3 f_equal. apply map_ext. intros k. now apply same_view_scored.
Qed.

(** Two fragments with other origins and models. *)
Lemma assemble_reads_four_fields_witness :
  assemble_final_answer
    [sample_fragment "agent-0" 3; sample_fragment "agent-1" 3.5] "00" =
  assemble_final_answer
    [relabelled_fragment "agent-0" 3; relabelled_fragment "agent-1" 3.5] "00".
Proof.
  apply assemble_reads_four_fields.
  repeat constructor.
Defined.

End ViewLaws.

(* ------------------------------------------------------------------ *)
(** ** AgentOrchestrator: the rotator, the failures and the edge cases *)

Module OrchestratorLaws.
Import Spec OrchestratorFacts.

Section Run.
Variable sha256 : string -> string.
Variable time_time : string.
Variable random_random : nat -> string.
Variable requests_post : Payload.t -> Reply.t.
Variable data : Request.t.

Local Abbreviation orchestration_rounds :=
  (Orchestrator.orchestration_rounds sha256 time_time random_random
     requests_post data).
Local Abbreviation orchestrate :=
  (Orchestrator.orchestrate sha256 time_time random_random requests_post
     (Body.Object data)).
Local Abbreviation genesis_hash := (Orchestrator.genesis_hash sha256 time_time data).
Local Abbreviation agent_at := (Spec.agent_at sha256 time_time random_random data).
Local Abbreviation origin_before :=
  (Spec.origin_before sha256 time_time random_random data).
Local Abbreviation fragment_at :=
  (Spec.fragment_at sha256 time_time random_random requests_post data).
Local Abbreviation fragments_of :=
  (Spec.fragments_of sha256 time_time random_random requests_post data).

Local Abbreviation replies_readable :=
  (Spec.replies_readable requests_post data).
Local Abbreviation first_unreadable :=
  (Spec.first_unreadable requests_post data).

Lemma fragments_of_In (n r0 m c : nat) (f : Fragment.t) :
  In f (fragments_of n r0 m c) -> exists r c' i, f = fragment_at r c' i.
Proof.
  unfold Spec.fragments_of. intros H.
  apply in_flat_map in H. destruct H as (k & _ & H).
  apply in_map_iff in H. destruct H as (i & <- & _). now eexists _, _, _.
Qed.

Lemma orchestrate_spec (a m : Z) (c : nat) :
  Request.agentCount data = Json.Int a ->
  Request.maxRounds data = Json.Int m ->
  replies_readable (Z.to_nat a) (Z.to_nat m) c ->
  orchestrate c =
  (Response.Success
     (result_of genesis_hash
        (Assembler.sort_by_score
           (map (scored_of (fragments_of (Z.to_nat a) 0 (Z.to_nat m) c))
              (discovery_keys (fragments_of (Z.to_nat a) 0 (Z.to_nat m) c))))),
   c + Z.to_nat m * Z.to_nat a).
Proof.
  intros Ha Hm Hread. rewrite orchestrate_object.
  unfold Orchestrator.consensus_of_request, Global.bind.
  rewrite (orchestration_rounds_spec _ _ _ _ _ a m c Ha Hm Hread).
  unfold Global.lift. cbn [snd].
  now rewrite GroupFacts.assemble_final_answer_spec.
Qed.

Lemma orchestrate_abort (a m : Z) (c r i : nat) :
  Request.agentCount data = Json.Int a ->
  Request.maxRounds data = Json.Int m ->
  first_unreadable (Z.to_nat a) (Z.to_nat m) c r i ->
  orchestrate c = (Response.Error 500, c + r * Z.to_nat a + i + 1).
Proof.
  intros Ha Hm Hfirst. rewrite orchestrate_object.
  unfold Orchestrator.consensus_of_request, Global.bind.
  now rewrite (orchestration_rounds_abort _ _ _ _ _ a m c r i Ha Hm Hfirst).
Qed.

(** X12: a request with integer parameters that is processed alone
    advances the rotator by one per call of the service.  With [n] and [m]
    the values of [agentCount] and [maxRounds], a negative one counting as
    0: when no reply is unreadable, the fragment at position [k] of the run
    is generated by the model at index [(c + k) mod 5] of the configured
    list, the request leaves the counter at [c + n * m], and the agents
    keep their ids and their order through the rounds; when the call of
    agent [i] in round [r] is the first with an unreadable reply, the
    loops are left with the exception and the counter stays at
    [c + r * n + i + 1]: the calls of an aborted request remain counted. *)
Theorem rotation_through_run (a m : Z) (c : nat) :
  Request.agentCount data = Json.Int a ->
  Request.maxRounds data = Json.Int m ->
  (replies_readable (Z.to_nat a) (Z.to_nat m) c ->
   exists consensus agents fragments,
     orchestrate c =
     (Response.Success consensus, c + Z.to_nat m * Z.to_nat a)
     /\ orchestration_rounds c =
        (Ok (agents, fragments), c + Z.to_nat m * Z.to_nat a)
     /\ (forall k, k < Z.to_nat m * Z.to_nat a ->
           exists f,
             nth_error fragments k = Some f
             /\ nth_error Config.OLLAMA_MODELS
                  ((c + k) mod List.length Config.OLLAMA_MODELS)
                = Some (Fragment.model f))
     /\ map Agent.id agents = map agent_name (seq 0 (Z.to_nat a)))
  /\ (forall r i,
        first_unreadable (Z.to_nat a) (Z.to_nat m) c r i ->
        orchestration_rounds c =
        (Raise AttributeError, c + r * Z.to_nat a + i + 1)
        /\ r * Z.to_nat a + i + 1 <= Z.to_nat m * Z.to_nat a).
Proof.
  intros Ha Hm. split.
  - intros Hread.
    eexists _, _, _. split; [now apply (orchestrate_spec a m) |].
    split; [now apply (orchestration_rounds_spec _ _ _ _ _ a m) |].
    split.
    + intros k Hk.
      set (n := Z.to_nat a) in *.
      assert (Hn : n <> 0) by (intros E; rewrite E in Hk; lia).
      assert (Ek : k = k / n * n + k mod n).
      { rewrite Nat.mul_comm. apply Nat.div_mod_eq. }
      assert (Hi : k mod n < n) by now apply Nat.mod_upper_bound.
      assert (Hr : k / n < Z.to_nat m).
      { apply Nat.Div0.div_lt_upper_bound. lia. }
      exists (fragment_at (0 + k / n) (c + k / n * n + k mod n) (k mod n)).
      split.
      * rewrite Ek at 1. now apply fragments_of_nth.
      * cbn [Spec.fragment_at Fragment.model]. unfold model_at.
        replace (c + k / n * n + k mod n) with (c + k) by lia.
        apply nth_error_nth'. apply Nat.mod_upper_bound. discriminate.
    + rewrite map_map. apply map_ext. reflexivity.
  - intros r i Hfirst. split.
    + now apply (orchestration_rounds_abort _ _ _ _ _ a m).
    + destruct Hfirst as (Hr & Hi & _). nia.
Qed.

(** X13: when every call of the generation service fails with a message
    without line break, no fragment has a key: the request is still
    answered with a success, whose consensus is the degenerate result, and
    the rotator has advanced by one per call. *)
Theorem all_calls_fail_degenerate (a m : Z) (c : nat) :
  Request.agentCount data = Json.Int a ->
  Request.maxRounds data = Json.Int m ->
  (forall p, exists e,
      requests_post p = Reply.Failed e /\ no_newline (chars e) = true) ->
  orchestrate c =
  (Response.Success
     (ConsensusResult.mk genesis_hash Assembler.no_candidates_message 0 None []),
   c + Z.to_nat m * Z.to_nat a).
Proof.
  intros Ha Hm Hfail.
  assert (Hread : replies_readable (Z.to_nat a) (Z.to_nat m) c).
  { intros r i _ _. unfold Spec.readable_at, Spec.reply_at.
    destruct (Hfail (Orchestrator.payload (agent_name i)
                       (model_at (c + r * Z.to_nat a + i))
                       (Request.prompt data) (Request.codeContext data) r
                       (Request.fileType data) (Request.reasoningDepth data)))
      as (e & -> & _).
    reflexivity. }
  rewrite (orchestrate_spec a m c Ha Hm Hread).
  destruct (discovery_keys (fragments_of (Z.to_nat a) 0 (Z.to_nat m) c))
    as [| k ks] eqn:E; [reflexivity |].
  exfalso.
  assert (Hin : In k (discovery_keys
                        (fragments_of (Z.to_nat a) 0 (Z.to_nat m) c)))
    by (rewrite E; now left).
  apply GroupFacts.discovery_keys_In in Hin.
  destruct Hin as [Hk (f & Hf & Ekey)].
  apply fragments_of_In in Hf. destruct Hf as (r & c' & i & ->).
  destruct (Hfail (Orchestrator.payload (agent_name i) (model_at c')
                     (Request.prompt data) (Request.codeContext data) r
                     (Request.fileType data) (Request.reasoningDepth data)))
    as (e & He & Hn).
  apply Hk. rewrite <- Ekey. unfold Assembler.group_key, Spec.fragment_at.
  cbn [Fragment.candidate].
  rewrite (candidate_at_failed _ _ _ _ _ _ _ _ _ He).
  rewrite KeyLaws.placeholder_key;
    [reflexivity | apply KeyLaws.no_newline_agent_name | exact Hn].
Qed.


(** X15: the rounds return their fragments only in a run in which no reply
    is unreadable, and the entropy of every fragment of such a run is the
    entropy of the origin the fragment stores; it is not negative, and it
    is at most 4 when the digests are hexadecimal. *)
Theorem fragment_entropy_of_origin (a m : Z) (c : nat) :
  Request.agentCount data = Json.Int a ->
  Request.maxRounds data = Json.Int m ->
  (forall res c',
      orchestration_rounds c = (Ok res, c') ->
      replies_readable (Z.to_nat a) (Z.to_nat m) c)
  /\ (replies_readable (Z.to_nat a) (Z.to_nat m) c ->
      exists agents fragments c',
        orchestration_rounds c = (Ok (agents, fragments), c')
        /\ forall f, In f fragments ->
             Entropy.calculate_entropy (Fragment.origin f)
             = Ok (Fragment.entropy f)
             /\ (0 <= Fragment.entropy f)%R
             /\ ((forall s, drawn_from hex_digits (sha256 s) = true) ->
                 (Fragment.entropy f <= 4)%R)).
Proof.
  intros Ha Hm. split.
  { intros res c' Hrun.
    apply (orchestration_rounds_returns_iff sha256 time_time random_random
             requests_post data a m c Ha Hm).
    now exists res, c'. }
  intros Hread.
  eexists _, _, _. split; [now apply (orchestration_rounds_spec _ _ _ _ _ a m) |].
  intros f Hf. apply fragments_of_In in Hf. destruct Hf as (r & c' & i & ->).
  cbn [Spec.fragment_at Fragment.origin Fragment.entropy].
  unfold Spec.entropy_of.
  destruct (EntropyLaws.calculate_entropy_nonneg (origin_before i (S r)))
    as (h & Eh & Hh).
  rewrite Eh. split; [reflexivity |]. split; [exact Hh |].
  intros Hhex.
  destruct (EntropyFacts.calculate_entropy_in_range hex_digits
              (origin_before i (S r)) eq_refl)
    as (h' & Eh' & _ & H4).
  - cbn [Spec.origin_before]. apply Hhex.
  - rewrite Eh in Eh'. injection Eh' as <-. exact H4.
Qed.

End Run.

(** The sample run with the refusing service: two calls, no group. *)
Lemma rotation_through_run_witness :
  (exists consensus agents fragments f,
     Orchestrator.orchestrate sample_digest sample_time sample_random
       refusing_service (Body.Object sample_request) 4
     = (Response.Success consensus, 6)
     /\ Orchestrator.orchestration_rounds sample_digest sample_time
          sample_random refusing_service sample_request 4
        = (Ok (agents, fragments), 6)
     /\ nth_error fragments 1 = Some f
     /\ Fragment.model f = "gemma:latest"%string)
  /\ Orchestrator.orchestration_rounds sample_digest sample_time
       sample_random faltering_service sample_request 0
     = (Raise AttributeError, 2).
Proof.
  split.
  - destruct (proj1 (rotation_through_run sample_digest sample_time
                       sample_random refusing_service sample_request 2 1 4
                       eq_refl eq_refl))
      as (consensus & agents & fragments & Hok & Hrun & Hmodel & _);
      [intros r i _ _; reflexivity |].
    destruct (Hmodel 1) as (f & Hf & Hm); [cbn; lia |].
    exists consensus, agents, fragments, f.
    split; [exact Hok |]. split; [exact Hrun |]. split; [exact Hf |].
    cbn in Hm. now injection Hm as <-.
  - apply (proj2 (rotation_through_run sample_digest sample_time
                    sample_random faltering_service sample_request 2 1 0
                    eq_refl eq_refl) 0 1).
    split; [cbn; lia |]. split; [cbn; lia |]. split; [reflexivity |].
    intros r' i' Hr' Hi' Hlt. cbn in Hr', Hi', Hlt.
    assert (r' = 0) by lia. assert (i' = 0) by lia. subst. reflexivity.
Defined.

Lemma all_calls_fail_degenerate_witness :
  Orchestrator.orchestrate sample_digest sample_time sample_random
    refusing_service (Body.Object sample_request) 0 =
  (Response.Success
     (ConsensusResult.mk
        (Orchestrator.genesis_hash sample_digest sample_time sample_request)
        Assembler.no_candidates_message 0 None []),
   2).
Proof.
  apply (all_calls_fail_degenerate sample_digest sample_time sample_random
           refusing_service sample_request 2 1 0 eq_refl eq_refl).
  intros p. exists "connection refused"%string. split; reflexivity.
Defined.


Lemma fragment_entropy_of_origin_witness :
  exists agents fragments c',
    Orchestrator.orchestration_rounds sample_digest sample_time sample_random
      refusing_service sample_request 0 = (Ok (agents, fragments), c')
    /\ forall f, In f fragments ->
         Entropy.calculate_entropy (Fragment.origin f)
         = Ok (Fragment.entropy f)
         /\ (0 <= Fragment.entropy f)%R.
Proof.
  destruct (proj2 (fragment_entropy_of_origin sample_digest sample_time
                     sample_random refusing_service sample_request 2 1 0
                     eq_refl eq_refl))
    as (agents & fragments & c' & Hrun & H); [intros r i _ _; reflexivity |].
  exists agents, fragments, c'. split; [exact Hrun |].
  intros f Hf. destruct (H f Hf) as (H1 & H2 & _). now split.
Defined.

End OrchestratorLaws.

(* ------------------------------------------------------------------ *)
(** ** EntropyMeter: the uniform distribution *)

Module UniformLaws.
Import Entropy Spec.
Open Scope R_scope.

Lemma get_some_key (d : dict ascii nat) (k : ascii) (v : nat) :
  get Ascii.eqb d k = Some v -> In k (keys d).
Proof.
  induction d as [| [k' v'] d IH]; [discriminate |].
  cbn [get keys map fst]. destruct (Ascii.eqb k' k) eqn:E.
  - apply Ascii.eqb_eq in E. intros _. now left.
  - intros H. right. now apply IH.
Qed.

Lemma get_of_entry (d : dict ascii nat) (k : ascii) (v : nat) :
  NoDup (keys d) -> In (k, v) d -> get Ascii.eqb d k = Some v.
Proof.
  induction d as [| [k' v'] d IH]; intros Hnd Hin; [destruct Hin |].
  cbn [keys map fst] in Hnd. inversion Hnd as [| ? ? Hk' Hd]; subst.
  cbn [get]. destruct Hin as [E | Hin].
  - injection E as -> ->. now rewrite Ascii.eqb_refl.
  - destruct (Ascii.eqb k' k) eqn:E; [| now apply IH].
    apply Ascii.eqb_eq in E. subst k'. elim Hk'.
    apply in_map_iff. now exists (k, v).
Qed.

Lemma weighted_logs_const (counts : list nat) (c n : nat) :
  Forall (fun v => v = c) counts ->
  weighted_logs counts n =
  INR (List.length counts)
  * (INR c / INR n * (ln (INR c / INR n) / ln 2)).
Proof.
  induction 1 as [| v counts -> _ IH].
  - cbn. lra.
  - cbn [weighted_logs]. rewrite IH.
    change (List.length (c :: counts)) with (S (List.length counts)).
    rewrite S_INR. lra.
Qed.

Lemma list_sum_const (counts : list nat) (c : nat) :
  Forall (fun v => v = c) counts ->
  list_sum counts = (List.length counts * c)%nat.
Proof.
  induction 1 as [| v counts -> _ IH]; [reflexivity |].
  cbn [list_sum fold_right List.length]. fold (list_sum counts). lia.
Qed.

(** X16: the bound 4 is attained: a string in which each of 16 distinct
    characters occurs equally often, and no other character occurs, has
    the entropy 4. *)
Theorem uniform_entropy_is_four (alphabet : list ascii) (s : string) (c : nat) :
  NoDup alphabet -> List.length alphabet = 16%nat -> (1 <= c)%nat ->
  drawn_from alphabet s = true -> occurs_evenly alphabet s c = true ->
  calculate_entropy s = Ok 4.
Proof.
  intros Hnd Hlen Hc Hdrawn Heven.
  unfold occurs_evenly in Heven. rewrite forallb_forall in Heven.
  unfold drawn_from in Hdrawn. rewrite forallb_forall in Hdrawn.
  unfold calculate_entropy, len. set (cs := chars s) in *.
  destruct (EntropyFacts.char_counts_ok cs) as (Hkeys & Hincl & Hpos & Hsum).
  set (d := fold_left count_char cs []) in *.
  assert (Hin_alpha : forall k, In k (keys d) -> In k alphabet).
  { intros k Hk. apply Hincl in Hk. specialize (Hdrawn k Hk).
    apply existsb_exists in Hdrawn. destruct Hdrawn as (y & Hy & E).
    apply Ascii.eqb_eq in E. now subst. }
  assert (Hget : forall k, In k alphabet -> get Ascii.eqb d k = Some c).
  { intros k Hk. specialize (Heven k Hk). apply Nat.eqb_eq in Heven.
    unfold d. rewrite EntropyLaws.char_counts_get, Heven.
    destruct c; [lia | reflexivity]. }
  assert (Hlen_keys : List.length (keys d) = 16%nat).
  { rewrite <- Hlen. apply Nat.le_antisymm; apply NoDup_incl_length;
      try assumption.
    intros k Hk. apply (get_some_key d k c). now apply Hget. }
  assert (Hconst : Forall (fun v => v = c) (values d)).
  { apply Forall_forall. intros v Hv. unfold values in Hv.
    apply in_map_iff in Hv. destruct Hv as ([k v'] & <- & Hkv). cbn [snd].
    pose proof (get_of_entry d k v' Hkeys Hkv) as H1.
    assert (Hk : In k (keys d)) by (apply in_map_iff; now exists (k, v')).
    rewrite (Hget k (Hin_alpha k Hk)) in H1. now injection H1. }
  assert (Hlen_values : List.length (values d) = 16%nat).
  { unfold values. rewrite length_map. unfold keys in Hlen_keys.
    now rewrite length_map in Hlen_keys. }
  assert (Hn : List.length cs = (16 * c)%nat).
  { rewrite <- Hsum, (list_sum_const _ c Hconst), Hlen_values. reflexivity. }
  rewrite EntropyFacts.entropy_loop_ok by (assumption || lia).
  cbn [Py.bind]. rewrite (weighted_logs_const _ c _ Hconst), Hlen_values, Hn.
  assert (Hc' : 0 < INR c) by (apply lt_0_INR; lia).
  replace (INR c / INR (16 * c)) with (/ 16)
    by (rewrite mult_INR; replace (INR 16) with 16 by (simpl; lra);
        field; lra).
  rewrite ln_Rinv by lra. rewrite EntropyFacts.ln_16.
  pose proof EntropyFacts.ln_2_pos as H2.
  replace (0 - INR 16 * (/ 16 * (- (4 * ln 2) / ln 2))) with (IZR 4000 / 1000)
    by (replace (INR 16) with 16 by (simpl; lra); field; lra).
  rewrite RoundFacts.round3_millis. f_equal. lra.
Qed.

(** The sixteen hex digits, four times each. *)
Lemma uniform_entropy_is_four_witness :
  calculate_entropy
    "0123456789abcdef0123456789abcdef0123456789abcdef0123456789abcdef"
  = Ok 4.
Proof.
  apply (uniform_entropy_is_four hex_digits _ 4).
  - change hex_digits with (nodup ascii_dec hex_digits). apply NoDup_nodup.
  - reflexivity.
  - lia.
  - reflexivity.
  - reflexivity.
Defined.

End UniformLaws.

(* ------------------------------------------------------------------ *)
(** ** ConsensusAssembler: the keys and the range of the scores *)

Module ScoreLaws.
Import Assembler Spec GroupFacts.
Open Scope R_scope.

(** X17: the groups of the result are the distinct non-empty grouping keys
    of the input, each once: a text is the key of a group exactly when it
    is not empty and is the key of some fragment. *)
Theorem result_groups_keys (fs : list Fragment.t) (genesis_hash : string) :
  exists res,
    assemble_final_answer fs genesis_hash = Ok res
    /\ Permutation (map ScoredGroup.key (ConsensusResult.allGroups res))
         (discovery_keys fs)
    /\ NoDup (map ScoredGroup.key (ConsensusResult.allGroups res))
    /\ forall k,
         In k (map ScoredGroup.key (ConsensusResult.allGroups res)) <->
         k <> EmptyString /\ exists f, In f fs /\ group_key f = k.
Proof.
  eexists. split; [apply assemble_final_answer_spec |].
  rewrite AssemblerFacts.allGroups_result_of.
  assert (P : Permutation
                (map ScoredGroup.key
                   (sort_by_score (map (scored_of fs) (discovery_keys fs))))
                (discovery_keys fs)).
  { rewrite <- (sort_by_score_perm (map (scored_of fs) (discovery_keys fs))).
    rewrite map_map. cbn [scored_of ScoredGroup.key]. now rewrite map_id. }
  split; [exact P |]. split.
  - apply (Permutation_NoDup (Permutation_sym P)). apply discovery_keys_NoDup.
  - intros k. rewrite <- discovery_keys_In. split; intros H.
    + now apply (Permutation_in _ P).
    + now apply (Permutation_in _ (Permutation_sym P)).
Qed.

Lemma entropy_sum_ge (ms : list Fragment.t) :
  (forall f, In f ms -> 0 <= Fragment.entropy f) -> 0 <= entropy_sum ms.
Proof.
  induction ms as [| x ms IH] using rev_ind; intros H.
  - cbn. lra.
  - rewrite AssemblerLaws.entropy_sum_snoc.
    assert (Hx : 0 <= Fragment.entropy x)
      by (apply H, in_or_app; right; now left).
    assert (Hms : 0 <= entropy_sum ms)
      by (apply IH; intros f Hf; apply H, in_or_app; now left).
    lra.
Qed.

(** X18: when the entropies of the fragments lie between 0 and 4, as those
    of hex digests do, the score of every group is at least 3.5 and at
    most [2 * agentCount + 1.5 * roundCount + 12]. *)
Theorem score_range (fs : list Fragment.t) (genesis_hash : string) :
  (forall f, In f fs -> 0 <= Fragment.entropy f <= 4) ->
  exists res,
    assemble_final_answer fs genesis_hash = Ok res
    /\ forall g, In g (ConsensusResult.allGroups res) ->
         3.5 <= ScoredGroup.score g
         <= 2 * INR (ScoredGroup.agentCount g)
            + 1.5 * INR (ScoredGroup.roundCount g) + 12.
Proof.
  intros Hrange.
  eexists. split; [apply assemble_final_answer_spec |].
  intros g Hg. rewrite AssemblerFacts.allGroups_result_of in Hg.
  apply AssemblerFacts.sorted_group_inv in Hg. destruct Hg as [Hk Eg].
  apply discovery_keys_members in Hk.
  set (ms := members (ScoredGroup.key g) fs) in *.
  assert (Hms : forall f, In f ms -> 0 <= Fragment.entropy f <= 4).
  { intros f Hf. apply members_In in Hf. now apply Hrange. }
  assert (Hn : 0 < INR (List.length ms)).
  { apply lt_0_INR. destruct ms; [now elim Hk | simpl; lia]. }
  assert (Havg : 0 <= average_entropy ms <= 4).
  { unfold average_entropy. split.
    - apply Rmult_le_reg_r with (INR (List.length ms)); [assumption |].
      unfold Rdiv. rewrite Rmult_assoc, Rinv_l by lra.
      pose proof (entropy_sum_ge ms (fun f Hf => proj1 (Hms f Hf))). lra.
    - apply Rmult_le_reg_r with (INR (List.length ms)); [assumption |].
      unfold Rdiv. rewrite Rmult_assoc, Rinv_l by lra.
      pose proof (AssemblerLaws.entropy_sum_le ms 4
                    (fun f Hf => proj2 (Hms f Hf))). lra. }
  assert (Ha : (1 <= List.length (agent_ids ms))%nat).
  { apply AssemblerLaws.distinct_length_bounds.
    intros E. apply map_eq_nil in E. contradiction. }
  assert (Hr : (1 <= List.length (round_indices ms))%nat).
  { apply AssemblerLaws.distinct_length_bounds.
    intros E. apply map_eq_nil in E. contradiction. }
  apply le_INR in Ha, Hr. cbn [INR] in Ha, Hr.
  rewrite Eg. unfold scored_of. fold ms.
  cbn [ScoredGroup.score ScoredGroup.agentCount ScoredGroup.roundCount].
  set (na := List.length (agent_ids ms)) in *.
  set (nr := List.length (round_indices ms)) in *.
  pose proof (RoundFacts.round3_bounds 3500
                (2000 * Z.of_nat na + 1500 * Z.of_nat nr + 12000)
                (raw_score ms)) as Hb.
  rewrite !plus_IZR, !mult_IZR, <- !INR_IZR_INZ in Hb.
  unfold raw_score in *. fold na nr in Hb |- *. lra.
Qed.

(** Two fragments with the entropies 3 and 3.5. *)
Lemma score_range_witness :
  exists res,
    assemble_final_answer
      [sample_fragment "agent-0" 3; sample_fragment "agent-1" 3.5] "00"
    = Ok res
    /\ forall g, In g (ConsensusResult.allGroups res) ->
         3.5 <= ScoredGroup.score g
         <= 2 * INR (ScoredGroup.agentCount g)
            + 1.5 * INR (ScoredGroup.roundCount g) + 12.
Proof.
  apply score_range.
  intros f [<- | [<- | []]]; cbn [Fragment.entropy sample_fragment]; lra.
Defined.

End ScoreLaws.

(* ------------------------------------------------------------------ *)
(** ** AgentOrchestrator: the top-level error *)

Module ErrorLaws.
Import Spec.

Section Run.
Variable sha256 : string -> string.
Variable time_time : string.
Variable random_random : nat -> string.
Variable requests_post : Payload.t -> Reply.t.

Local Abbreviation orchestrate :=
  (Orchestrator.orchestrate sha256 time_time random_random requests_post).

(** X19: the endpoint answers with the HTTP 500 error, has made no call and
    leaves the rotator where it was, when the body of the request is no
    JSON object, when the code context cannot be encoded for the digest,
    and when [agentCount] or [maxRounds] is no integer.  It answers with
    the same error when a call of the service gets an unreadable reply; the
    rotator then keeps the calls made up to that one. *)
Theorem error_answers (c : nat) :
  orchestrate Body.NotObject c = (Response.Error 500, c)
  /\ orchestrate Body.Unencodable c = (Response.Error 500, c)
  /\ (forall data,
        Request.agentCount data = Json.NotInt
        \/ Request.maxRounds data = Json.NotInt ->
        orchestrate (Body.Object data) c = (Response.Error 500, c))
  /\ (forall data a m r i,
        Request.agentCount data = Json.Int a ->
        Request.maxRounds data = Json.Int m ->
        first_unreadable requests_post data (Z.to_nat a) (Z.to_nat m) c r i ->
        orchestrate (Body.Object data) c =
        (Response.Error 500, c + r * Z.to_nat a + i + 1)).
Proof.
  split; [reflexivity |]. split; [reflexivity |]. split.
  - intros data H.
    now apply OrchestratorFacts.orchestrate_type_error.
  - intros data a m r i Ha Hm Hfirst.
    now apply (OrchestratorLaws.orchestrate_abort _ _ _ _ _ a m).
Qed.

End Run.

(** A request whose [maxRounds] is no integer, and the sample request with
    a service that sends an unreadable reply to the second agent. *)
Lemma error_answers_witness :
  Orchestrator.orchestrate sample_digest sample_time sample_random
    refusing_service (Body.Object malformed_request) 3
  = (Response.Error 500, 3)
  /\ Orchestrator.orchestrate sample_digest sample_time sample_random
       faltering_service (Body.Object sample_request) 0
     = (Response.Error 500, 2).
Proof.
  destruct (error_answers sample_digest sample_time sample_random
              refusing_service 3) as (_ & _ & Hint & _).
  destruct (error_answers sample_digest sample_time sample_random
              faltering_service 0) as (_ & _ & _ & Hreply).
  split.
  - apply Hint. right. reflexivity.
  - apply (Hreply sample_request 2%Z 1%Z 0 1 eq_refl eq_refl).
    split; [cbn; lia |]. split; [cbn; lia |]. split; [reflexivity |].
    intros r' i' Hr' Hi' Hlt. cbn in Hr', Hi', Hlt.
    assert (r' = 0) by lia. assert (i' = 0) by lia. subst. reflexivity.
Defined.

End ErrorLaws.
